(** * Verification of the retrieval pipeline of search.go

    The development follows the first variant of [search.go] (the one with
    the text processor, the inverted index and the TF-IDF table): its text
    normalizer, index builder, weighting, scoring, preview generator and
    query engine are embedded as Rocq functions and the properties of the
    written specification are stated about them.

    Go strings are byte sequences; they are [list ascii] here, [len] is
    [length], and a slice [s[i:j]] is [take (j - i) (drop i s)]. *)

From Stdlib Require Import Ascii String List Arith ZArith Lia Bool.
From Stdlib Require Import Uint63 Floats.
From stdpp Require Import base tactics option list sorting gmap strings.

Set Default Proof Using "Type".
Local Open Scope nat_scope.
Local Open Scope list_scope.

(** ** Byte strings *)

Abbreviation str := (list ascii).

(** String literals of the source are written as Rocq strings and read as
    byte lists. *)
Coercion list_ascii_of_string : string >-> list.

Definition strs (l : list string) : list str := map list_ascii_of_string l.

Fixpoint dropWhile {A} (f : A → bool) (l : list A) : list A :=
  match l with
  | x :: rest => if f x then dropWhile f rest else l
  | [] => []
  end.

(** ** Characters *)

Definition code (c : ascii) : N := N_of_ascii c.

Definition between (lo hi : N) (c : ascii) : bool :=
  (lo <=? code c)%N && (code c <=? hi)%N.

Definition isDigit (c : ascii) : bool := between 48 57 c.
Definition isUpper (c : ascii) : bool := between 65 90 c.
Definition isLower (c : ascii) : bool := between 97 122 c.
Definition isLetter (c : ascii) : bool := isUpper c || isLower c.
Definition isASCII (c : ascii) : bool := (code c <? 128)%N.

(** The members of the regexp classes [\w] ([[0-9A-Za-z_]]) and [\s]
    ([[\t\n\f\r ]]); both are ASCII-only in Go's syntax. *)
Definition isWordChar (c : ascii) : bool :=
  isLetter c || isDigit c || Ascii.eqb c "_".
Definition isReSpace (c : ascii) : bool :=
  between 9 10 c || between 12 13 c || (code c =? 32)%N.

(** White space of package [strings] on ASCII text (the [asciiSpace] table):
    ['\t'], ['\n'], ['\v'], ['\f'], ['\r'] and [' ']. *)
Definition isSpace (c : ascii) : bool := between 9 13 c || (code c =? 32)%N.

Module unicode.
(** [unicode.ToLower] on an ASCII byte. *)
Definition ToLower (c : ascii) : ascii :=
  if isUpper c then ascii_of_N (code c + 32) else c.
End unicode.

(** ** Package [strings]

    [ToLower], [TrimSpace] and [Fields] are given for text without bytes above
    127, which is what the program hands to them (see
    [removePunctuationsAndNumbers_ascii] and [cleanContent_bytes] below);
    there Go's white space is the [asciiSpace] table. *)

Module strings.

(** [HasPrefix(s, prefix)]:
    [len(s) >= len(prefix) && s[:len(prefix)] == prefix]. *)
Definition HasPrefix (s prefix : str) : bool :=
  (length prefix <=? length s) && bool_decide (take (length prefix) s = prefix).

(** [strings.HasSuffix(s, suffix)]:
    [len(s) >= len(suffix) && s[len(s)-len(suffix):] == suffix]. *)
Definition HasSuffix (s suffix : str) : bool :=
  (length suffix <=? length s)
  && bool_decide (drop (length s - length suffix) s = suffix).

(** [strings.TrimPrefix]: [s[len(prefix):]] when [s] has the prefix. *)
Definition TrimPrefix (s prefix : str) : str :=
  if HasPrefix s prefix then drop (length prefix) s else s.

(** [strings.TrimSuffix]: [s[:len(s)-len(suffix)]] when [s] has the suffix. *)
Definition TrimSuffix (s suffix : str) : str :=
  if HasSuffix s suffix then take (length s - length suffix) s else s.

(** [strings.ToLower]; for a string without bytes above 127 Go lowers it
    byte by byte. *)
Definition ToLower (t : str) : str := map unicode.ToLower t.

(** [strings.TrimSpace]. *)
Definition TrimSpace (t : str) : str :=
  reverse (dropWhile isSpace (reverse (dropWhile isSpace t))).

Definition pushField (f : str) (fs : list str) : list str :=
  match f with
  | [] => fs
  | _ => f :: fs
  end.

(** [fieldsFrom t] is the field [t] starts in (empty when [t] starts with
    white space) and the fields after it. *)
Fixpoint fieldsFrom (t : str) : str * list str :=
  match t with
  | [] => ([], [])
  | c :: t =>
      let '(f, fs) := fieldsFrom t in
      if isSpace c then ([], pushField f fs) else (c :: f, fs)
  end.

(** [strings.Fields]: the maximal runs of bytes that are not white space. *)
Definition Fields (t : str) : list str :=
  let '(f, fs) := fieldsFrom t in pushField f fs.

(** [strings.Join]. *)
Fixpoint Join (elems : list str) (sep : str) : str :=
  match elems with
  | [] => []
  | [e] => e
  | e :: rest => e ++ sep ++ Join rest sep
  end.

(** [strings.Index]: the byte offset of the first instance of [substr],
    or -1. *)
Fixpoint indexFrom (t substr : str) : option nat :=
  if HasPrefix t substr then Some 0
  else
    match t with
    | [] => None
    | _ :: t => S <$> indexFrom t substr
    end.

Definition Index (t substr : str) : Z :=
  match indexFrom t substr with
  | Some i => Z.of_nat i
  | None => (-1)%Z
  end.

(** [strings.ReplaceAll] for a nonempty [old]: instances are found from
    left to right and do not overlap; [skip] counts the bytes of the
    current instance still to be passed. *)
Fixpoint replaceAllFrom (old new : str) (skip : nat) (t : str) : str :=
  match t with
  | [] => []
  | c :: rest =>
      match skip with
      | S k => replaceAllFrom old new k rest
      | O =>
          if HasPrefix t old
          then new ++ replaceAllFrom old new (length old - 1) rest
          else c :: replaceAllFrom old new 0 rest
      end
  end.

Definition ReplaceAll (t old new : str) : str := replaceAllFrom old new 0 t.

End strings.

(** ** The stemmer (search.go, [prefixes], [suffixes], [stem]) *)

Definition prefixes : list str :=
  strs ["me"; "pe"; "be"; "te"; "di"; "ke"; "se";
        "ber"; "per"; "ter"; "mem"; "pem"; "pen";
        "meng"; "peng"; "meny"; "peny"]%string.

Definition suffixes : list str :=
  strs ["kan"; "an"; "i"; "lah"; "kah"; "nya"; "ku"; "mu";
        "wan"; "wati"; "isme"]%string.

(** The suffix loop: the first suffix the word ends with is trimmed and the
    loop is left ([break]). *)
Fixpoint stripSuffix (sfx : list str) (word : str) : str :=
  match sfx with
  | [] => word
  | suffix :: rest =>
      if strings.HasSuffix word suffix then strings.TrimSuffix word suffix
      else stripSuffix rest word
  end.

(** The prefix loop: the [break] sits inside the length test, so a prefix
    that matches but leaves fewer than 4 bytes does not end the scan. *)
Fixpoint stripPrefix (pfx : list str) (word : str) : str :=
  match pfx with
  | [] => word
  | prefix :: rest =>
      if strings.HasPrefix word prefix then
        let stemmed := strings.TrimPrefix word prefix in
        if 4 <=? length stemmed then stemmed else stripPrefix rest word
      else stripPrefix rest word
  end.

Definition stem (word : str) : str :=
  if length word <? 4 then word
  else
    let origWord := word in
    let word := stripSuffix suffixes word in
    let word := stripPrefix prefixes word in
    if length word <? 3 then origWord else word.

Definition stemming (tokens : list str) : list str := map stem tokens.

(** The stemmer as the specification words it: the first suffix of the list
    that matches is stripped; then the first prefix of the list that matches
    is stripped, but only if at least 4 bytes remain; a result shorter than
    3 bytes is given up for the original token. *)
Definition stem_spec (word : str) : str :=
  if length word <? 4 then word
  else
    let w1 :=
      match find (strings.HasSuffix word) suffixes with
      | Some suffix => take (length word - length suffix) word
      | None => word
      end in
    let w2 :=
      match find (strings.HasPrefix w1) prefixes with
      | Some prefix =>
          let rest := drop (length prefix) w1 in
          if 4 <=? length rest then rest else w1
      | None => w1
      end in
    if length w2 <? 3 then word else w2.

(** ** UTF-8 decoding, as the regexp package steps through a string *)

Module utf8.

Definition cont (c : ascii) : bool := between 128 191 c.

(** Width of the rune that starts with byte [b0] and is followed by
    [rest], after [utf8.DecodeRuneInString] (table [first] and
    [acceptRanges]); an ill-formed or truncated sequence is one byte wide
    and decodes to [RuneError]. *)
Definition runeWidth (b0 : ascii) (rest : str) : nat :=
  let x := code b0 in
  if (x <? 128)%N then 1
  else if between 194 223 b0 then
    match rest with
    | b1 :: _ => if cont b1 then 2 else 1
    | _ => 1
    end
  else if between 224 239 b0 then
    let lo := if (x =? 224)%N then 160%N else 128%N in
    let hi := if (x =? 237)%N then 159%N else 191%N in
    match rest with
    | b1 :: b2 :: _ => if between lo hi b1 && cont b2 then 3 else 1
    | _ => 1
    end
  else if between 240 244 b0 then
    let lo := if (x =? 240)%N then 144%N else 128%N in
    let hi := if (x =? 244)%N then 143%N else 191%N in
    match rest with
    | b1 :: b2 :: b3 :: _ =>
        if between lo hi b1 && cont b2 && cont b3 then 4 else 1
    | _ => 1
    end
  else 1.

(** The runes of a string, each given by its bytes. *)
Fixpoint runes_fuel (fuel : nat) (s : str) : list str :=
  match fuel, s with
  | S fuel, b0 :: rest =>
      let w := runeWidth b0 rest in
      (b0 :: take (w - 1) rest) :: runes_fuel fuel (drop (w - 1) rest)
  | _, _ => []
  end.

Definition runes (s : str) : list str := runes_fuel (length s) s.

End utf8.

(** ** Regular expressions

    Package [regexp] is not part of the repository. Its matching is
    leftmost-first: a match starts as early as possible and, among the
    matches starting there, is the one a backtracking search finds first.
    [exec] lists the outcomes of such a search at one starting point, in the
    order the search tries them; the head of the list is the match. The
    syntax covers what the patterns of the program use; repetition is over
    character classes only. *)

Module regexp.

(** A character class: its ASCII members, and whether it holds runes
    outside ASCII (a negated class does; so does [RuneError]). *)
Record class := Class { cls_ascii : ascii → bool; cls_other : bool }.

Definition inClass (k : class) (r : str) : bool :=
  match r with
  | [c] => if isASCII c then cls_ascii k c else cls_other k
  | _ => cls_other k
  end.

Definition char (c : ascii) : class := Class (Ascii.eqb c) false.
Definition neg (k : class) : class :=
  Class (λ c, negb (cls_ascii k c)) (negb (cls_other k)).
Definition union (k1 k2 : class) : class :=
  Class (λ c, cls_ascii k1 c || cls_ascii k2 c) (cls_other k1 || cls_other k2).
Definition oneOf (cs : str) : class :=
  Class (λ c, existsb (Ascii.eqb c) cs) false.

(** [\d], [\w], [\s] and their negations. *)
Definition digit : class := Class isDigit false.
Definition word : class := Class isWordChar false.
Definition space : class := Class isReSpace false.
Definition nonspace : class := neg space.
Definition alnum : class := Class (λ c, isLetter c || isDigit c) false.

Inductive regex :=
| Eps
| Chr (k : class)
| Seq (r1 r2 : regex)
| Alt (r1 r2 : regex)
| Plus (k : class)
| Star (k : class)
| Opt (r : regex)
| WordBoundary.

(** A literal string, byte after byte. *)
Fixpoint lit (t : str) : regex :=
  match t with
  | [] => Eps
  | c :: t => Seq (Chr (char c)) (lit t)
  end.

Definition isWordRune (r : str) : bool := inClass word r.

Definition nextIsWord (rs : list str) : bool :=
  match rs with
  | r :: _ => isWordRune r
  | [] => false
  end.

(** A search position: whether the rune just before it is a word
    character (the text's edge is not), and the runes ahead. *)
Definition position : Type := bool * list str.

(** Greedy repetition: the longest run first, the empty run last. *)
Fixpoint many (k : class) (prevWord : bool) (rs : list str) : list position :=
  match rs with
  | r :: rest =>
      if inClass k r then many k (isWordRune r) rest ++ [(prevWord, rs)]
      else [(prevWord, rs)]
  | [] => [(prevWord, rs)]
  end.

Fixpoint exec (re : regex) (prevWord : bool) (rs : list str) : list position :=
  match re with
  | Eps => [(prevWord, rs)]
  | Chr k =>
      match rs with
      | r :: rest => if inClass k r then [(isWordRune r, rest)] else []
      | [] => []
      end
  | Seq r1 r2 =>
      flat_map (λ p : position, exec r2 p.1 p.2) (exec r1 prevWord rs)
  | Alt r1 r2 => exec r1 prevWord rs ++ exec r2 prevWord rs
  | Plus k =>
      match rs with
      | r :: rest => if inClass k r then many k (isWordRune r) rest else []
      | [] => []
      end
  | Star k => many k prevWord rs
  | Opt r => exec r prevWord rs ++ [(prevWord, rs)]
  | WordBoundary =>
      if xorb prevWord (nextIsWord rs) then [(prevWord, rs)] else []
  end.

(** Number of runes the match at this position consumes, if there is one. *)
Definition matchLen (re : regex) (prevWord : bool) (rs : list str) : option nat :=
  match exec re prevWord rs with
  | (_, rest) :: _ => Some (length rs - length rest)
  | [] => None
  end.

(** The loop of [ReplaceAllString]: text between matches is copied, each
    match is replaced, and the search resumes where the match ended.
    [skip] counts the runes of the current match still to be passed.
    No pattern of the program matches the empty string, and an empty match
    is not replaced here. *)
Fixpoint replaceAll (re : regex) (repl : str) (prevWord : bool) (skip : nat)
    (rs : list str) : str :=
  match rs with
  | [] => []
  | r :: rest =>
      match skip with
      | S k => replaceAll re repl (isWordRune r) k rest
      | O =>
          match matchLen re prevWord rs with
          | Some (S k) => repl ++ replaceAll re repl (isWordRune r) k rest
          | _ => r ++ replaceAll re repl (isWordRune r) 0 rest
          end
      end
  end.

Definition ReplaceAllString (re : regex) (src repl : str) : str :=
  replaceAll re repl false 0 (utf8.runes src).

End regexp.


(** ** The text processor (search.go, [TextProcessor]) *)

Module tp.

Import regexp.

(** The keys of the map [initializeStopWords] returns. *)
Definition initializeStopWords : list str :=
  strs [ "yang"; "dan"; "atau"; "tetapi"; "namun";
         "melainkan"; "sedangkan"; "sebaliknya";
         "di"; "ke"; "dari"; "dalam"; "kepada";
         "pada"; "oleh"; "untuk"; "bagi"; "tentang";
         "menurut"; "seperti"; "sebagai";
         "ini"; "itu"; "tersebut"; "berikut";
         "saya"; "anda"; "dia"; "mereka"; "kita";
         "kami"; "kamu"; "ia"; "beliau";
         "akan"; "sudah"; "telah"; "sedang"; "masih";
         "hendak"; "bisa"; "dapat"; "bukan"; "jangan";
         "sangat"; "hanya"; "juga"; "saja"; "lagi";
         "sekarang"; "yakni"; "yaitu";
         "apa"; "siapa"; "dimana"; "kapan"; "kenapa";
         "bagaimana"; "mengapa";
         "satu"; "dua"; "tiga"; "empat"; "lima";
         "enam"; "tujuh"; "delapan"; "sembilan"; "sepuluh";
         "pertama"; "kedua"; "ketiga"; "keempat"; "kelima" ]%string.

(** [tp.stopWords[w]]: every listed key maps to [true], a missing key
    reads [false]. *)
Definition stopWords (w : str) : bool := bool_decide (w ∈ initializeStopWords).

(** [[^\w\s]] *)
Definition punctuation : regex := Chr (neg (union word space)).

(** [\b\d+\b] *)
Definition numbers : regex := Seq WordBoundary (Seq (Plus digit) WordBoundary).

Definition removePunctuationsAndNumbers (text : str) : str :=
  let text := ReplaceAllString punctuation text " "%string in
  let text := ReplaceAllString numbers text " "%string in
  strings.TrimSpace text.

Definition removeStopwords (text : str) : list str :=
  List.filter (λ word, negb (stopWords (strings.ToLower word))) (strings.Fields text).

Definition caseFolding (tokens : list str) : list str := map strings.ToLower tokens.

Definition ProcessText (text : str) : list str :=
  let cleaned := removePunctuationsAndNumbers text in
  let withoutStopwords := removeStopwords cleaned in
  let folded := caseFolding withoutStopwords in
  stemming folded.

End tp.


(** ** The inverted index (search.go, [buildInvertedIndex])

    Go's [int] counters and offsets are natural numbers here: they count
    tokens held in memory and stay far below 2^63. The maps behind the
    pointers are updated in place in Go; the index is passed along here. *)

Record Article := { Title : str; Content : str; URL : str }.

Record Posting := { DocID : nat; Frequency : nat; Positions : list nat }.

Record PostingList := { DocFrequency : nat; Postings : gmap nat Posting }.

Abbreviation InvertedIndex := (gmap str PostingList).

Definition NewInvertedIndex : InvertedIndex := ∅.

(** The body of the inner loop, for [token] at offset [pos] of document
    [docID]. *)
Definition addToken (docID pos : nat) (token : str) (idx : InvertedIndex)
    : InvertedIndex :=
  let emptyList := {| DocFrequency := 0; Postings := ∅ |} in
  let emptyPosting := {| DocID := docID; Frequency := 0; Positions := [] |} in
  (* if _, exists := idx.Index[token]; !exists *)
  let idx :=
    match idx !! token with
    | Some _ => idx
    | None => <[token := emptyList]> idx
    end in
  let list := default emptyList (idx !! token) in
  (* if _, exists := idx.Index[token].Postings[docID]; !exists *)
  let list :=
    match Postings list !! docID with
    | Some _ => list
    | None =>
        {| DocFrequency := S (DocFrequency list);
           Postings := <[docID := emptyPosting]> (Postings list) |}
    end in
  let posting := default emptyPosting (Postings list !! docID) in
  let posting :=
    {| DocID := DocID posting;
       Frequency := S (Frequency posting);
       Positions := Positions posting ++ [pos] |} in
  <[token := {| DocFrequency := DocFrequency list;
                Postings := <[docID := posting]> (Postings list) |}]> idx.

(** [for pos, token := range tokens] *)
Fixpoint indexTokens (docID pos : nat) (tokens : list str) (idx : InvertedIndex)
    : InvertedIndex :=
  match tokens with
  | [] => idx
  | token :: rest => indexTokens docID (S pos) rest (addToken docID pos token idx)
  end.

(** [for docID, article := range articles] *)
Fixpoint indexArticles (docID : nat) (articles : list Article) (idx : InvertedIndex)
    : InvertedIndex :=
  match articles with
  | [] => idx
  | article :: rest =>
      let tokens :=
        tp.ProcessText (Title article ++ " "%string ++ Content article) in
      indexArticles (S docID) rest (indexTokens docID 0 tokens idx)
  end.

Definition buildInvertedIndex (articles : list Article) : InvertedIndex :=
  indexArticles 0 articles NewInvertedIndex.

(** ** The content preview (search.go, [cleanContent], [getContentPreview]) *)

Definition len (t : str) : Z := Z.of_nat (length t).

(** A slice expression [t[lo:hi]]; Go panics when the bounds are not
    [0 <= lo <= hi <= len(t)], which is [None] here. *)
Definition slice (t : str) (lo hi : Z) : option str :=
  if ((0 <=? lo) && (lo <=? hi) && (hi <=? len t))%Z
  then Some (take (Z.to_nat (hi - lo)) (drop (Z.to_nat lo) t))
  else None.

Module clean.

Import regexp.

Definition seqs (rs : list regex) : regex := fold_right Seq Eps rs.

Definition unwantedTexts : list str :=
  strs [ "Baca juga:"; "Baca Juga:";
         "Simak breaking news"; "Google News";
         "Terus ikuti"; "Lebih banyak informasi";
         "Follow"; "Instagram"; "Twitter"; "Facebook";
         "Bagikan:"; "Share:"; "Read more" ]%string.

Definition urlPatterns : list regex :=
  [ (* https?://\S+ *)
    seqs [lit "http"%string; Opt (lit "s"%string); lit "://"%string; Plus nonspace];
    (* www\.\S+ *)
    seqs [lit "www."%string; Plus nonspace];
    (* \S+\.(com|net|org)\S* *)
    seqs [Plus nonspace; lit "."%string;
          Alt (lit "com"%string) (Alt (lit "net"%string) (lit "org"%string));
          Star nonspace] ].

(** [\S+@\S+\.\S+] *)
Definition emailPattern : regex :=
  seqs [Plus nonspace; lit "@"%string; Plus nonspace; lit "."%string; Plus nonspace].

(** [@\S+] *)
Definition socialPattern : regex := seqs [lit "@"%string; Plus nonspace].

(** [[^a-zA-Z0-9\s]+] *)
Definition specialCharsPattern : regex := Plus (neg (union alnum space)).

(** [\s+\d+\s+] *)
Definition numberPattern : regex := seqs [Plus space; Plus digit; Plus space].

(** [\s+] *)
Definition whitespacePattern : regex := Plus space.

(** [\s*[.,!?;:]\s*] *)
Definition punctuationSpacing : regex :=
  seqs [Star space; Chr (oneOf ".,!?;:"%string); Star space].

(** The loop that drops a word equal to the one before it. *)
Fixpoint uniqueWords (prev : str) (words : list str) : list str :=
  match words with
  | [] => []
  | word :: rest =>
      if bool_decide (word ≠ prev) then word :: uniqueWords word rest
      else uniqueWords prev rest
  end.

Definition cleanContent (content : str) : str :=
  (* 1. Remove unwanted texts *)
  let content :=
    fold_left (λ content text, strings.ReplaceAll content text []) unwantedTexts content in
  (* 2. Remove all URLs *)
  let content :=
    fold_left (λ content pattern, ReplaceAllString pattern content [])
      urlPatterns content in
  (* 3. Remove email addresses *)
  let content := ReplaceAllString emailPattern content [] in
  (* 4. Remove social media handles *)
  let content := ReplaceAllString socialPattern content [] in
  (* 5. Remove special characters and punctuation *)
  let content := ReplaceAllString specialCharsPattern content " "%string in
  (* 6. Remove standalone numbers *)
  let content := ReplaceAllString numberPattern content " "%string in
  (* 7. Remove extra whitespace *)
  let content := ReplaceAllString whitespacePattern content " "%string in
  (* 8. Remove leading/trailing spaces *)
  let content := strings.TrimSpace content in
  (* 9. Normalize spaces after punctuation marks *)
  let content := ReplaceAllString punctuationSpacing content " "%string in
  (* 10. Remove repeated words *)
  let words := strings.Fields content in
  let content := strings.Join (uniqueWords [] words) " "%string in
  (* 11. Final whitespace normalization *)
  let content := strings.TrimSpace content in
  ReplaceAllString whitespacePattern content " "%string.

End clean.

Export clean(cleanContent).

(** The loop [for i := 0; i < wordCount && i < len(words); i++] that adds up
    [len(words[i]) + 1]. *)
Fixpoint wordOffset (wordCount : nat) (words : list str) (wordPos : Z) : Z :=
  match wordCount, words with
  | S n, word :: rest => wordOffset n rest (wordPos + len word + 1)
  | _, _ => wordPos
  end.

(** [pos]: where the normalized query phrase is found in the normalized
    content, or -1. *)
Definition matchPos (cleanedContent query : str) : Z :=
  let queryText := strings.Join (tp.ProcessText query) " "%string in
  let contentText := strings.Join (tp.ProcessText cleanedContent) " "%string in
  strings.Index (strings.ToLower contentText) (strings.ToLower queryText).

(** [wordPos]: the match translated into a byte offset of the cleaned
    content; it takes the slice [contentText[:pos]]. *)
Definition matchWordPos (cleanedContent : str) (pos : Z) : option Z :=
  let contentText := strings.Join (tp.ProcessText cleanedContent) " "%string in
  let words := strings.Fields cleanedContent in
  before ← slice contentText 0 pos;
  let wordCount := length (strings.Fields before) in
  Some (wordOffset wordCount words 0).

Definition windowStart (wordPos : Z) : Z :=
  let start := (wordPos - 60)%Z in
  if (start <? 0)%Z then 0%Z else start.

Definition windowEnd (cleanedContent : str) (start maxLength : Z) : Z :=
  let end_ := (start + maxLength)%Z in
  if (len cleanedContent <? end_)%Z then len cleanedContent else end_.

(** The window with its ellipsis marks. *)
Definition decorate (cleanedContent : str) (start end_ : Z) (window : str) : str :=
  let result := window in
  let result := if (0 <? start)%Z then "..."%string ++ result else result in
  if (end_ <? len cleanedContent)%Z then result ++ "..."%string else result.

(** The offsets stay below [len(cleanedContent) + 161], so Go's 64-bit [int]
    does not wrap and they are integers here. The argument [maxLength] is
    overwritten by the assignment [maxLength = 160] before it is read. *)
Definition getContentPreview (content query : str) (maxLength : Z) : option str :=
  let cleanedContent := cleanContent content in
  let maxLength := 160%Z in
  if (len cleanedContent <=? maxLength)%Z then Some cleanedContent
  else
    let pos := matchPos cleanedContent query in
    if (pos =? -1)%Z then
      head ← slice cleanedContent 0 maxLength;
      Some (head ++ "..."%string)
    else
      wordPos ← matchWordPos cleanedContent pos;
      let start := windowStart wordPos in
      let end_ := windowEnd cleanedContent start maxLength in
      window ← slice cleanedContent start end_;
      Some (decorate cleanedContent start end_ window).

(** ** Weights and scores (search.go, [calculateTFIDF] and the two
    similarities)

    [float64] is the binary64 type of Rocq's primitive floats, with the same
    IEEE 754 operations, each rounded on its own (Go may fuse [x*y + z] on
    some processors; on amd64 it does not). [math.Log] belongs to Go's
    library and is a parameter. Go ranges over a map in no fixed order; the
    folds below range in the order of [map_fold], which is one such order. *)

Definition float64 (n : nat) : float := PrimFloat.of_uint63 (Uint63.of_Z (Z.of_nat n)).

Abbreviation TFIDFTable := (gmap str (gmap nat float)).

Section Weights.

Variable Log : float → float.

Definition calculateTFIDF (invertedIndex : InvertedIndex) (totalDocs : nat)
    : TFIDFTable :=
  (λ postingList : PostingList,
     (* idf := math.Log(float64(totalDocs) / float64(postingList.DocFrequency)) *)
     let idf := Log (float64 totalDocs / float64 (DocFrequency postingList))%float in
     (λ posting : Posting,
        let tf := float64 (Frequency posting) in
        (tf * idf)%float) <$> Postings postingList)
  <$> invertedIndex.

End Weights.

Definition normalizeVector (vector : gmap str float) : gmap str float :=
  let magnitude :=
    map_fold (λ _ weight magnitude, magnitude + weight * weight)%float 0%float vector in
  let magnitude := PrimFloat.sqrt magnitude in
  if (0 <? magnitude)%float
  then (λ weight, weight / magnitude)%float <$> vector
  else ∅.

(** The column of a document: the terms with an entry for [docID]. *)
Definition docVectorOf (tfidfScores : TFIDFTable) (docID : nat) : gmap str float :=
  omap (λ scores : gmap nat float, scores !! docID) tfidfScores.

Definition cosineSimilarityWithTFIDF (queryVector : gmap str float)
    (tfidfScores : TFIDFTable) (docID : nat) : float :=
  let docVector := docVectorOf tfidfScores docID in
  let normalizedQuery := normalizeVector queryVector in
  let normalizedDoc := normalizeVector docVector in
  map_fold
    (λ term queryWeight dotProduct,
       match normalizedDoc !! term with
       | Some docWeight => (dotProduct + queryWeight * docWeight)%float
       | None => dotProduct
       end)
    0%float normalizedQuery.

Definition jaccardSimilarityWithTFIDF (queryVector : gmap str float)
    (tfidfScores : TFIDFTable) (docID : nat) : float :=
  let querySet : gset str := dom queryVector in
  let docSet : gset str := dom (docVectorOf tfidfScores docID) in
  let intersection := size (querySet ∩ docSet) in
  let union := size querySet + size docSet - intersection in
  if union =? 0 then 0%float
  else (float64 intersection / float64 union)%float.

(** ** The query engine (search.go, [searching]) *)

(** The fields [Title], [Content] and [URL] of [SearchResult] carry the
    prefix [Result], since [Article] has fields of these names. *)
Record SearchResult := {
  ResultTitle : str;
  ResultContent : str;
  ResultURL : str;
  Score : float;
  HighlightedContent : str;
  Favicon : str
}.

Definition getFaviconPath (url : str) : str :=
  if strings.HasPrefix url "https://artikel.rumah123.com/"%string
  then "/static/rumah123.png"%string
  else if strings.HasPrefix url "https://propertiterkini.com/"%string
  then "/static/propertiterkini.png"%string
  else if strings.HasPrefix url "https://propertyandthecity.com/"%string
  then "/static/propertyandthecity.png"%string
  else "/static/favicon.svg"%string.

(** [queryVector[token]++] for each token; a missing key reads 0. *)
Definition countTokens (tokens : list str) : gmap str float :=
  fold_left
    (λ queryVector token,
       <[token := (default 0 (queryVector !! token) + 1)%float]> queryVector)
    tokens ∅.

(** The [less] function handed to [sort.Slice]:
    [results[i].Score > results[j].Score]. *)
Definition byScore (a b : SearchResult) : bool := (Score b <? Score a)%float.

(** What [sort.Slice] asks of [less] (package [sort], "Less must describe a
    transitive ordering"), on the elements being sorted. *)
Definition transitiveOrdering {A} (less : A → A → bool) (l : list A) : Prop :=
  (∀ a, a ∈ l → less a a = false)
  ∧ (∀ a b c, a ∈ l → b ∈ l → c ∈ l →
       less a b = true → less b c = true → less a c = true)
  ∧ (∀ a b c, a ∈ l → b ∈ l → c ∈ l →
       less a b = false → less b c = false → less a c = false).

Section Search.

(** Go's library and the pieces of the program no property here depends
    on: [math.Log]; [highlightText], which compiles a pattern from the
    query at run time; and [sort.Slice], which returns the elements in an
    order where no element is [less] than one before it, ties in any
    order. *)
Variable Log : float → float.
Variable highlightText : str → str → str.
Variable sortSlice :
  (SearchResult → SearchResult → bool) → list SearchResult → list SearchResult.

Definition similarity (method : str) (queryVector : gmap str float)
    (tfidfScores : TFIDFTable) (i : nat) : float :=
  if bool_decide (method = "cosine"%string :> str)
  then cosineSimilarityWithTFIDF queryVector tfidfScores i
  else if bool_decide (method = "jaccard"%string :> str)
  then jaccardSimilarityWithTFIDF queryVector tfidfScores i
  else cosineSimilarityWithTFIDF queryVector tfidfScores i.

(** [for i, article := range articles]; the result is [None] if a preview
    panics. *)
Fixpoint rankArticles (query method : str) (queryVector : gmap str float)
    (tfidfScores : TFIDFTable) (i : nat) (articles : list Article)
    : option (list SearchResult) :=
  match articles with
  | [] => Some []
  | article :: rest =>
      let score := similarity method queryVector tfidfScores i in
      if (0 <? score)%float then
        contentPreview ← getContentPreview (Content article) query 160;
        let highlightedContent := highlightText contentPreview query in
        results ← rankArticles query method queryVector tfidfScores (S i) rest;
        Some ({| ResultTitle := Title article;
                 ResultContent := contentPreview;
                 ResultURL := URL article;
                 Score := score;
                 HighlightedContent := highlightedContent;
                 Favicon := getFaviconPath (URL article) |} :: results)
      else rankArticles query method queryVector tfidfScores (S i) rest
  end.

(** [loaded] is what [loadArticles] returns: the articles, or [None] for an
    error, on which [searching] returns no result. *)
Definition searching (loaded : option (list Article)) (query method : str)
    : option (list SearchResult) :=
  match loaded with
  | None => Some []
  | Some articles =>
      let invertedIndex := buildInvertedIndex articles in
      let tfidfScores := calculateTFIDF Log invertedIndex (length articles) in
      let queryTokens := tp.ProcessText query in
      let queryVector := countTokens queryTokens in
      results ← rankArticles query method queryVector tfidfScores 0 articles;
      Some (sortSlice byScore results)
  end.

End Search.

(** The score [searching] computes for the document at index [i]. *)
Definition scoreOf (Log : float → float) (articles : list Article)
    (query method : str) (i : nat) : float :=
  similarity method (countTokens (tp.ProcessText query))
    (calculateTFIDF Log (buildInvertedIndex articles) (length articles)) i.

(** [r] is the result made for a document of the collection, with the score
    of that document. *)
Definition resultOf (Log : float → float) (articles : list Article)
    (query method : str) (r : SearchResult) : Prop :=
  ∃ i article,
    articles !! i = Some article
    ∧ ResultTitle r = Title article
    ∧ ResultURL r = URL article
    ∧ Score r = scoreOf Log articles query method i.

(** ** Stand-ins for the library in test runs *)

(** Insertion sort, one of the orders [sort.Slice] may produce. *)
Fixpoint insertSorted {A} (less : A → A → bool) (x : A) (l : list A) : list A :=
  match l with
  | [] => [x]
  | y :: rest => if less x y then x :: l else y :: insertSorted less x rest
  end.

Definition insertionSort {A} (less : A → A → bool) (l : list A) : list A :=
  fold_right (insertSorted less) [] l.

(** Keys under which the floats other than NaN are ordered as numbers:
    the sign class first, then exponent and mantissa. *)
Definition SFkey (f : spec_float) : Z * Z * Z :=
  match f with
  | S754_infinity true => (-2, 0, 0)%Z
  | S754_finite true m e => (-1, - e, - Z.pos m)%Z
  | S754_zero _ => (0, 0, 0)%Z
  | S754_nan => (0, 0, 0)%Z
  | S754_finite false m e => (1, e, Z.pos m)%Z
  | S754_infinity false => (2, 0, 0)%Z
  end.

Definition keyLt (k1 k2 : Z * Z * Z) : Prop :=
  (k1.1.1 < k2.1.1
   ∨ (k1.1.1 = k2.1.1
      ∧ (k1.1.2 < k2.1.2 ∨ (k1.1.2 = k2.1.2 ∧ k1.2 < k2.2))))%Z.

(** A function that, like the logarithm, is 0 at 1 and grows; and a
    highlighter that marks nothing. *)
Definition logStandIn (x : float) : float := (x - 1)%float.
Definition plainText (text query : str) : str := text.

(** ** Notions used in the statements and proofs *)

(** The prefixes happen to be listed by non-decreasing length. *)
Fixpoint nondecreasing_length (l : list str) : bool :=
  match l with
  | [] => true
  | p :: rest =>
      forallb (λ q, length p <=? length q) rest && nondecreasing_length rest
  end.

(** What holds of a posting while document [d] is being read and its next
    token has offset [p]. *)
Definition posting_ok (d p doc : nat) (po : Posting) : Prop :=
  DocID po = doc
  ∧ Frequency po = length (Positions po)
  ∧ StronglySorted lt (Positions po)
  ∧ doc ≤ d
  ∧ (doc = d → Forall (λ x, x < p) (Positions po)).

Definition list_ok (d p : nat) (pl : PostingList) : Prop :=
  DocFrequency pl = size (Postings pl)
  ∧ map_Forall (posting_ok d p) (Postings pl).

Definition index_ok (d p : nat) (idx : InvertedIndex) : Prop :=
  map_Forall (λ _, list_ok d p) idx.

(** The runes of an ASCII string are its bytes. *)
Definition bytesAsRunes (t : str) : list str := map (λ c, [c]) t.

(** The bytes of a term: [[a-z0-9_]]. *)
Definition isLowWord (c : ascii) : bool := isLower c || isDigit c || Ascii.eqb c "_".

(** A token: nonempty and free of white space. *)
Definition isToken (t : str) : Prop := t ≠ [] ∧ Forall (λ c, isSpace c = false) t.

(** A term: a nonempty string over [[a-z0-9_]]. *)
Definition isTerm (t : str) : Prop := t ≠ [] ∧ Forall (λ c, isLowWord c = true) t.

(** The bytes the punctuation pass can leave. *)
Definition keptByte (c : ascii) : Prop :=
  isASCII c = true ∧ (isWordChar c || isReSpace c) = true.

(** The bytes of a cleaned content: ASCII letters, digits and white space. *)
Definition cleanByte (c : ascii) : Prop :=
  isASCII c = true ∧ (isLetter c || isDigit c || isReSpace c) = true.

(** What the numbers pass makes of each term. *)
Definition blankNumbers (ts : list str) : list str :=
  map (λ t, if forallb isDigit t then " "%string : str else t) ts.

(** The bytes a list of words takes when each is followed by one
    separator. *)
Fixpoint spread (words : list str) : nat :=
  match words with
  | [] => 0
  | w :: rest => S (length w) + spread rest
  end.

Definition notNaN (x : float) : Prop := Prim2SF x ≠ S754_nan.

(** "No element is less than one before it." *)
Definition notBefore {A} (less : A → A → bool) (a b : A) : Prop := less b a = false.

(** ** Sample data for test runs *)

Definition sampleArticles : list Article :=
  [ {| Title := "Harga Rumah Naik"%string;
       Content := "Harga rumah di kota naik tajam tahun ini"%string;
       URL := "u1"%string |};
    {| Title := "Pasar Properti"%string;
       Content := "Pasar properti kota lesu, harga tanah turun"%string;
       URL := "u2"%string |} ].

(** The postings of "harga" in the sample articles: twice in the first
    (title and content), once in the second. *)
Definition samplePostings : PostingList :=
  {| DocFrequency := 2;
     Postings :=
       <[0 := {| DocID := 0; Frequency := 2; Positions := [0; 3] |}]>
         (<[1 := {| DocID := 1; Frequency := 1; Positions := [6] |}]> ∅) |}.

(** 27 times "ab cd ", then "ab cdz": 168 bytes, no word equal to the one
    before it. *)
Definition alternatingContent : str :=
  concat (replicate 27 ("ab cd "%string : str)) ++ "ab cdz"%string.

Definition longContent : str :=
  "Pasar properti nasional terus tumbuh pesat sepanjang tahun lalu menurut laporan terbaru asosiasi pengembang, sementara harga rumah subsidi naik tajam akibat biaya bahan bangunan melonjak tinggi sekali."%string.


(** ** Notions for the contents of the index *)

(** The posting of [term] for document [docID], if the index holds one. *)
Definition postingOf (idx : InvertedIndex) (term : str) (docID : nat) : option Posting :=
  pl ← idx !! term; Postings pl !! docID.

(** The offsets at which [term] stands in [tokens], the first token being at
    offset [pos]. *)
Fixpoint positionsFrom (pos : nat) (term : str) (tokens : list str) : list nat :=
  match tokens with
  | [] => []
  | token :: rest =>
      if bool_decide (token = term) then pos :: positionsFrom (S pos) term rest
      else positionsFrom (S pos) term rest
  end.

(** The tokens [buildInvertedIndex] reads from an article. *)
Definition documentTokens (article : Article) : list str :=
  tp.ProcessText (Title article ++ " "%string ++ Content article).

(** A posting after the occurrences at offsets [ps] of document [docID] have
    been added to it; [old] is [None] when the document had no posting. *)
Definition occurrences (docID : nat) (old : option Posting) (ps : list nat)
    : option Posting :=
  match ps with
  | [] => old
  | _ =>
      let po := default {| DocID := docID; Frequency := 0; Positions := [] |} old in
      Some {| DocID := DocID po;
              Frequency := Frequency po + length ps;
              Positions := Positions po ++ ps |}
  end.

(** Whether [term] is among the tokens of [article]. *)
Definition containsTerm (term : str) (article : Article) : bool :=
  bool_decide (term ∈ documentTokens article).

(** A weight that is zero or NaN: squared and summed up, such weights give
    no magnitude above 0. *)
Definition nullWeight (x : float) : Prop :=
  Prim2SF x = S754_nan ∨ ∃ s, Prim2SF x = S754_zero s.

(** ** The web front end (main.go)

    [trimURLPath] is one of the template functions; [searchHandlerGet] cuts
    the page asked for out of the results of [searching]. *)

(** [strings.SplitN(s, sep, 2)] for a nonempty separator: the text before
    the first instance of [sep] and the text after it, or [s] alone. *)
Definition SplitN2 (s sep : str) : list str :=
  match strings.indexFrom s sep with
  | Some i => [take i s; drop (i + length sep) s]
  | None => [s]
  end.

Definition trimURLPath (url : str) : option str :=
  let url := strings.TrimPrefix url "https://"%string in
  let url := strings.TrimPrefix url "http://"%string in
  let parts := SplitN2 url "/"%string in
  if 1 <? length parts then
    path ← parts !! 1;
    if (50 <? len path)%Z then
      head ← slice path 0 47;
      Some (head ++ "..."%string)
    else Some path
  else Some [].

Definition ITEMS_PER_PAGE : nat := 10.

(** A slice expression [l[lo:hi]] on a slice of any element type. *)
Definition sliceOf {A} (l : list A) (lo hi : Z) : option (list A) :=
  if ((0 <=? lo) && (lo <=? hi) && (hi <=? Z.of_nat (length l)))%Z
  then Some (take (Z.to_nat (hi - lo)) (drop (Z.to_nat lo) l))
  else None.

(** What [searchHandlerGet] hands to the template. *)
Record ResultPage (A : Type) := {
  pagedResults : list A;
  currentPage : Z;
  totalPages : Z;
  totalResults : Z
}.
Arguments pagedResults {A} _.
Arguments currentPage {A} _.
Arguments totalPages {A} _.
Arguments totalResults {A} _.

Section Pages.

(** [int(math.Ceil(x))]: the library's ceiling and Go's conversion to
    [int]. *)
Variable ceilInt : float → Z.

(** The part of [searchHandlerGet] between the call of [searching] and the
    rendering: [page] is the number read from the request (0 when it does
    not parse), [allResults] what [searching] returned. The result is
    [None] if the slice expression panics. *)
Definition paginate {A} (allResults : list A) (page : Z) : option (ResultPage A) :=
  let totalResults := Z.of_nat (length allResults) in
  let totalPages :=
    ceilInt (float64 (length allResults) / float64 ITEMS_PER_PAGE)%float in
  let page :=
    if (page <? 1)%Z then 1%Z
    else if ((totalPages <? page) && (0 <? totalPages))%Z then totalPages
    else page in
  paged ←
    (if (0 <? totalResults)%Z then
       let start := ((page - 1) * Z.of_nat ITEMS_PER_PAGE)%Z in
       let end_ := (start + Z.of_nat ITEMS_PER_PAGE)%Z in
       let end_ := if (totalResults <? end_)%Z then totalResults else end_ in
       sliceOf allResults start end_
     else Some []);
  Some {| pagedResults := paged; currentPage := page;
          totalPages := totalPages; totalResults := totalResults |}.

End Pages.

(** A ceiling for test runs: the least integer not below a finite float. *)
Definition ceilStandIn (x : float) : Z :=
  match Prim2SF x with
  | S754_finite false m e =>
      if (0 <=? e)%Z then (Z.pos m * 2 ^ e)%Z
      else (- ((- Z.pos m) / 2 ^ (- e)))%Z
  | S754_finite true m e =>
      if (0 <=? e)%Z then (- (Z.pos m * 2 ^ e))%Z
      else (- (Z.pos m / 2 ^ (- e)))%Z
  | _ => 0%Z
  end.

(** ** The second variant of search.go

    The file holds a second variant of the program (after the first
    [searching]): it has no text processor and no index, and scores the
    token lists of query and document directly. Its functions carry the
    names of the first variant and are kept apart in a module. As in the
    first variant, [strings.ToLower], [strings.Map], [strings.Fields] and
    [strings.TrimSpace] are given for text without bytes above 127; the
    statements about this variant assume such text. *)

Module variant2.

Import regexp.

Definition unwantedTexts : list str :=
  strs [ "Baca juga:"; "Baca Juga:"; "KOMPAS.com -";
         "Simak breaking news"; "Google News";
         "Terus ikuti"; "Lebih banyak informasi" ]%string.

(** [https?://[^\s)]+] *)
Definition urlPattern : regex :=
  clean.seqs [lit "http"%string; Opt (lit "s"%string); lit "://"%string;
              Plus (neg (union space (char ")")))].

Definition cleanContent (content : str) : str :=
  (* 1. Remove standard unwanted texts *)
  let content :=
    fold_left (λ content text, strings.ReplaceAll content text []) unwantedTexts content in
  (* 2. Remove URL patterns *)
  let content := ReplaceAllString urlPattern content [] in
  (* 3. Remove repeated spaces and clean up *)
  let content := ReplaceAllString clean.whitespacePattern content " "%string in
  strings.TrimSpace content.

(** Here [maxLength] is read. Go's [/] on [int] truncates toward zero
    ([Z.quot]); the offsets stay below twice the length of the content, so
    the 64-bit [int] does not wrap. *)
Definition getContentPreview (content query : str) (maxLength : Z) : option str :=
  let cleanedContent := cleanContent content in
  if (len cleanedContent <=? maxLength)%Z then Some cleanedContent
  else
    let lowerContent := strings.ToLower cleanedContent in
    let lowerQuery := strings.ToLower query in
    let pos := strings.Index lowerContent lowerQuery in
    if (pos =? -1)%Z then
      head ← slice cleanedContent 0 maxLength;
      Some (head ++ "..."%string)
    else
      let start := (pos - Z.quot maxLength 3)%Z in
      let start := if (start <? 0)%Z then 0%Z else start in
      let end_ := (start + maxLength)%Z in
      let end_ := if (len cleanedContent <? end_)%Z then len cleanedContent else end_ in
      result ← slice cleanedContent start end_;
      let result := if (0 <? start)%Z then "..."%string ++ result else result in
      Some (if (end_ <? len cleanedContent)%Z then result ++ "..."%string else result).

(** The marks [tokenize] turns into spaces: [.,!?()[]{}:;] and the double
    quote (byte 34). *)
Definition punctuationMarks : str := ".,!?()[]{}:;"%string ++ [ascii_of_nat 34].

(** The keys of the map [stopWords] of [tokenize]. *)
Definition stopWords : list str :=
  strs [ "yang"; "di"; "ke"; "dari";
         "dan"; "atau"; "ini"; "itu";
         "juga"; "sudah"; "saya"; "anda";
         "dia"; "mereka"; "kita"; "akan";
         "bisa"; "ada"; "tidak"; "saat";
         "oleh"; "setelah"; "para"; "dengan" ]%string.

Definition tokenize (text : str) : list str :=
  let text := strings.ToLower text in
  (* strings.Map *)
  let text :=
    map (λ r, if existsb (Ascii.eqb r) punctuationMarks then " "%char else r) text in
  let tokens := strings.Fields text in
  List.filter
    (λ token, negb (bool_decide (token ∈ stopWords)) && (1 <? length token))
    tokens.

(** The two loops [queryFreq[token]++] and [docFreq[token]++] are
    [countTokens]; the loop over [queryFreq] carries the dot product and the
    magnitude of the query. *)
Definition cosineSimilarity (queryTokens docTokens : list str) : float :=
  let queryFreq := countTokens queryTokens in
  let docFreq := countTokens docTokens in
  let sums :=
    map_fold
      (λ token freq (sums : float * float),
         let dotProduct :=
           match docFreq !! token with
           | Some docFrequency => (sums.1 + freq * docFrequency)%float
           | None => sums.1
           end in
         (dotProduct, (sums.2 + freq * freq)%float))
      (0%float, 0%float) queryFreq in
  let dotProduct := sums.1 in
  let queryMagnitude := sums.2 in
  let docMagnitude :=
    map_fold (λ _ freq docMagnitude, docMagnitude + freq * freq)%float 0%float docFreq in
  if (queryMagnitude =? 0)%float || (docMagnitude =? 0)%float then 0%float
  else
    let queryMagnitude := PrimFloat.sqrt queryMagnitude in
    let docMagnitude := PrimFloat.sqrt docMagnitude in
    (dotProduct / (queryMagnitude * docMagnitude))%float.

Definition jaccardSimilarity (queryTokens docTokens : list str) : float :=
  let querySet : gset str := list_to_set queryTokens in
  let docSet : gset str := list_to_set docTokens in
  let intersection := size (querySet ∩ docSet) in
  let union := size querySet + size docSet - intersection in
  if union =? 0 then 0%float
  else (float64 intersection / float64 union)%float.

End variant2.


(** ** Highlighting (search.go, the first [highlightText])

    The pattern is compiled from a token of the normalized query, whose
    bytes are [[a-z0-9_]]; [regexp.QuoteMeta] leaves such a token as it is.
    Under the flag [(?i)] a byte of the token matches itself and, for a
    letter, its upper-case form; the runes outside ASCII that fold to an
    ASCII letter, and the Cyrillic letters of the class [[\wа-я]], do not
    occur in text without bytes above 127, for which the pattern is given
    here. [searching] hands a preview to [highlightText], which is such
    text. *)

Module highlight.

Import regexp.

(** A byte of the token under [(?i)]. *)
Definition foldChar (c : ascii) : class :=
  Class (λ x, Ascii.eqb (unicode.ToLower x) (unicode.ToLower c)) false.

Fixpoint litFold (t : str) : regex :=
  match t with
  | [] => Eps
  | c :: t => Seq (Chr (foldChar c)) (litFold t)
  end.

(** [(?i)\b[\wа-я]*token[\wа-я]*\b] *)
Definition pattern (token : str) : regex :=
  Seq WordBoundary
    (Seq (Star word) (Seq (litFold token) (Seq (Star word) WordBoundary))).

(** [ReplaceAllString] with a template [before$0after]: each match is
    copied between [before] and [after]. [skip] counts the runes of the
    current match still to be copied. *)
Fixpoint wrapAll (re : regex) (before after : str) (prevWord : bool) (skip : nat)
    (rs : list str) : str :=
  match rs with
  | [] => []
  | r :: rest =>
      match skip with
      | S k =>
          r ++ (match k with O => after | _ => [] end)
            ++ wrapAll re before after (isWordRune r) k rest
      | O =>
          match matchLen re prevWord rs with
          | Some (S k) =>
              before ++ r ++ (match k with O => after | _ => [] end)
                ++ wrapAll re before after (isWordRune r) k rest
          | _ => r ++ wrapAll re before after (isWordRune r) 0 rest
          end
      end
  end.

Definition highlightText (text query : str) : str :=
  if bool_decide (query = []) then text
  else
    let queryTokens := tp.ProcessText query in
    fold_left
      (λ highlighted token,
         if length token <? 2 then highlighted
         else
           wrapAll (pattern token) "<em>"%string "</em>"%string false 0
             (utf8.runes highlighted))
      queryTokens text.

End highlight.

(** ** Words of a text *)

(** [wordsFrom f t] is the run of word bytes [t] starts with (empty when
    [t] starts otherwise) and what follows the run, with [f] applied to
    every later maximal run of word bytes. *)
Definition emitWord (f : str → str) (w : str) : str :=
  match w with
  | [] => []
  | _ => f w
  end.

Fixpoint wordsFrom (f : str → str) (t : str) : str * str :=
  match t with
  | [] => ([], [])
  | c :: t =>
      let '(w, out) := wordsFrom f t in
      if isWordChar c then (c :: w, out) else ([], c :: emitWord f w ++ out)
  end.

(** [t] with [f] applied to each of its maximal runs of word bytes. *)
Definition mapWords (f : str → str) (t : str) : str :=
  let '(w, out) := wordsFrom f t in emitWord f w ++ out.

(** Whether the word holds the token, letter case apart. *)
Definition holdsToken (word token : str) : bool :=
  negb (strings.Index (strings.ToLower word) token =? -1)%Z.

(** A word after the passes for [tokens]: one pair of tags for each token of
    two or more bytes that the word holds. *)
Definition markWord (tokens : list str) (word : str) : str :=
  fold_left
    (λ marked token,
       if (2 <=? length token) && holdsToken word token
       then "<em>"%string ++ marked ++ "</em>"%string
       else marked)
    tokens word.

(** Whether [s] starts with the token, letter case apart. *)
Fixpoint prefixFold (token s : str) : bool :=
  match token, s with
  | [], _ => true
  | c :: token, x :: s =>
      Ascii.eqb (unicode.ToLower x) (unicode.ToLower c) && prefixFold token s
  | _ :: _, [] => false
  end.

(** Whether [p] holds of [run] or of one of its suffixes, the empty one
    included. *)
Fixpoint anySuffix (p : str → bool) (run : str) : bool :=
  match run with
  | [] => p []
  | c :: rest => anySuffix p rest || p run
  end.

(** [n] pairs of tags around a word. *)
Fixpoint nest (n : nat) (word : str) : str :=
  match n with
  | O => word
  | S n => "<em>"%string ++ nest n word ++ "</em>"%string
  end.


(** ** Binary64 arithmetic

    The operations of [float64] are those of Rocq's primitive floats,
    specified by the functions of the Standard Library's [SpecFloat] at
    precision 53 and maximal exponent 1024. The notions below state what
    the rounding of these operations keeps: the sign, and the position of
    the leading bit. *)

(** Number of binary digits of a non-negative integer. *)
Definition digits (m : Z) : Z := Zdigits2 m.

(** Exponent of the last kept bit of a number whose leading bit has
    weight [2^(e-1)]. *)
Definition fexp64 (e : Z) : Z := Z.max (e - 53) (-1074).

(** No bit has been shifted out. *)
Definition exactRecord (mrs : shr_record) : Prop :=
  shr_r mrs = false ∧ shr_s mrs = false.

(** Zero, a positive number or [+Inf]: what [0 <= x] says. *)
Definition nonnegSF (f : spec_float) : Prop :=
  match f with
  | S754_zero _ => True
  | S754_finite s _ _ => s = false
  | S754_infinity s => s = false
  | S754_nan => False
  end.

(** Zero or a positive number. *)
Definition finiteSF (f : spec_float) : Prop :=
  match f with
  | S754_zero _ => True
  | S754_finite s _ _ => s = false
  | _ => False
  end.

(** A positive number. *)
Definition positiveSF (f : spec_float) : Prop :=
  match f with
  | S754_finite s _ _ => s = false
  | _ => False
  end.

(** The magnitude of a non-negative float: a positive number of magnitude
    [k] lies in [[2^(k-1), 2^k)]; zero is given the magnitude below the
    least number of the format and [+Inf] the one above the greatest. *)
Definition lev (f : spec_float) : Z :=
  match f with
  | S754_zero _ => (-1074)%Z
  | S754_finite _ m e => (digits (Zpos m) + e)%Z
  | S754_infinity _ => 1025%Z
  | S754_nan => 0%Z
  end.

Definition validSF (f : spec_float) : Prop := valid_binary f = true.

(** The float of the number [n * 2^e], for a positive [n] whose digits
    fit the format: written with 53 digits (or fewer at the least
    exponent). *)
Definition canonical (n : Z) (e : Z) : spec_float :=
  let t := fexp64 (digits n + e) in
  S754_finite false (Z.to_pos (Z.shiftl n (e - t))) t.





(** ** Notions for the range of the scores *)


(** The value of [math.Log] at 2 (the float64 next to ln 2), and a
    function that takes the values of [math.Log] at 1 and at 2 and stays
    between 0 and its argument from 1 on. *)
Definition log2Value : float := 0x1.62e42fefa39efp-1%float.

Definition logTwoDocs (x : float) : float :=
  if (x <=? 1)%float then 0%float
  else if (x <=? 2)%float then log2Value
  else x.


(** Two articles, the first with the terms "rumah" and "kota" three times
    each, and the query with the same counts. *)
Definition proportionalArticles : list Article :=
  [ {| Title := "Rumah"%string;
       Content := "rumah rumah kota kota kota"%string;
       URL := "u1"%string |};
    {| Title := "Harga"%string;
       Content := "tanah"%string;
       URL := "u2"%string |} ].

Definition proportionalQuery : str := "rumah rumah rumah kota kota kota"%string.

(** * Properties *)

(** ** Test runs of the stemmer *)

Example stem_kebaikan : stem "kebaikan"%string = "kebai"%string.
Proof. reflexivity. Qed.

Example stem_perumahan : stem "perumahan"%string = "rumah"%string.
Proof. reflexivity. Qed.

(** "wartawan" ends with both "an" and the longer "wan"; "an" comes first in
    the list and is the one stripped. *)
Example stem_first_suffix_not_longest :
  stem "wartawan"%string = "wartaw"%string.
Proof. reflexivity. Qed.

(** ** Properties of the stemmer *)

Section StemFacts.

Implicit Types (word w s p : str) (l : list str).

Lemma TrimSuffix_has w s :
  strings.HasSuffix w s = true →
  strings.TrimSuffix w s = take (length w - length s) w.
Proof. intros H. unfold strings.TrimSuffix. by rewrite H. Qed.

Lemma TrimPrefix_has w p :
  strings.HasPrefix w p = true → strings.TrimPrefix w p = drop (length p) w.
Proof. intros H. unfold strings.TrimPrefix. by rewrite H. Qed.

(** The suffix loop is a first-match search. *)
Lemma stripSuffix_find l w :
  stripSuffix l w =
  match find (strings.HasSuffix w) l with
  | Some s => take (length w - length s) w
  | None => w
  end.
Proof.
  induction l as [|s l IH]; simpl; [done|].
  destruct (strings.HasSuffix w s) eqn:Hs; [by apply TrimSuffix_has | apply IH].
Qed.

Lemma prefixes_nondecreasing : nondecreasing_length prefixes = true.
Proof. reflexivity. Qed.

(** Once a prefix has matched and left fewer than 4 bytes, no prefix that
    is at least as long can leave more: the rest of the scan changes
    nothing. *)
Lemma stripPrefix_too_short l w n :
  forallb (λ q, n <=? length q) l = true →
  length w - n < 4 →
  stripPrefix l w = w.
Proof.
  induction l as [|q l IH]; cbn [stripPrefix forallb]; [done|].
  intros [Hq Hl]%andb_prop Hshort.
  apply Nat.leb_le in Hq.
  destruct (strings.HasPrefix w q) eqn:Hp; [|by apply IH].
  rewrite TrimPrefix_has by done. rewrite length_drop.
  destruct (Nat.leb_spec 4 (length w - length q)); [lia | by apply IH].
Qed.

Lemma stripPrefix_find l w :
  nondecreasing_length l = true →
  stripPrefix l w =
  match find (strings.HasPrefix w) l with
  | Some p =>
      let rest := drop (length p) w in
      if 4 <=? length rest then rest else w
  | None => w
  end.
Proof.
  induction l as [|p l IH]; cbn [stripPrefix find nondecreasing_length]; [done|].
  intros [Hp Hl]%andb_prop.
  destruct (strings.HasPrefix w p) eqn:Hm; [|by apply IH].
  rewrite TrimPrefix_has by done.
  destruct (Nat.leb_spec 4 (length (drop (length p) w))) as [|Hlt]; [done|].
  rewrite length_drop in Hlt. by eapply stripPrefix_too_short.
Qed.

End StemFacts.

(** C1. For every token, [stem] is the stemmer of the specification: a token
    shorter than 4 bytes is returned unchanged; otherwise the first suffix of
    the ordered list that matches is stripped (the first, not the longest),
    then the first prefix of the ordered list that matches is stripped only
    if the remaining stem has at least 4 bytes, and a final stem shorter than
    3 bytes is discarded for the original token. *)
Theorem stem_refines_spec (word : str) : stem word = stem_spec word.
Proof.
  unfold stem, stem_spec.
  destruct (length word <? 4); [done|].
  rewrite stripSuffix_find.
  by rewrite (stripPrefix_find _ _ prefixes_nondecreasing).
Qed.

(** C10. For every nonempty token, [stem] returns a nonempty string that is
    the original token or has at least 3 bytes: stemming never introduces an
    empty term. *)
Theorem stem_nonempty (word : str) :
  word ≠ [] →
  stem word ≠ [] ∧ (stem word = word ∨ 3 ≤ length (stem word)).
Proof.
  intros Hne. unfold stem.
  destruct (Nat.ltb_spec (length word) 4) as [Hlt|Hge]; [by auto|].
  destruct (Nat.ltb_spec (length (stripPrefix prefixes (stripSuffix suffixes word))) 3)
    as [Hlt3|Hge3]; [by auto|].
  split; [|by right].
  intros Hnil. rewrite Hnil in Hge3. simpl in Hge3. lia.
Qed.

Lemma stem_nonempty_witness :
  ("kebaikan"%string : str) ≠ []
  ∧ stem "kebaikan"%string ≠ []
  ∧ (stem "kebaikan"%string = "kebaikan"%string ∨ 3 ≤ length (stem "kebaikan"%string)).
Proof.
  assert (H : ("kebaikan"%string : str) ≠ []) by discriminate.
  split; [exact H|]. exact (stem_nonempty "kebaikan"%string H).
Defined.


(** ** Test runs of the text processor *)

Example process_scenario :
  tp.ProcessText "Harga Rumah di kota naik 25% tahun ini!"%string
  = strs ["harga"; "rumah"; "kota"; "naik"; "tahun"]%string.
Proof. vm_compute. reflexivity. Qed.

Example punct_underscore :
  tp.removePunctuationsAndNumbers "harga_rumah, 12_3 - 45"%string
  = "harga_rumah  12_3"%string.
Proof. vm_compute. reflexivity. Qed.

(** ** The inverted index is consistent *)

Section IndexInvariant.

Lemma posting_ok_next_pos d p doc po :
  posting_ok d p doc po → posting_ok d (S p) doc po.
Proof.
  intros (?&?&?&?&Hlt). repeat split; try done.
  intros Hd. eapply Forall_impl; [by apply Hlt|]. simpl. lia.
Qed.

Lemma posting_ok_next_doc d p doc po :
  posting_ok d p doc po → posting_ok (S d) 0 doc po.
Proof. intros (?&?&?&?&_). repeat split; try done; lia. Qed.

Lemma list_ok_next_pos d p pl : list_ok d p pl → list_ok d (S p) pl.
Proof.
  intros [? Hall]. split; [done|].
  eapply map_Forall_impl; [done|]. apply posting_ok_next_pos.
Qed.

Lemma index_ok_next_doc d p idx : index_ok d p idx → index_ok (S d) 0 idx.
Proof.
  intros Hidx. eapply map_Forall_impl; [done|].
  intros _ pl [? Hall]. split; [done|].
  eapply map_Forall_impl; [done|]. apply posting_ok_next_doc.
Qed.

(** Appending the current offset to a posting of the current document. *)
Lemma posting_ok_append d p po :
  posting_ok d p d po →
  posting_ok d (S p) d
    {| DocID := DocID po; Frequency := S (Frequency po);
       Positions := Positions po ++ [p] |}.
Proof.
  intros (?&Hf&Hs&?&Hlt). repeat split; simpl; try done.
  - rewrite length_app, Hf. simpl. lia.
  - apply StronglySorted_app. repeat split; [|done|repeat constructor].
    intros x1 x2 Hx1 ->%list_elem_of_singleton.
    specialize (Hlt eq_refl). rewrite Forall_forall in Hlt. by apply Hlt.
  - intros _. apply Forall_app. split.
    + eapply Forall_impl; [by apply Hlt|]. simpl. lia.
    + repeat constructor.
Qed.

Lemma list_ok_add d p pl :
  list_ok d p pl →
  list_ok d (S p)
    (let emptyPosting := {| DocID := d; Frequency := 0; Positions := [] |} in
     let list :=
       match Postings pl !! d with
       | Some _ => pl
       | None =>
           {| DocFrequency := S (DocFrequency pl);
              Postings := <[d := emptyPosting]> (Postings pl) |}
       end in
     let posting := default emptyPosting (Postings list !! d) in
     {| DocFrequency := DocFrequency list;
        Postings :=
          <[d := {| DocID := DocID posting;
                    Frequency := S (Frequency posting);
                    Positions := Positions posting ++ [p] |}]>
            (Postings list) |}).
Proof.
  intros [Hdf Hall]. cbv zeta.
  destruct (Postings pl !! d) as [po|] eqn:Hpo; cbn [DocFrequency Postings].
  - rewrite Hpo. cbn [default]. split; cbn [DocFrequency Postings].
    + rewrite map_size_insert_Some; [done|by eauto].
    + apply map_Forall_insert_2.
      * apply posting_ok_append. by apply Hall.
      * eapply map_Forall_impl; [done|]. apply posting_ok_next_pos.
  - rewrite lookup_insert_eq. cbn [default]. split; cbn [DocFrequency Postings].
    + rewrite insert_insert_eq, map_size_insert_None by done. by rewrite Hdf.
    + rewrite insert_insert_eq. apply map_Forall_insert_2.
      * apply (posting_ok_append d p {| DocID := d; Frequency := 0; Positions := [] |}).
        repeat split; simpl; try done; constructor.
      * eapply map_Forall_impl; [done|]. apply posting_ok_next_pos.
Qed.

Lemma list_ok_empty d p : list_ok d p {| DocFrequency := 0; Postings := ∅ |}.
Proof. split; [done|]. apply map_Forall_empty. Qed.

Lemma addToken_ok d p token idx :
  index_ok d p idx → index_ok d (S p) (addToken d p token idx).
Proof.
  intros Hidx. unfold addToken. cbv zeta.
  assert (Hrest : ∀ m : InvertedIndex, index_ok d p m → index_ok d (S p) m).
  { intros m Hm. eapply map_Forall_impl; [done|]. intros ? ?. apply list_ok_next_pos. }
  destruct (idx !! token) as [pl|] eqn:Hpl.
  - rewrite Hpl. cbn [default]. apply map_Forall_insert_2; [|by apply Hrest].
    apply list_ok_add. by eapply (Hidx token).
  - rewrite lookup_insert_eq. cbn [default]. rewrite insert_insert_eq.
    apply map_Forall_insert_2; [|by apply Hrest].
    apply (list_ok_add d p {| DocFrequency := 0; Postings := ∅ |}).
    apply list_ok_empty.
Qed.

Lemma indexTokens_ok d tokens : ∀ p idx,
  index_ok d p idx →
  index_ok d (p + length tokens) (indexTokens d p tokens idx).
Proof.
  induction tokens as [|t tokens IH]; intros p idx Hidx; simpl.
  - by rewrite Nat.add_0_r.
  - replace (p + S (length tokens)) with (S p + length tokens) by lia.
    apply IH. by apply addToken_ok.
Qed.

Lemma indexArticles_ok articles : ∀ d idx,
  index_ok d 0 idx →
  ∃ d' p', index_ok d' p' (indexArticles d articles idx).
Proof.
  induction articles as [|a articles IH]; intros d idx Hidx; simpl.
  - by eauto.
  - apply (IH (S d)). eapply index_ok_next_doc.
    by apply (indexTokens_ok d _ 0).
Qed.

Lemma buildInvertedIndex_ok articles :
  ∃ d p, index_ok d p (buildInvertedIndex articles).
Proof. apply indexArticles_ok. apply map_Forall_empty. Qed.

End IndexInvariant.

(** C2. For every document collection, in the index built by
    [buildInvertedIndex] every term's [DocFrequency] is the number of
    documents in its postings map, every posting's [Frequency] is the length
    of its [Positions], and every [Positions] list is ascending (strictly). *)
Theorem buildInvertedIndex_consistent (articles : list Article) (term : str)
    (pl : PostingList) :
  buildInvertedIndex articles !! term = Some pl →
  DocFrequency pl = size (dom (Postings pl))
  ∧ ∀ docID posting, Postings pl !! docID = Some posting →
      Frequency posting = length (Positions posting)
      ∧ StronglySorted lt (Positions posting).
Proof.
  intros Hpl. destruct (buildInvertedIndex_ok articles) as (d & p & Hok).
  destruct (Hok term pl Hpl) as [Hdf Hall]. split.
  - by rewrite size_dom.
  - intros docID posting Hpo. destruct (Hall docID posting Hpo) as (_&?&?&_). done.
Qed.

Lemma buildInvertedIndex_consistent_witness :
  buildInvertedIndex sampleArticles !! ("harga"%string : str) = Some samplePostings
  ∧ DocFrequency samplePostings = size (dom (Postings samplePostings))
  ∧ ∀ docID posting, Postings samplePostings !! docID = Some posting →
      Frequency posting = length (Positions posting)
      ∧ StronglySorted lt (Positions posting).
Proof.
  assert (H : buildInvertedIndex sampleArticles !! ("harga"%string : str)
              = Some samplePostings) by (vm_compute; reflexivity).
  split; [exact H|].
  exact (buildInvertedIndex_consistent sampleArticles ("harga"%string : str)
           samplePostings H).
Defined.

(** ** Runes and replacement *)

Section RuneFacts.

Implicit Types (t u : str) (rs : list str) (c : ascii).

(** The fuel of [utf8.runes] is enough: the runes of a string, put together
    again, are the string. *)
Lemma runes_fuel_concat : ∀ n t, length t ≤ n → concat (utf8.runes_fuel n t) = t.
Proof.
  induction n as [|n IH]; intros [|c t] Hn; simpl in *; try done; [lia|].
  rewrite IH by (rewrite length_drop; lia). by rewrite take_drop.
Qed.

Lemma runes_concat t : concat (utf8.runes t) = t.
Proof. by apply runes_fuel_concat. Qed.

Lemma runes_fuel_ascii t : ∀ n,
  length t ≤ n → Forall (λ c, isASCII c = true) t →
  utf8.runes_fuel n t = bytesAsRunes t.
Proof.
  induction t as [|c t IH]; intros n Hn Hall.
  - by destruct n.
  - destruct n as [|n]; simpl in Hn; [lia|].
    apply Forall_cons in Hall as [Hc Hall].
    cbn [utf8.runes_fuel bytesAsRunes map]. unfold utf8.runeWidth.
    unfold isASCII in Hc. rewrite Hc. simpl. rewrite drop_0.
    f_equal. apply IH; [lia|done].
Qed.

Lemma runes_ascii t :
  Forall (λ c, isASCII c = true) t → utf8.runes t = bytesAsRunes t.
Proof. intros. by apply runes_fuel_ascii. Qed.

(** Replacing a one-rune class rewrites the text rune by rune. *)
Lemma replaceAll_Chr k repl rs : ∀ w,
  regexp.replaceAll (regexp.Chr k) repl w 0 rs
  = concat (map (λ r, if regexp.inClass k r then repl else r) rs).
Proof.
  induction rs as [|r rs IH]; intros w; [done|].
  cbn [regexp.replaceAll map concat]. unfold regexp.matchLen.
  cbn [regexp.exec]. destruct (regexp.inClass k r).
  - replace (length (r :: rs) - length rs) with 1 by (simpl; lia).
    by rewrite IH.
  - by rewrite IH.
Qed.

(** Whatever the pattern, the output is made of bytes of the source runes
    and of the replacement. *)
Lemma replaceAll_Forall (P : ascii → Prop) re repl rs : ∀ w skip,
  Forall P repl → Forall (Forall P) rs →
  Forall P (regexp.replaceAll re repl w skip rs).
Proof.
  induction rs as [|r rs IH]; intros w skip Hrepl Hrs; [constructor|].
  apply Forall_cons in Hrs as [Hr Hrs]. cbn [regexp.replaceAll].
  destruct skip as [|k]; [|by apply IH].
  destruct (regexp.matchLen re w (r :: rs)) as [[|k]|];
    apply Forall_app; split; try done; by apply IH.
Qed.

Lemma Forall_bytesAsRunes (P : ascii → Prop) t :
  Forall P t → Forall (Forall P) (bytesAsRunes t).
Proof.
  induction 1; simpl; constructor; [by repeat constructor | done].
Qed.

End RuneFacts.

(** ** Character classes *)

Section CharFacts.

Implicit Types (c : ascii) (r : str).

Ltac by_cases c :=
  destruct c as [[] [] [] [] [] [] [] []]; vm_compute; try done; auto.

Lemma isWordChar_ascii c : isWordChar c = true → isASCII c = true.
Proof. by_cases c. Qed.

Lemma isWordChar_not_space c : isWordChar c = true → isSpace c = false.
Proof. by_cases c. Qed.

Lemma isReSpace_isSpace c : isReSpace c = true → isSpace c = true.
Proof. by_cases c. Qed.

Lemma isDigit_isWordChar c : isDigit c = true → isWordChar c = true.
Proof. by_cases c. Qed.

Lemma isLowWord_isWordChar c : isLowWord c = true → isWordChar c = true.
Proof. by_cases c. Qed.

Lemma ToLower_isLowWord c :
  isWordChar c = true → isLowWord (unicode.ToLower c) = true.
Proof. by_cases c. Qed.

Lemma ToLower_fixed c : isLowWord c = true → unicode.ToLower c = c.
Proof. by_cases c. Qed.

Lemma isWordRune_byte c : isWordChar c = true → regexp.isWordRune [c] = true.
Proof.
  intros Hc. unfold regexp.isWordRune. simpl.
  by rewrite (isWordChar_ascii c Hc).
Qed.

Lemma inClass_digit_byte c : regexp.inClass regexp.digit [c] = isDigit c.
Proof. by_cases c. Qed.

(** A rune the punctuation pattern leaves alone is one ASCII byte, a word
    character or white space of the pattern language. *)
Lemma punctuation_kept r :
  regexp.inClass (regexp.neg (regexp.union regexp.word regexp.space)) r = false →
  ∃ c, r = [c] ∧ isASCII c = true ∧ (isWordChar c || isReSpace c) = true.
Proof.
  destruct r as [|c [|c' r]]; simpl; try done.
  destruct (isASCII c) eqn:Ha; [|done].
  intros H%negb_false_iff. by exists c.
Qed.

Lemma punctuation_keeps_byte c :
  isASCII c = true → (isWordChar c || isReSpace c) = true →
  regexp.inClass (regexp.neg (regexp.union regexp.word regexp.space)) [c] = false.
Proof. intros Ha Hc. simpl. by rewrite Ha, Hc. Qed.

End CharFacts.

(** ** strings.Fields, strings.TrimSpace and strings.Join *)

Section FieldsFacts.

Implicit Types (t u f : str) (fs ts : list str) (c : ascii).

Lemma dropWhile_Forall (P : ascii → Prop) (g : ascii → bool) t :
  Forall P t → Forall P (dropWhile g t).
Proof.
  induction 1 as [|c t Hc Ht IH]; simpl; [constructor|].
  destruct (g c); [done | by constructor].
Qed.

Lemma TrimSpace_Forall (P : ascii → Prop) t :
  Forall P t → Forall P (strings.TrimSpace t).
Proof.
  intros H. unfold strings.TrimSpace.
  by apply Forall_reverse, dropWhile_Forall, Forall_reverse, dropWhile_Forall.
Qed.

(** Dropping white space at either end does not change the fields. *)
Lemma dropWhile_split (g : ascii → bool) t :
  ∃ sp, Forall (λ c, g c = true) sp ∧ t = sp ++ dropWhile g t.
Proof.
  induction t as [|c t (sp & Hsp & IH)]; simpl.
  - by exists [].
  - destruct (g c) eqn:Hc.
    + exists (c :: sp). split; [by constructor|]. simpl. by rewrite <- IH.
    + by exists [].
Qed.

Lemma fieldsFrom_spaces sp :
  Forall (λ c, isSpace c = true) sp → strings.fieldsFrom sp = ([], []).
Proof.
  induction 1 as [|c sp Hc _ IH]; simpl; [done|]. by rewrite IH, Hc.
Qed.

Lemma fieldsFrom_app_spaces t sp :
  Forall (λ c, isSpace c = true) sp → strings.fieldsFrom (t ++ sp) = strings.fieldsFrom t.
Proof.
  intros Hsp. induction t as [|c t IH]; simpl; [by apply fieldsFrom_spaces|].
  by rewrite IH.
Qed.

Lemma Fields_spaces_app sp t :
  Forall (λ c, isSpace c = true) sp → strings.Fields (sp ++ t) = strings.Fields t.
Proof.
  induction 1 as [|c sp Hc _ IH]; simpl; [done|].
  unfold strings.Fields in *. simpl. destruct (strings.fieldsFrom (sp ++ t)) as [f fs].
  rewrite Hc. simpl. by rewrite IH.
Qed.

Lemma Fields_TrimSpace t : strings.Fields (strings.TrimSpace t) = strings.Fields t.
Proof.
  unfold strings.TrimSpace.
  destruct (dropWhile_split isSpace t) as (sp1 & Hsp1 & E1).
  destruct (dropWhile_split isSpace (reverse (dropWhile isSpace t)))
    as (sp2 & Hsp2 & E2).
  rewrite E1 at 2. rewrite Fields_spaces_app by done.
  apply (f_equal reverse) in E2. rewrite reverse_involutive, reverse_app in E2.
  rewrite E2 at 2. unfold strings.Fields.
  rewrite fieldsFrom_app_spaces; [done|]. by apply Forall_reverse.
Qed.

(** Every field is a token made of bytes of the text. *)
Lemma fieldsFrom_Forall (P : ascii → Prop) t :
  Forall P t →
  Forall (λ c, P c ∧ isSpace c = false) (strings.fieldsFrom t).1
  ∧ Forall (λ f, f ≠ [] ∧ Forall (λ c, P c ∧ isSpace c = false) f) (strings.fieldsFrom t).2.
Proof.
  induction 1 as [|c t Hc Ht [IH1 IH2]]; simpl; [by split|].
  destruct (strings.fieldsFrom t) as [f fs]. simpl in *.
  destruct (isSpace c) eqn:Hs; simpl.
  - split; [constructor|]. destruct f; [done|]. by constructor.
  - split; [by constructor | done].
Qed.

Lemma Fields_Forall (P : ascii → Prop) t :
  Forall P t →
  Forall (λ f, f ≠ [] ∧ Forall (λ c, P c ∧ isSpace c = false) f) (strings.Fields t).
Proof.
  intros H. destruct (fieldsFrom_Forall P t H) as [H1 H2].
  unfold strings.Fields. destruct (strings.fieldsFrom t) as [f fs]. simpl in *.
  destruct f; [done|]. by constructor.
Qed.

(** A token in front of a text extends the field the text starts in. *)
Lemma fieldsFrom_token_app t u :
  Forall (λ c, isSpace c = false) t →
  strings.fieldsFrom (t ++ u) = (t ++ (strings.fieldsFrom u).1, (strings.fieldsFrom u).2).
Proof.
  induction 1 as [|c t Hc _ IH]; simpl; [by destruct (strings.fieldsFrom u)|].
  by rewrite IH, Hc.
Qed.

Lemma Fields_token t : isToken t → strings.Fields t = [t].
Proof.
  intros [Hne Hns]. unfold strings.Fields.
  rewrite <- (app_nil_r t) at 1. rewrite fieldsFrom_token_app by done.
  simpl. rewrite app_nil_r. by destruct t.
Qed.

Lemma Fields_token_space t u :
  isToken t → strings.Fields (t ++ " "%string ++ u) = t :: strings.Fields u.
Proof.
  intros [Hne Hns]. unfold strings.Fields.
  rewrite fieldsFrom_token_app by done. simpl.
  destruct (strings.fieldsFrom u) as [f fs]. simpl. rewrite app_nil_r. by destruct t.
Qed.

Lemma Fields_space_space u :
  strings.Fields (" "%string ++ " "%string ++ u) = strings.Fields u.
Proof. unfold strings.Fields. simpl. by destruct (strings.fieldsFrom u). Qed.

End FieldsFacts.

(** ** The pattern of standalone numbers *)

Section NumbersFacts.

Import regexp.
Implicit Types (t u tail : str) (rs : list str) (c : ascii) (w : bool).

Lemma bytesAsRunes_app t u :
  bytesAsRunes (t ++ u) = bytesAsRunes t ++ bytesAsRunes u.
Proof. apply map_app. Qed.

(** After a run of word characters the only place where [\b] can hold is
    the end of the run. *)
Lemma many_then_boundary k rs :
  (∀ r, inClass k r = true → isWordRune r = true) →
  flat_map (λ p : position, exec WordBoundary p.1 p.2) (many k true rs)
  = let rest := dropWhile (inClass k) rs in
    if nextIsWord rest then [] else [(true, rest)].
Proof.
  intros Hk. induction rs as [|r rs IH]; [done|].
  cbn [many dropWhile]. destruct (inClass k r) eqn:Hr.
  - rewrite (Hk r Hr), flat_map_app, IH. cbn [flat_map exec fst snd nextIsWord].
    rewrite (Hk r Hr). simpl. by rewrite app_nil_r.
  - cbn [flat_map exec fst snd nextIsWord].
    destruct (isWordRune r); simpl; done.
Qed.

Lemma digit_is_word r : inClass digit r = true → isWordRune r = true.
Proof.
  destruct r as [|c [|c' r]]; simpl; try done.
  unfold isWordRune. simpl. destruct (isASCII c); [|done].
  apply isDigit_isWordChar.
Qed.

(** [\b\d+\b] matches at a position exactly when a maximal run of digits
    starts there with no word character on either side; the match is the
    run. *)
Lemma exec_numbers w rs :
  exec tp.numbers w rs =
  match rs with
  | r :: rest =>
      if negb w && inClass digit r then
        let rest' := dropWhile (inClass digit) rest in
        if nextIsWord rest' then [] else [(true, rest')]
      else []
  | [] => []
  end.
Proof.
  unfold tp.numbers. cbn [exec]. destruct rs as [|r rest].
  - simpl. by destruct w.
  - cbn [nextIsWord]. destruct (inClass digit r) eqn:Hd.
    + rewrite (digit_is_word r Hd). destruct w; [done|].
      cbn [xorb negb andb flat_map fst snd exec]. rewrite Hd, (digit_is_word r Hd).
      rewrite app_nil_r. by apply many_then_boundary, digit_is_word.
    + rewrite andb_false_r.
      destruct (xorb w (isWordRune r)); [|done].
      cbn [flat_map fst snd exec]. by rewrite Hd.
Qed.

Lemma dropWhile_digits u tail :
  Forall (λ c, isWordChar c = true) u →
  nextIsWord (bytesAsRunes tail) = false →
  (forallb isDigit u = true →
     dropWhile (inClass digit) (bytesAsRunes (u ++ tail)) = bytesAsRunes tail)
  ∧ nextIsWord (dropWhile (inClass digit) (bytesAsRunes (u ++ tail)))
    = negb (forallb isDigit u).
Proof.
  intros Hu Htail. induction Hu as [|c u Hc Hu IH].
  - simpl. destruct tail as [|c tail]; [done|].
    cbn [bytesAsRunes map dropWhile]. cbn [bytesAsRunes map nextIsWord] in Htail.
    destruct (inClass digit [c]) eqn:Hd.
    + apply digit_is_word in Hd. congruence.
    + by cbn [nextIsWord].
  - cbn [app bytesAsRunes map dropWhile forallb].
    rewrite inClass_digit_byte. destruct (isDigit c); [apply IH|].
    split; [done|]. cbn [nextIsWord]. by rewrite isWordRune_byte.
Qed.

(** Inside a word nothing matches: the bytes are copied. *)
Lemma replaceAll_numbers_inword repl u tail :
  Forall (λ c, isWordChar c = true) u →
  replaceAll tp.numbers repl true 0 (bytesAsRunes (u ++ tail))
  = u ++ replaceAll tp.numbers repl true 0 (bytesAsRunes tail).
Proof.
  induction 1 as [|c u Hc Hu IH]; [done|].
  cbn [app bytesAsRunes map replaceAll]. unfold matchLen.
  rewrite exec_numbers. cbn [negb andb]. rewrite isWordRune_byte by done.
  simpl. f_equal. apply IH.
Qed.

(** Passing over the rest of a match that lies inside a word. *)
Lemma replaceAll_skip re repl u rs :
  Forall (λ c, isWordChar c = true) u →
  replaceAll re repl true (length u) (bytesAsRunes u ++ rs)
  = replaceAll re repl true 0 rs.
Proof.
  induction 1 as [|c u Hc Hu IH]; [done|].
  cbn [length bytesAsRunes map app replaceAll].
  rewrite isWordRune_byte by done. apply IH.
Qed.

Lemma replaceAll_numbers_space repl w t :
  replaceAll tp.numbers repl w 0 (bytesAsRunes (" "%string ++ t))
  = " "%string ++ replaceAll tp.numbers repl false 0 (bytesAsRunes t).
Proof.
  cbn [list_ascii_of_string app bytesAsRunes map replaceAll]. unfold matchLen.
  rewrite exec_numbers. replace (inClass digit [" "%char]) with false by done.
  rewrite andb_false_r. done.
Qed.

(** A token at the start of the text, or after a blank: it is replaced by
    the replacement when it is a number and copied otherwise. *)
Lemma replaceAll_numbers_token repl t tail :
  t ≠ [] →
  Forall (λ c, isWordChar c = true) t →
  nextIsWord (bytesAsRunes tail) = false →
  replaceAll tp.numbers repl false 0 (bytesAsRunes (t ++ tail))
  = (if forallb isDigit t then repl else t)
    ++ replaceAll tp.numbers repl true 0 (bytesAsRunes tail).
Proof.
  intros Hne Ht Htail. destruct t as [|c u]; [done|].
  apply Forall_cons in Ht as [Hc Hu].
  destruct (dropWhile_digits u tail Hu Htail) as [Hdrop Hnext].
  cbn [app bytesAsRunes map replaceAll forallb]. unfold matchLen.
  rewrite exec_numbers. cbn [negb andb]. rewrite inClass_digit_byte.
  fold (bytesAsRunes (u ++ tail)).
  destruct (isDigit c) eqn:Hd; cbn [andb].
  - cbv zeta. rewrite Hnext. destruct (forallb isDigit u) eqn:Hall; cbn [negb].
    + rewrite Hdrop by done.
      replace (length ([c] :: bytesAsRunes (u ++ tail)) - length (bytesAsRunes tail))
        with (S (length u)).
      2:{ rewrite bytesAsRunes_app. simpl. rewrite length_app.
          unfold bytesAsRunes. rewrite !length_map. lia. }
      rewrite isWordRune_byte by done.
      rewrite bytesAsRunes_app. destruct u as [|c' u'].
      * done.
      * f_equal. by apply (replaceAll_skip _ _ (c' :: u')).
    + rewrite isWordRune_byte by done. simpl. f_equal.
      by apply replaceAll_numbers_inword.
  - rewrite isWordRune_byte by done. simpl. f_equal.
    by apply replaceAll_numbers_inword.
Qed.

End NumbersFacts.

(** ** What the text processor produces *)

Section ProcessTextFacts.

Import regexp.
Implicit Types (t u text : str) (ts : list str) (c : ascii).

Lemma Forall_List_filter {A} (P : A → Prop) f (l : list A) :
  Forall P l → Forall P (List.filter f l).
Proof.
  induction 1 as [|x l Hx Hl IH]; simpl; [constructor|].
  destruct (f x); [by constructor | done].
Qed.

Lemma punctuation_pass_kept text :
  Forall keptByte (ReplaceAllString tp.punctuation text " "%string).
Proof.
  unfold ReplaceAllString, tp.punctuation. rewrite replaceAll_Chr.
  apply Forall_concat, Forall_map, Forall_forall. intros r _. simpl.
  destruct (inClass _ r) eqn:Hr.
  - by repeat constructor.
  - apply punctuation_kept in Hr as (c & -> & ? & ?). by repeat constructor.
Qed.

Lemma keptByte_ascii t :
  Forall keptByte t → Forall (λ c, isASCII c = true) t.
Proof. intros H. eapply Forall_impl; [done|]. by intros c [? ?]. Qed.

Lemma numbers_pass_kept t :
  Forall keptByte t → Forall keptByte (ReplaceAllString tp.numbers t " "%string).
Proof.
  intros Ht. unfold ReplaceAllString. rewrite runes_ascii by by apply keptByte_ascii.
  apply replaceAll_Forall; [by repeat constructor | by apply Forall_bytesAsRunes].
Qed.

Lemma removePunctuationsAndNumbers_kept text :
  Forall keptByte (tp.removePunctuationsAndNumbers text).
Proof.
  unfold tp.removePunctuationsAndNumbers.
  apply TrimSpace_Forall, numbers_pass_kept, punctuation_pass_kept.
Qed.

(** The text handed to [strings.Fields] and the tokens handed to
    [strings.ToLower] are ASCII. *)
Lemma removePunctuationsAndNumbers_ascii text :
  Forall (λ c, isASCII c = true) (tp.removePunctuationsAndNumbers text).
Proof. apply keptByte_ascii, removePunctuationsAndNumbers_kept. Qed.

Lemma removeStopwords_words text :
  Forall (λ t, t ≠ [] ∧ Forall (λ c, isWordChar c = true) t)
    (tp.removeStopwords (tp.removePunctuationsAndNumbers text)).
Proof.
  unfold tp.removeStopwords. apply Forall_List_filter.
  eapply Forall_impl;
    [apply (Fields_Forall keptByte), removePunctuationsAndNumbers_kept|].
  intros t [Hne Ht]. split; [done|].
  eapply Forall_impl; [done|]. intros c [[_ Hc] Hs]. simpl in Hs.
  destruct (isWordChar c) eqn:Hw; [done|]. simpl in Hc.
  apply isReSpace_isSpace in Hc. congruence.
Qed.

Lemma stripSuffix_Forall (P : ascii → Prop) l t :
  Forall P t → Forall P (stripSuffix l t).
Proof.
  intros Ht. induction l as [|s l IH]; simpl; [done|].
  destruct (strings.HasSuffix t s) eqn:Hs; [|done].
  rewrite TrimSuffix_has by done. by apply Forall_take.
Qed.

Lemma stripPrefix_Forall (P : ascii → Prop) l t :
  Forall P t → Forall P (stripPrefix l t).
Proof.
  intros Ht. induction l as [|p l IH]; cbn [stripPrefix]; [done|].
  destruct (strings.HasPrefix t p) eqn:Hp; [|done].
  rewrite TrimPrefix_has by done.
  destruct (4 <=? _); [by apply Forall_drop | done].
Qed.

Lemma stem_Forall (P : ascii → Prop) t : Forall P t → Forall P (stem t).
Proof.
  intros Ht. unfold stem. destruct (length t <? 4); [done|].
  destruct (length _ <? 3); [done|].
  by apply stripPrefix_Forall, stripSuffix_Forall.
Qed.

Lemma stem_not_nil t : t ≠ [] → stem t ≠ [].
Proof.
  intros Hne. unfold stem. destruct (length t <? 4); [done|].
  destruct (Nat.ltb_spec (length (stripPrefix prefixes (stripSuffix suffixes t))) 3)
    as [|Hge]; [done|].
  intros E. rewrite E in Hge. simpl in Hge. lia.
Qed.

Lemma stem_isTerm t : isTerm t → isTerm (stem t).
Proof.
  intros [Hne Ht]. split; [by apply stem_not_nil | by apply stem_Forall].
Qed.

(** Every output of the pipeline is a sequence of terms. *)
Lemma ProcessText_terms text : Forall isTerm (tp.ProcessText text).
Proof.
  unfold tp.ProcessText, stemming, tp.caseFolding.
  apply Forall_map, Forall_map.
  eapply Forall_impl; [apply removeStopwords_words|].
  intros t [Hne Ht]. simpl. apply stem_isTerm. split.
  - unfold strings.ToLower. by destruct t.
  - unfold strings.ToLower. apply Forall_map.
    eapply Forall_impl; [done|]. intros c. apply ToLower_isLowWord.
Qed.

End ProcessTextFacts.

(** ** Normalizing a joined term sequence *)

Section SecondPass.

Import regexp.
Implicit Types (t u : str) (ts : list str) (c : ascii).

Lemma Join_cons2 t t2 ts (sep : str) :
  strings.Join (t :: t2 :: ts) sep = t ++ sep ++ strings.Join (t2 :: ts) sep.
Proof. done. Qed.

Lemma isTerm_words t : isTerm t → Forall (λ c, isWordChar c = true) t.
Proof.
  intros [_ Ht]. eapply Forall_impl; [done|]. apply isLowWord_isWordChar.
Qed.

Lemma isTerm_isToken t : isTerm t → isToken t.
Proof.
  intros Ht. split; [apply Ht|].
  eapply Forall_impl; [by apply isTerm_words|]. apply isWordChar_not_space.
Qed.

Lemma Join_terms_bytes ts :
  Forall isTerm ts →
  Forall (λ c, isWordChar c = true ∨ c = " "%char) (strings.Join ts " "%string).
Proof.
  induction 1 as [|t ts Ht Hts IH]; [constructor|].
  assert (Forall (λ c, isWordChar c = true ∨ c = " "%char) t) as Hw.
  { eapply Forall_impl; [by apply isTerm_words|]. intros c Hc. by left. }
  destruct ts as [|t2 ts]; [done|].
  rewrite Join_cons2. apply Forall_app. split; [done|].
  apply Forall_app. split; [|done].
  simpl. apply Forall_cons. split; [by right | constructor].
Qed.

Lemma word_or_blank_kept t :
  Forall (λ c, isWordChar c = true ∨ c = " "%char) t → Forall keptByte t.
Proof.
  intros H. eapply Forall_impl; [done|]. intros c [Hc| ->]; [|done].
  split; [by apply isWordChar_ascii | by rewrite Hc].
Qed.

(** The punctuation pass leaves a text of word characters and blanks as
    it is. *)
Lemma punctuation_pass_id t :
  Forall (λ c, isWordChar c = true ∨ c = " "%char) t →
  ReplaceAllString tp.punctuation t " "%string = t.
Proof.
  intros Ht%word_or_blank_kept. unfold ReplaceAllString, tp.punctuation.
  rewrite runes_ascii by by apply keptByte_ascii. rewrite replaceAll_Chr.
  induction Ht as [|c t [Ha Hc] _ IH]; [done|].
  cbn [bytesAsRunes map concat]. rewrite punctuation_keeps_byte by done.
  simpl. f_equal. apply IH.
Qed.

Lemma replaceAll_numbers_join ts :
  Forall isTerm ts →
  replaceAll tp.numbers " "%string false 0 (bytesAsRunes (strings.Join ts " "%string))
  = strings.Join (blankNumbers ts) " "%string.
Proof.
  induction 1 as [|t ts Ht Hts IH]; [done|].
  destruct ts as [|t2 ts].
  - cbn [strings.Join blankNumbers map]. rewrite <- (app_nil_r t) at 1.
    rewrite replaceAll_numbers_token; [|apply Ht|by apply isTerm_words|done].
    simpl. by rewrite app_nil_r.
  - rewrite Join_cons2. cbn [blankNumbers map]. fold (blankNumbers ts).
    rewrite replaceAll_numbers_token; [|apply Ht|by apply isTerm_words|done].
    rewrite replaceAll_numbers_space, IH. done.
Qed.

Lemma numbers_pass_join ts :
  Forall isTerm ts →
  ReplaceAllString tp.numbers (strings.Join ts " "%string) " "%string
  = strings.Join (blankNumbers ts) " "%string.
Proof.
  intros Hts. unfold ReplaceAllString.
  rewrite runes_ascii; [by apply replaceAll_numbers_join|].
  by apply keptByte_ascii, word_or_blank_kept, Join_terms_bytes.
Qed.

Lemma Fields_blankNumbers ts :
  Forall isTerm ts →
  strings.Fields (strings.Join (blankNumbers ts) " "%string)
  = List.filter (λ t, negb (forallb isDigit t)) ts.
Proof.
  induction 1 as [|t ts Ht Hts IH]; [done|].
  apply isTerm_isToken in Ht.
  change (List.filter _ (t :: ts)) with
    (if negb (forallb isDigit t)
     then t :: List.filter (λ t, negb (forallb isDigit t)) ts
     else List.filter (λ t, negb (forallb isDigit t)) ts).
  rewrite <- IH.
  change (blankNumbers (t :: ts)) with
    ((if forallb isDigit t then " "%string : str else t) :: blankNumbers ts).
  destruct (blankNumbers ts) as [|b bs] eqn:Hb.
  - cbn [strings.Join]. destruct (forallb isDigit t); [done | by apply Fields_token].
  - rewrite Join_cons2. destruct (forallb isDigit t); cbn [negb].
    + apply Fields_space_space.
    + by apply Fields_token_space.
Qed.

Lemma ToLower_term t : isTerm t → strings.ToLower t = t.
Proof.
  intros [_ Ht]. unfold strings.ToLower. induction Ht as [|c t Hc _ IH]; [done|].
  simpl. by rewrite ToLower_fixed, IH.
Qed.

Lemma filter_stopWords_terms ts :
  Forall isTerm ts →
  List.filter (λ word, negb (tp.stopWords (strings.ToLower word))) ts
  = List.filter (λ word, negb (tp.stopWords word)) ts.
Proof.
  induction 1 as [|t ts Ht _ IH]; [done|].
  cbn [List.filter]. by rewrite ToLower_term, IH.
Qed.

Lemma caseFolding_terms ts : Forall isTerm ts → tp.caseFolding ts = ts.
Proof.
  unfold tp.caseFolding. induction 1 as [|t ts Ht _ IH]; [done|].
  simpl. by rewrite ToLower_term, IH.
Qed.

(** Normalizing the joined terms again drops the terms that are numbers
    or stop words and stems the others once more. *)
Lemma ProcessText_Join ts :
  Forall isTerm ts →
  tp.ProcessText (strings.Join ts " "%string)
  = stemming
      (List.filter (λ t, negb (tp.stopWords t))
         (List.filter (λ t, negb (forallb isDigit t)) ts)).
Proof.
  intros Hts. unfold tp.ProcessText, tp.removeStopwords,
    tp.removePunctuationsAndNumbers.
  rewrite Fields_TrimSpace.
  rewrite punctuation_pass_id by by apply Join_terms_bytes.
  rewrite numbers_pass_join, Fields_blankNumbers by done.
  rewrite filter_stopWords_terms by by apply Forall_List_filter.
  rewrite caseFolding_terms; [done|]. by do 2 apply Forall_List_filter.
Qed.

Lemma filter_eq_length {A} (f : A → bool) (l : list A) :
  length (List.filter f l) = length l → Forall (λ x, f x = true) l.
Proof.
  induction l as [|x l IH]; simpl; [constructor|].
  destruct (f x) eqn:Hx; simpl.
  - intros [=]. constructor; auto.
  - intros Hlen. pose proof (filter_length_le f l). lia.
Qed.

Lemma filter_all {A} (f : A → bool) (l : list A) :
  Forall (λ x, f x = true) l → List.filter f l = l.
Proof.
  induction 1 as [|x l Hx _ IH]; simpl; [done|]. by rewrite Hx, IH.
Qed.

Lemma map_fixed {A} (f : A → A) (l : list A) :
  map f l = l ↔ Forall (λ x, f x = x) l.
Proof.
  induction l as [|x l IH]; simpl.
  - split; [constructor | done].
  - split.
    + intros [= Hx Hl]. constructor; [done | by apply IH].
    + intros [Hx Hl]%Forall_cons. rewrite Hx. f_equal. by apply IH.
Qed.

End SecondPass.

(** ** Normalizing twice *)

(** Normalization is not idempotent as it stands: "kebaikan" is stemmed to
    "kebai", and "kebai" in turn to "keba". *)
Lemma ProcessText_not_idempotent :
  tp.ProcessText "kebaikan"%string = strs ["kebai"]%string
  ∧ tp.ProcessText (strings.Join (tp.ProcessText "kebaikan"%string) " "%string)
    = strs ["keba"]%string
  ∧ tp.ProcessText (strings.Join (tp.ProcessText "kebaikan"%string) " "%string)
    ≠ tp.ProcessText "kebaikan"%string.
Proof. vm_compute. repeat split; discriminate. Qed.

(** A second pass can also lose a term: "sayanya" is stemmed to the stop word
    "saya", and "123kan" to the number "123". *)
Example ProcessText_second_pass_drops :
  tp.ProcessText "sayanya 123kan"%string = strs ["saya"; "123"]%string
  ∧ tp.ProcessText (strings.Join (tp.ProcessText "sayanya 123kan"%string) " "%string) = [].
Proof. vm_compute. done. Qed.

(** C5 (amended). For every input text, applying [ProcessText] to the
    space-joined term sequence the pipeline produced yields the identical
    sequence exactly when every produced term is left unchanged by [stem], is
    not a stop word and is not a number. *)
Theorem ProcessText_idempotent_iff (text : str) :
  tp.ProcessText (strings.Join (tp.ProcessText text) " "%string) = tp.ProcessText text
  ↔ Forall (λ t, stem t = t ∧ tp.stopWords t = false ∧ forallb isDigit t = false)
      (tp.ProcessText text).
Proof.
  pose proof (ProcessText_terms text) as Hterms.
  rewrite ProcessText_Join by done.
  set (ts := tp.ProcessText text) in *. clearbody ts.
  set (notNumber := λ t : str, negb (forallb isDigit t)).
  set (notStop := λ t : str, negb (tp.stopWords t)).
  unfold stemming. split.
  - intros Heq.
    pose proof (f_equal length Heq) as Hlen. rewrite length_map in Hlen.
    pose proof (filter_length_le notStop (List.filter notNumber ts)) as H1.
    pose proof (filter_length_le notNumber ts) as H2.
    assert (Forall (λ t, notNumber t = true) ts) as Hnum
      by (apply filter_eq_length; lia).
    rewrite (filter_all _ _ Hnum) in Heq, Hlen.
    assert (Forall (λ t, notStop t = true) ts) as Hstop
      by (by apply filter_eq_length).
    rewrite (filter_all _ _ Hstop) in Heq. apply map_fixed in Heq.
    rewrite Forall_forall in Heq, Hnum, Hstop. apply Forall_forall. intros t Ht.
    specialize (Heq t Ht). specialize (Hnum t Ht). specialize (Hstop t Ht).
    unfold notStop, notNumber in *.
    by rewrite negb_true_iff in Hnum, Hstop.
  - intros Hall.
    rewrite (filter_all notNumber ts).
    2:{ eapply Forall_impl; [done|]. intros t (_&_&Hn). unfold notNumber. by rewrite Hn. }
    rewrite (filter_all notStop ts).
    2:{ eapply Forall_impl; [done|]. intros t (_&Hs&_). unfold notStop. by rewrite Hs. }
    apply map_fixed. eapply Forall_impl; [done|]. by intros t (?&_).
Qed.

Lemma ProcessText_idempotent_iff_witness :
  tp.ProcessText (strings.Join (tp.ProcessText "Harga rumah naik"%string) " "%string)
  = tp.ProcessText "Harga rumah naik"%string.
Proof.
  apply (ProcessText_idempotent_iff "Harga rumah naik"%string).
  set (ts := tp.ProcessText _). vm_compute in ts. subst ts.
  repeat first [ apply Forall_nil | apply Forall_cons; split | split
               | vm_compute; reflexivity ].
Defined.

(** ** The punctuation pass and the underscore *)

(** C8. The first step is meant to replace every character that is not a
    letter, a digit or white space; the class [[^\w\s]] leaves the underscore
    in place, although it is none of them. *)
Theorem removePunctuations_keeps_underscore :
  tp.removePunctuationsAndNumbers "harga_rumah"%string = "harga_rumah"%string
  ∧ isLetter "_" = false ∧ isDigit "_" = false ∧ isSpace "_" = false.
Proof. vm_compute. done. Qed.

(** Other punctuation is replaced, and a number standing alone as well. *)
(** A rune outside ASCII is replaced as a whole, by one blank. *)
Example removePunctuations_utf8 :
  tp.removePunctuationsAndNumbers "café au lait €5 x"%string
  = "caf  au lait    x"%string.
Proof. vm_compute. reflexivity. Qed.

Example removePunctuations_run :
  tp.removePunctuationsAndNumbers "Harga: Rp 500 juta, naik 3.5%!"%string
  = "Harga  Rp   juta  naik"%string.
Proof. vm_compute. reflexivity. Qed.

(** ** The cleaned content is ASCII *)

Section CleanFacts.

Import regexp.
Implicit Types (t : str) (rs : list str) (c : ascii).

Lemma ReplaceAllString_Forall (P : ascii → Prop) re t repl :
  (∀ c, P c → isASCII c = true) →
  Forall P t → Forall P repl → Forall P (ReplaceAllString re t repl).
Proof.
  intros Hascii Ht Hrepl. unfold ReplaceAllString. rewrite runes_ascii.
  - apply replaceAll_Forall; [done | by apply Forall_bytesAsRunes].
  - eapply Forall_impl; [done|]. apply Hascii.
Qed.

Lemma many_head k w rs :
  ∃ w' rest' tl, many k w rs = (w', rest') :: tl ∧ length rest' ≤ length rs.
Proof.
  revert w. induction rs as [|r rs IH]; intros w; simpl.
  - by exists w, [], [].
  - destruct (inClass k r).
    + destruct (IH (isWordRune r)) as (w' & rest' & tl & -> & Hlen).
      exists w', rest', (tl ++ [(w, r :: rs)]). split; [done | lia].
    + exists w, (r :: rs), []. by split.
Qed.

(** [k+] matches at a rune exactly when the rune is in [k]. *)
Lemma matchLen_Plus k w r rs :
  if inClass k r then ∃ n, matchLen (Plus k) w (r :: rs) = Some (S n)
  else matchLen (Plus k) w (r :: rs) = None.
Proof.
  unfold matchLen. cbn [exec]. destruct (inClass k r); [|done].
  destruct (many_head k (isWordRune r) rs) as (w' & rest' & tl & -> & Hlen).
  exists (length rs - length rest'). f_equal. simpl. lia.
Qed.

(** Replacing the runs of a class leaves only the replacement and the runes
    outside the class. *)
Lemma replaceAll_Plus_Forall (P : ascii → Prop) k repl rs : ∀ w skip,
  Forall P repl →
  (∀ r, inClass k r = false → r ≠ [] → Forall P r) →
  Forall (λ r, r ≠ []) rs →
  Forall P (replaceAll (Plus k) repl w skip rs).
Proof.
  intros w skip Hrepl Hout. revert w skip.
  induction rs as [|r rs IH]; intros w skip Hne; [constructor|].
  apply Forall_cons in Hne as [Hr Hne]. cbn [replaceAll].
  destruct skip as [|n]; [|by apply IH].
  pose proof (matchLen_Plus k w r rs) as Hm.
  destruct (inClass k r) eqn:Hk.
  - destruct Hm as [n ->]. apply Forall_app. split; [done | by apply IH].
  - rewrite Hm. apply Forall_app. split; [by apply Hout | by apply IH].
Qed.

Lemma runes_fuel_nonempty : ∀ n t, Forall (λ r, r ≠ []) (utf8.runes_fuel n t).
Proof.
  induction n as [|n IH]; intros [|c t]; simpl; try constructor; [done | apply IH].
Qed.

Lemma specialChars_kept r :
  inClass (neg (union alnum space)) r = false → r ≠ [] → Forall cleanByte r.
Proof.
  destruct r as [|c [|c' r]]; simpl; try done.
  destruct (isASCII c) eqn:Ha; [|done].
  intros H%negb_false_iff _. by repeat constructor.
Qed.

Lemma uniqueWords_Forall (P : str → Prop) words : ∀ prev,
  Forall P words → Forall P (clean.uniqueWords prev words).
Proof.
  induction words as [|word words IH]; intros prev Hall; simpl; [constructor|].
  apply Forall_cons in Hall as [Hw Hall].
  destruct (bool_decide _); [constructor; [done|] |]; by apply IH.
Qed.

Lemma Join_Forall (P : ascii → Prop) words sep :
  Forall (Forall P) words → Forall P sep → Forall P (strings.Join words sep).
Proof.
  intros Hall Hsep. induction Hall as [|w words Hw Hall IH]; [constructor|].
  destruct words as [|w2 words]; [done|].
  rewrite Join_cons2. by repeat (apply Forall_app; split).
Qed.

(** The cleaned content, on which [getContentPreview] calls
    [strings.Fields], consists of ASCII letters, digits and white space. *)
Lemma cleanContent_bytes content : Forall cleanByte (cleanContent content).
Proof.
  assert (Hascii : ∀ c, cleanByte c → isASCII c = true) by by intros c [? ?].
  assert (Hblank : Forall cleanByte (" "%string : str)) by by repeat constructor.
  unfold cleanContent. cbv zeta.
  set (c4 := ReplaceAllString clean.socialPattern _ _). clearbody c4.
  apply ReplaceAllString_Forall; [done| |done].
  apply TrimSpace_Forall, Join_Forall; [|done].
  apply uniqueWords_Forall.
  eapply Forall_impl.
  { apply (Fields_Forall cleanByte).
    apply ReplaceAllString_Forall; [done| |done].
    apply TrimSpace_Forall.
    do 2 (apply ReplaceAllString_Forall; [done| |done]).
    unfold ReplaceAllString, clean.specialCharsPattern.
    apply replaceAll_Plus_Forall;
      [done | apply specialChars_kept | apply runes_fuel_nonempty]. }
  intros f [_ Hf]. eapply Forall_impl; [done|]. by intros c [? _].
Qed.

End CleanFacts.

(** ** Test runs of the content preview *)

Example cleanContent_scenario :
  cleanContent "Baca juga: https://example.com/x Harga rumah naik!!"%string
  = "Harga rumah naik"%string.
Proof. vm_compute. reflexivity. Qed.

Example cleanContent_run :
  cleanContent
    "Follow @rumah123 di Instagram! Email: info@rumah.co.id, situs www.rumah123.com atau rumah.net/x. Harga   harga naik naik 25 persen 2024."%string
  = "di Email situs atau Harga harga naik persen"%string.
Proof. vm_compute. reflexivity. Qed.

(** ** The preview window *)

Section PreviewFacts.

Implicit Types (t u sub f : str) (fs words : list str) (c : ascii).

Lemma HasPrefix_length t sub :
  strings.HasPrefix t sub = true → length sub ≤ length t.
Proof. unfold strings.HasPrefix. intros [H _]%andb_prop. by apply Nat.leb_le. Qed.

Lemma indexFrom_bound t sub : ∀ i,
  strings.indexFrom t sub = Some i → i + length sub ≤ length t.
Proof.
  induction t as [|c t IH]; intros i; cbn [strings.indexFrom].
  - destruct (strings.HasPrefix [] sub) eqn:Hp; [|done].
    intros [= <-]. by apply HasPrefix_length.
  - destruct (strings.HasPrefix (c :: t) sub) eqn:Hp.
    + intros [= <-]. by apply HasPrefix_length.
    + destruct (strings.indexFrom t sub) as [j|] eqn:Hj; [|done].
      intros [= <-]. specialize (IH j eq_refl). simpl. lia.
Qed.

(** [strings.Index] returns -1 or an offset inside the string. *)
Lemma Index_range t sub :
  strings.Index t sub ≠ (-1)%Z → (0 ≤ strings.Index t sub ≤ len t)%Z.
Proof.
  unfold strings.Index, len. destruct (strings.indexFrom t sub) as [i|] eqn:Hi; [|done].
  intros _. apply indexFrom_bound in Hi. lia.
Qed.

Lemma len_ToLower t : len (strings.ToLower t) = len t.
Proof. unfold len, strings.ToLower. by rewrite length_map. Qed.

Lemma slice_in_range t lo hi :
  (0 ≤ lo ≤ hi)%Z → (hi ≤ len t)%Z → is_Some (slice t lo hi).
Proof.
  intros [H1 H2] H3. unfold slice.
  apply Z.leb_le in H1, H2, H3. rewrite H1, H2, H3. by eexists.
Qed.

Lemma wordOffset_bound words : ∀ n (pos : Z),
  (pos ≤ wordOffset n words pos ≤ pos + Z.of_nat (spread words))%Z.
Proof.
  induction words as [|w words IH]; intros n pos.
  - destruct n; simpl; lia.
  - destruct n as [|n]; cbn [wordOffset spread]; [lia|].
    specialize (IH n (pos + len w + 1)%Z). unfold len in *. lia.
Qed.

Lemma spread_pushField f fs : spread (strings.pushField f fs) ≤ S (length f) + spread fs.
Proof. destruct f; simpl; lia. Qed.

Lemma fieldsFrom_spread t :
  length (strings.fieldsFrom t).1 + spread (strings.fieldsFrom t).2 ≤ length t.
Proof.
  induction t as [|c t IH]; simpl; [done|].
  destruct (strings.fieldsFrom t) as [f fs]. simpl in IH.
  destruct (isSpace c); simpl.
  - pose proof (spread_pushField f fs). lia.
  - lia.
Qed.

(** The fields of a text, each with a separator, take at most one byte
    more than the text. *)
Lemma Fields_spread t : spread (strings.Fields t) ≤ S (length t).
Proof.
  pose proof (fieldsFrom_spread t) as H. unfold strings.Fields.
  destruct (strings.fieldsFrom t) as [f fs]. simpl in H.
  pose proof (spread_pushField f fs). lia.
Qed.

Lemma matchWordPos_defined cleaned query :
  matchPos cleaned query ≠ (-1)%Z →
  ∃ wordPos, matchWordPos cleaned (matchPos cleaned query) = Some wordPos
             ∧ (0 ≤ wordPos ≤ len cleaned + 1)%Z.
Proof.
  intros Hpos. unfold matchPos in *. cbv zeta in *.
  apply Index_range in Hpos. rewrite len_ToLower in Hpos.
  unfold matchWordPos. cbv zeta.
  destruct (slice_in_range (strings.Join (tp.ProcessText cleaned) " "%string) 0 _
              (conj (Z.le_refl 0) (proj1 Hpos)) (proj2 Hpos)) as [before ->].
  cbn [mbind option_bind]. eexists. split; [done|].
  pose proof (wordOffset_bound (strings.Fields cleaned) (length (strings.Fields before)) 0) as Hw.
  pose proof (Fields_spread cleaned). unfold len. lia.
Qed.

Lemma window_bounds cleaned wordPos :
  (160 < len cleaned)%Z → (0 ≤ wordPos ≤ len cleaned + 1)%Z →
  (0 ≤ windowStart wordPos
   ∧ windowStart wordPos ≤ windowEnd cleaned (windowStart wordPos) 160
   ∧ windowEnd cleaned (windowStart wordPos) 160 ≤ len cleaned)%Z.
Proof.
  intros Hlen Hw. unfold windowStart, windowEnd. cbv zeta.
  destruct (Z.ltb_spec (wordPos - 60) 0);
    match goal with
    | |- context [(len cleaned <? ?e)%Z] => destruct (Z.ltb_spec (len cleaned) e)
    end; lia.
Qed.

End PreviewFacts.

(** C9 (amended). For every content and query, whenever the cleaned content
    is longer than 160 bytes and the normalized query phrase is found in the
    normalized content, the window bounds satisfy
    [0 <= start <= end <= len(cleaned)], and the slices [contentText[:pos]]
    and [cleanedContent[start:end]] are in range, so that the function
    returns; the offset computed from the word count exceeds the length of
    the cleaned content by at most one. *)
Theorem getContentPreview_window_in_range (content query : str) (maxLength : Z) :
  (160 < len (cleanContent content))%Z →
  matchPos (cleanContent content) query ≠ (-1)%Z →
  ∃ wordPos window,
    matchWordPos (cleanContent content) (matchPos (cleanContent content) query)
      = Some wordPos
    ∧ (0 ≤ wordPos ≤ len (cleanContent content) + 1)%Z
    ∧ (0 ≤ windowStart wordPos)%Z
    ∧ (windowStart wordPos ≤ windowEnd (cleanContent content) (windowStart wordPos) 160)%Z
    ∧ (windowEnd (cleanContent content) (windowStart wordPos) 160
       ≤ len (cleanContent content))%Z
    ∧ slice (cleanContent content) (windowStart wordPos)
        (windowEnd (cleanContent content) (windowStart wordPos) 160) = Some window
    ∧ getContentPreview content query maxLength
      = Some (decorate (cleanContent content) (windowStart wordPos)
                (windowEnd (cleanContent content) (windowStart wordPos) 160) window).
Proof.
  intros Hlen Hpos. set (cleaned := cleanContent content) in *.
  destruct (matchWordPos_defined cleaned query Hpos) as (wordPos & Hw & Hrange).
  destruct (window_bounds cleaned wordPos Hlen Hrange) as (H0 & H1 & H2).
  destruct (slice_in_range cleaned _ _ (conj H0 H1) H2) as [window Hwin].
  exists wordPos, window. repeat split; try done; try lia.
  unfold getContentPreview. cbv zeta. fold cleaned.
  destruct (Z.leb_spec (len cleaned) 160); [lia|].
  destruct (Z.eqb_spec (matchPos cleaned query) (-1)); [done|].
  rewrite Hw. cbn [mbind option_bind]. rewrite Hwin. done.
Qed.

(** The function returns for every input: the slice of the other branch,
    [cleanedContent[:maxLength]], is taken only when the content is longer
    than 160 bytes. *)
Lemma getContentPreview_returns (content query : str) (maxLength : Z) :
  is_Some (getContentPreview content query maxLength).
Proof.
  unfold getContentPreview. cbv zeta. set (cleaned := cleanContent content).
  destruct (Z.leb_spec (len cleaned) 160) as [|Hlen]; [by eexists|].
  destruct (Z.eqb_spec (matchPos cleaned query) (-1)) as [|Hpos].
  - destruct (slice_in_range cleaned 0 160 ltac:(lia) ltac:(lia)) as [head ->].
    by eexists.
  - destruct (matchWordPos_defined cleaned query Hpos) as (wordPos & -> & Hrange).
    destruct (window_bounds cleaned wordPos Hlen Hrange) as (H0 & H1 & H2).
    destruct (slice_in_range cleaned _ _ (conj H0 H1) H2) as [window Hwin].
    cbn [mbind option_bind]. rewrite Hwin. by eexists.
Qed.

Example longContent_preview :
  len (cleanContent longContent) = 199%Z
  ∧ matchPos (cleanContent longContent) "harga rumah"%string = 98%Z
  ∧ getContentPreview longContent "harga rumah"%string 160
    = Some ("...jang tahun lalu menurut laporan terbaru asosiasi pengembang sementara harga rumah subsidi naik tajam akibat biaya bahan bangunan melonjak tinggi sekali"%string : str).
Proof. vm_compute. done. Qed.

Lemma getContentPreview_window_in_range_witness :
  (160 < len (cleanContent longContent))%Z
  ∧ matchPos (cleanContent longContent) "harga rumah"%string ≠ (-1)%Z
  ∧ ∃ wordPos window,
      matchWordPos (cleanContent longContent)
        (matchPos (cleanContent longContent) "harga rumah"%string) = Some wordPos
      ∧ (0 ≤ wordPos ≤ len (cleanContent longContent) + 1)%Z
      ∧ (0 ≤ windowStart wordPos)%Z
      ∧ (windowStart wordPos
         ≤ windowEnd (cleanContent longContent) (windowStart wordPos) 160)%Z
      ∧ (windowEnd (cleanContent longContent) (windowStart wordPos) 160
         ≤ len (cleanContent longContent))%Z
      ∧ slice (cleanContent longContent) (windowStart wordPos)
          (windowEnd (cleanContent longContent) (windowStart wordPos) 160)
        = Some window
      ∧ getContentPreview longContent "harga rumah"%string 300
        = Some (decorate (cleanContent longContent) (windowStart wordPos)
                  (windowEnd (cleanContent longContent) (windowStart wordPos) 160)
                  window).
Proof.
  assert (H1 : (160 < len (cleanContent longContent))%Z) by (vm_compute; reflexivity).
  assert (H2 : matchPos (cleanContent longContent) "harga rumah"%string ≠ (-1)%Z)
    by (vm_compute; discriminate).
  split; [exact H1|]. split; [exact H2|].
  exact (getContentPreview_window_in_range longContent "harga rumah"%string 300 H1 H2).
Defined.

(** The offset itself can pass the end of the cleaned content by one: here
    the query matches inside the last word, so every word is counted, and
    each adds its length and one. *)
Lemma wordPos_exceeds_length :
  (160 < len (cleanContent alternatingContent))%Z
  ∧ matchPos (cleanContent alternatingContent) "z"%string ≠ (-1)%Z
  ∧ len (cleanContent alternatingContent) = 168%Z
  ∧ matchWordPos (cleanContent alternatingContent)
      (matchPos (cleanContent alternatingContent) "z"%string) = Some 169%Z
  ∧ ¬ (169 ≤ len (cleanContent alternatingContent))%Z.
Proof.
  vm_compute. split; [reflexivity|]. split; [discriminate|].
  split; [reflexivity|]. split; [reflexivity|]. intros H. by apply H.
Qed.

(** C7. For every content and query the result of [getContentPreview] does
    not depend on the argument [maxLength] (it is set to 160 inside), and
    when the cleaned content has at most 160 bytes the result is the cleaned
    content. *)
Theorem getContentPreview_ignores_maxLength (content query : str) (maxLength : Z) :
  (∀ maxLength' : Z,
     getContentPreview content query maxLength'
     = getContentPreview content query maxLength)
  ∧ ((len (cleanContent content) ≤ 160)%Z →
     getContentPreview content query maxLength = Some (cleanContent content)).
Proof.
  split; [done|]. intros Hlen. unfold getContentPreview. cbv zeta.
  destruct (Z.leb_spec (len (cleanContent content)) 160); [done | lia].
Qed.

Lemma getContentPreview_ignores_maxLength_witness :
  (len (cleanContent "Baca juga: https://example.com/x Harga rumah naik!!"%string) ≤ 160)%Z
  ∧ getContentPreview "Baca juga: https://example.com/x Harga rumah naik!!"%string
      "rumah"%string 5
    = Some (cleanContent "Baca juga: https://example.com/x Harga rumah naik!!"%string).
Proof.
  assert (H : (len (cleanContent
                 "Baca juga: https://example.com/x Harga rumah naik!!"%string) ≤ 160)%Z)
    by (vm_compute; discriminate).
  split; [exact H|].
  exact (proj2 (getContentPreview_ignores_maxLength
                  "Baca juga: https://example.com/x Harga rumah naik!!"%string
                  "rumah"%string 5) H).
Defined.

(** ** The TF-IDF table *)

(** C3. For every index and [totalDocs], [calculateTFIDF] holds a weight for
    exactly the (term, docID) pairs of the index, and the weight is
    [f * Log(totalDocs / df)] in float64 arithmetic, with [f] the raw
    frequency of the posting and [df] the document frequency of the term:
    no smoothing, no scaling of [f], and no entry elsewhere. *)
Theorem calculateTFIDF_weights (Log : float → float) (idx : InvertedIndex)
    (totalDocs : nat) (term : str) (docID : nat) (weight : float) :
  (∃ scores, calculateTFIDF Log idx totalDocs !! term = Some scores
             ∧ scores !! docID = Some weight)
  ↔ (∃ pl posting,
       idx !! term = Some pl
       ∧ Postings pl !! docID = Some posting
       ∧ weight = (float64 (Frequency posting)
                   * Log (float64 totalDocs / float64 (DocFrequency pl)))%float).
Proof.
  unfold calculateTFIDF. rewrite lookup_fmap. split.
  - intros (scores & Hs & Hw). destruct (idx !! term) as [pl|]; [|done].
    simpl in Hs. injection Hs as <-. rewrite lookup_fmap in Hw.
    destruct (Postings pl !! docID) as [posting|] eqn:Hp; [|done].
    simpl in Hw. injection Hw as <-. by exists pl, posting.
  - intros (pl & posting & -> & Hp & ->). eexists. split; [done|].
    rewrite lookup_fmap, Hp. done.
Qed.

(** ** The order of float64 *)

Section FloatOrder.

Implicit Types (x y z : float) (f : spec_float).

Lemma SFltb_key f1 f2 :
  f1 ≠ S754_nan → f2 ≠ S754_nan →
  (SFltb f1 f2 = true ↔ keyLt (SFkey f1) (SFkey f2)).
Proof.
  intros H1 H2. unfold SFltb, SFcompare, keyLt.
  destruct f1 as [s1|s1| |s1 m1 e1], f2 as [s2|s2| |s2 m2 e2]; try done;
    try destruct s1; try destruct s2; cbn; try (split; [done | lia]);
    try (split; [lia | done]); try (split; intros; [lia | done]).
  - change (Pos.compare_cont Eq m1 m2) with (Pos.compare m1 m2).
    destruct (Z.compare_spec e1 e2), (Pos.compare_spec m1 m2); cbn;
      split; try done; lia.
  - change (Pos.compare_cont Eq m1 m2) with (Pos.compare m1 m2).
    destruct (Z.compare_spec e1 e2), (Pos.compare_spec m1 m2); cbn;
      split; try done; lia.
Qed.

Lemma SFleb_key f1 f2 :
  f1 ≠ S754_nan → f2 ≠ S754_nan →
  (SFleb f1 f2 = true ↔ ¬ keyLt (SFkey f2) (SFkey f1)).
Proof.
  intros H1 H2. unfold SFleb, SFcompare, keyLt.
  destruct f1 as [s1|s1| |s1 m1 e1], f2 as [s2|s2| |s2 m2 e2]; try done;
    try destruct s1; try destruct s2; cbn; try (split; [lia | done]);
    try (split; [done | lia]); try (split; intros; [lia | done]).
  - change (Pos.compare_cont Eq m1 m2) with (Pos.compare m1 m2).
    destruct (Z.compare_spec e1 e2), (Pos.compare_spec m1 m2); cbn;
      split; try done; lia.
  - change (Pos.compare_cont Eq m1 m2) with (Pos.compare m1 m2).
    destruct (Z.compare_spec e1 e2), (Pos.compare_spec m1 m2); cbn;
      split; try done; lia.
Qed.

Lemma ltb_key x y :
  notNaN x → notNaN y →
  ((x <? y)%float = true ↔ keyLt (SFkey (Prim2SF x)) (SFkey (Prim2SF y))).
Proof. intros. rewrite ltb_spec. by apply SFltb_key. Qed.

(** A float above 0 is not NaN. *)
Lemma positive_notNaN x : (0 <? x)%float = true → notNaN x.
Proof.
  rewrite ltb_spec. unfold notNaN, SFltb, SFcompare. intros H E.
  rewrite E in H. by destruct (Prim2SF 0).
Qed.

Lemma ltb_irrefl x : notNaN x → (x <? x)%float = false.
Proof.
  intros Hx. apply not_true_is_false. rewrite ltb_key by done.
  unfold keyLt. lia.
Qed.

Lemma ltb_trans x y z :
  notNaN x → notNaN y → notNaN z →
  (x <? y)%float = true → (y <? z)%float = true → (x <? z)%float = true.
Proof.
  intros Hx Hy Hz. rewrite !ltb_key by done. unfold keyLt. lia.
Qed.

Lemma ltb_negtrans x y z :
  notNaN x → notNaN y → notNaN z →
  (x <? y)%float = false → (y <? z)%float = false → (x <? z)%float = false.
Proof.
  intros Hx Hy Hz H1%not_true_iff_false H2%not_true_iff_false.
  apply not_true_iff_false. rewrite !ltb_key in * by done.
  unfold keyLt in *. lia.
Qed.

(** Among floats that are not NaN, "not less" is "at least". *)
Lemma not_ltb_leb x y :
  notNaN x → notNaN y → (x <? y)%float = false → (y <=? x)%float = true.
Proof.
  intros Hx Hy H%not_true_iff_false. rewrite leb_spec.
  apply SFleb_key; [done..|]. by rewrite <- ltb_key.
Qed.

End FloatOrder.

(** ** Sorting *)

Section SortFacts.

Context {A : Type} (less : A → A → bool).
Implicit Types (x a b : A) (l : list A).

Lemma transitiveOrdering_weaken l l' :
  l' ⊆ l → transitiveOrdering less l → transitiveOrdering less l'.
Proof.
  intros Hsub (Hirr & Htr & Hneg). repeat split.
  - intros a Ha. apply Hirr. by apply Hsub.
  - intros a b c Ha Hb Hc. apply Htr; by apply Hsub.
  - intros a b c Ha Hb Hc. apply Hneg; by apply Hsub.
Qed.

Lemma insertSorted_perm x l : insertSorted less x l ≡ₚ x :: l.
Proof.
  induction l as [|y l IH]; simpl; [done|].
  destruct (less x y); [done|]. rewrite IH. apply Permutation_swap.
Qed.

Lemma insertionSort_perm l : insertionSort less l ≡ₚ l.
Proof.
  induction l as [|x l IH]; simpl; [done|].
  rewrite insertSorted_perm. by rewrite IH.
Qed.

Lemma insertSorted_sorted x l :
  transitiveOrdering less (x :: l) →
  StronglySorted (notBefore less) l →
  StronglySorted (notBefore less) (insertSorted less x l).
Proof.
  intros Hord Hl. induction Hl as [|y l Hl IH Hy]; simpl.
  - repeat constructor.
  - destruct Hord as (Hirr & Htr & Hneg).
    assert (Hx : x ∈ x :: y :: l) by apply list_elem_of_here.
    assert (Hyin : y ∈ x :: y :: l) by apply list_elem_of_further, list_elem_of_here.
    destruct (less x y) eqn:Hxy.
    + assert (Hyx : less y x = false).
      { destruct (less y x) eqn:E; [|done].
        rewrite <- (Hirr x Hx). symmetry. by apply (Htr x y x). }
      constructor; [by constructor|]. constructor; [done|].
      rewrite Forall_forall in Hy |- *. intros z Hz.
      unfold notBefore. apply (Hneg z y x); try done.
      * by do 2 apply list_elem_of_further.
      * by apply Hy.
    + constructor.
      * apply IH. eapply transitiveOrdering_weaken; [|by repeat split].
        intros a [->|Ha]%elem_of_cons; [by apply list_elem_of_here|].
        by do 2 apply list_elem_of_further.
      * rewrite insertSorted_perm. by constructor.
Qed.

Lemma insertionSort_sorted l :
  transitiveOrdering less l → StronglySorted (notBefore less) (insertionSort less l).
Proof.
  induction l as [|x l IH]; intros Hord; simpl; [constructor|].
  apply insertSorted_sorted.
  - eapply transitiveOrdering_weaken; [|done].
    intros a. by rewrite insertionSort_perm.
  - apply IH. eapply transitiveOrdering_weaken; [|done].
    intros a Ha. by apply list_elem_of_further.
Qed.

Lemma StronglySorted_adjacent (R : A → A → Prop) l i a b :
  StronglySorted R l → l !! i = Some a → l !! S i = Some b → R a b.
Proof.
  intros Hl. revert i. induction Hl as [|x l Hl IH Hx]; intros i; [done|].
  destruct i as [|i]; simpl.
  - intros [= <-] Hb. rewrite Forall_forall in Hx. apply Hx.
    by eapply list_elem_of_lookup_2.
  - apply IH.
Qed.

End SortFacts.

(** ** Ranked results *)

Section SearchFacts.

Variable Log : float → float.
Variable highlightText : str → str → str.
Variable sortSlice :
  (SearchResult → SearchResult → bool) → list SearchResult → list SearchResult.

(** What package [sort] promises of [sort.Slice]. *)
Hypothesis sortSlice_perm : ∀ less l, sortSlice less l ≡ₚ l.
Hypothesis sortSlice_sorted : ∀ less l,
  transitiveOrdering less l → StronglySorted (notBefore less) (sortSlice less l).

(** The loop over the articles returns, and each result it makes is for an
    article of the list, carries that article's score, and the score is
    above 0. *)
Lemma rankArticles_results query method queryVector tfidfScores articles : ∀ i,
  ∃ results,
    rankArticles highlightText query method queryVector tfidfScores i articles
      = Some results
    ∧ Forall (λ r, (0 <? Score r)%float = true
                   ∧ ∃ k article,
                       articles !! k = Some article
                       ∧ ResultTitle r = Title article
                       ∧ ResultURL r = URL article
                       ∧ Score r = similarity method queryVector tfidfScores (i + k))
        results.
Proof.
  induction articles as [|article articles IH]; intros i; cbn [rankArticles].
  - by exists [].
  - cbv zeta. destruct (IH (S i)) as (results & -> & Hall).
    assert (Hrest : Forall (λ r, (0 <? Score r)%float = true
                     ∧ ∃ k a, (article :: articles) !! k = Some a
                         ∧ ResultTitle r = Title a ∧ ResultURL r = URL a
                         ∧ Score r = similarity method queryVector tfidfScores (i + k))
                     results).
    { eapply Forall_impl; [done|]. intros r (Hpos & k & a & Hk & Ht & Hu & Hs).
      split; [done|]. exists (S k), a. repeat split; try done.
      by replace (i + S k) with (S i + k) by lia. }
    destruct (0 <? similarity method queryVector tfidfScores i)%float eqn:Hs.
    + destruct (getContentPreview_returns (Content article) query 160)
        as [preview ->].
      cbn [mbind option_bind]. eexists. split; [done|].
      constructor; [|done]. split; [done|]. exists 0, article.
      repeat split. cbn [Score]. by rewrite Nat.add_0_r.
    + by exists results.
Qed.

Lemma byScore_ordering results :
  Forall (λ r, (0 <? Score r)%float = true) results →
  transitiveOrdering byScore results.
Proof.
  intros Hall. rewrite Forall_forall in Hall.
  assert (Hn : ∀ r, r ∈ results → notNaN (Score r)).
  { intros r Hr. by apply positive_notNaN, Hall. }
  unfold byScore. repeat split.
  - intros a Ha. by apply ltb_irrefl, Hn.
  - intros a b c Ha Hb Hc Hab Hbc. apply (ltb_trans _ (Score b)); auto.
  - intros a b c Ha Hb Hc Hab Hbc. apply (ltb_negtrans _ (Score b)); auto.
Qed.

(** C6. For every query and method, [searching] returns a sequence in which
    every result is for a document of the collection, carries the similarity
    score of that document, and has a score above 0; and every result's
    score is at least the score of the result after it. *)
Theorem searching_ranked (loaded : option (list Article)) (query method : str) :
  ∃ results,
    searching Log highlightText sortSlice loaded query method = Some results
    ∧ Forall (λ r, (0 <? Score r)%float = true
                   ∧ ∃ articles, loaded = Some articles
                                 ∧ resultOf Log articles query method r) results
    ∧ ∀ i r1 r2, results !! i = Some r1 → results !! S i = Some r2 →
        (Score r2 <=? Score r1)%float = true.
Proof using sortSlice_perm sortSlice_sorted.
  destruct loaded as [articles|]; cbn [searching].
  2:{ exists []. repeat split; [constructor | done]. }
  cbv zeta.
  destruct (rankArticles_results query method
              (countTokens (tp.ProcessText query))
              (calculateTFIDF Log (buildInvertedIndex articles) (length articles))
              articles 0) as (results & -> & Hall).
  cbn [mbind option_bind]. eexists. split; [done|].
  assert (Hpos : Forall (λ r, (0 <? Score r)%float = true) results).
  { eapply Forall_impl; [exact Hall|]. by intros r [? _]. }
  assert (Hsorted : Forall (λ r, (0 <? Score r)%float = true)
                      (sortSlice byScore results)).
  { by rewrite sortSlice_perm. }
  split.
  - rewrite sortSlice_perm. eapply Forall_impl; [exact Hall|].
    intros r (? & k & article & ? & ? & ? & ?). split; [done|].
    exists articles. split; [done|]. by exists k, article.
  - intros i r1 r2 H1 H2.
    pose proof (sortSlice_sorted byScore results (byScore_ordering results Hpos)) as Hs.
    pose proof (StronglySorted_adjacent _ _ _ _ _ Hs H1 H2) as Hadj.
    rewrite Forall_forall in Hsorted.
    apply not_ltb_leb; [apply positive_notNaN, Hsorted..|exact Hadj];
      by eapply list_elem_of_lookup_2.
Qed.

End SearchFacts.

Lemma searching_ranked_witness :
  (∀ less (l : list SearchResult), insertionSort less l ≡ₚ l)
  ∧ (∀ less (l : list SearchResult), transitiveOrdering less l →
       StronglySorted (notBefore less) (insertionSort less l))
  ∧ ∃ results,
      searching logStandIn plainText insertionSort (Some sampleArticles)
        "harga rumah"%string "jaccard"%string = Some results
      ∧ Forall (λ r, (0 <? Score r)%float = true
                     ∧ ∃ articles, Some sampleArticles = Some articles
                         ∧ resultOf logStandIn articles "harga rumah"%string
                             "jaccard"%string r) results
      ∧ ∀ i r1 r2, results !! i = Some r1 → results !! S i = Some r2 →
          (Score r2 <=? Score r1)%float = true.
Proof.
  split; [intros; apply insertionSort_perm|].
  split; [intros; by apply insertionSort_sorted|].
  apply (searching_ranked logStandIn plainText insertionSort).
  - intros. apply insertionSort_perm.
  - intros. by apply insertionSort_sorted.
Defined.

(** A run with the Jaccard score, which does not involve [math.Log]: the
    first sample shares both query terms, the second one of them. *)
Example searching_jaccard_run :
  map (λ r, (ResultURL r, Score r))
    <$> searching logStandIn plainText insertionSort (Some sampleArticles)
          "harga rumah"%string "jaccard"%string
  = Some [("u1"%string : str, (float64 2 / float64 6)%float);
          ("u2"%string : str, (float64 1 / float64 8)%float)].
Proof. vm_compute. reflexivity. Qed.

Section StemAffixes.

Implicit Types (word w s p : str) (l : list str).

Lemma HasSuffix_app w s :
  strings.HasSuffix w s = true → w = take (length w - length s) w ++ s.
Proof.
  unfold strings.HasSuffix. intros [_ Hd%bool_decide_eq_true]%andb_prop.
  pose proof (take_drop (length w - length s) w) as H. by rewrite Hd in H.
Qed.

Lemma HasPrefix_app w p :
  strings.HasPrefix w p = true → w = p ++ drop (length p) w.
Proof.
  unfold strings.HasPrefix. intros [_ Hd%bool_decide_eq_true]%andb_prop.
  pose proof (take_drop (length p) w) as H. by rewrite Hd in H.
Qed.

Lemma stripSuffix_cases l w :
  stripSuffix l w = w ∨ ∃ s, s ∈ l ∧ w = stripSuffix l w ++ s.
Proof.
  induction l as [|s l IH]; simpl; [by left|].
  destruct (strings.HasSuffix w s) eqn:Hs.
  - right. exists s. split; [apply list_elem_of_here|].
    rewrite TrimSuffix_has by done. by apply HasSuffix_app.
  - destruct IH as [IH|(s' & Hin & IH)]; [by left|].
    right. exists s'. split; [by apply list_elem_of_further|done].
Qed.

Lemma stripPrefix_cases l w :
  stripPrefix l w = w ∨ ∃ p, p ∈ l ∧ w = p ++ stripPrefix l w.
Proof.
  induction l as [|p l IH]; cbn [stripPrefix]; [by left|].
  assert (Hrest : stripPrefix l w = w ∨ ∃ p0, p0 ∈ p :: l ∧ w = p0 ++ stripPrefix l w).
  { destruct IH as [IH|(p' & Hin & IH)]; [by left|].
    right. exists p'. split; [by apply list_elem_of_further|done]. }
  destruct (strings.HasPrefix w p) eqn:Hp; [|done].
  cbv zeta. destruct (4 <=? length (strings.TrimPrefix w p)); [|done].
  right. exists p. split; [apply list_elem_of_here|].
  rewrite TrimPrefix_has by done. by apply HasPrefix_app.
Qed.

Lemma affix_length (l : list str) n x :
  forallb (λ q : str, length q <=? n) l = true → x ∈ l → length x ≤ n.
Proof.
  rewrite forallb_forall. intros H Hin. apply Nat.leb_le, H.
  by apply list_elem_of_In.
Qed.

End StemAffixes.

(** X1. [stem] returns the word without at most one of the listed prefixes
    at its front and at most one of the listed suffixes at its end: the
    result is a contiguous part of the word, never longer than it and at
    most 8 bytes shorter. *)
Theorem stem_affixes (word : str) :
  ∃ p s,
    word = p ++ stem word ++ s
    ∧ (p = [] ∨ p ∈ prefixes)
    ∧ (s = [] ∨ s ∈ suffixes)
    ∧ length word - 8 ≤ length (stem word) ≤ length word.
Proof.
  assert (Hp : ∀ p, p = [] ∨ p ∈ prefixes → length p ≤ 4).
  { intros p [->|Hin]; [simpl; lia|]. by apply (affix_length prefixes 4). }
  assert (Hs : ∀ s, s = [] ∨ s ∈ suffixes → length s ≤ 4).
  { intros s [->|Hin]; [simpl; lia|]. by apply (affix_length suffixes 4). }
  assert (Hgoal : ∃ p s, word = p ++ stem word ++ s
                         ∧ (p = [] ∨ p ∈ prefixes) ∧ (s = [] ∨ s ∈ suffixes)).
  { assert (Hid : ∃ p s, word = p ++ word ++ s
                         ∧ (p = [] ∨ p ∈ prefixes) ∧ (s = [] ∨ s ∈ suffixes)).
    { exists [], []. rewrite app_nil_r. auto. }
    unfold stem. destruct (length word <? 4); [done|]. cbv zeta.
    destruct (length (stripPrefix prefixes (stripSuffix suffixes word)) <? 3); [done|].
    set (w1 := stripSuffix suffixes word).
    assert (H1 : ∃ s, word = w1 ++ s ∧ (s = [] ∨ s ∈ suffixes)).
    { destruct (stripSuffix_cases suffixes word) as [H|(s & Hin & H)].
      - exists []. rewrite app_nil_r. auto.
      - exists s. auto. }
    assert (H2 : ∃ p, w1 = p ++ stripPrefix prefixes w1 ∧ (p = [] ∨ p ∈ prefixes)).
    { destruct (stripPrefix_cases prefixes w1) as [H|(p & Hin & H)].
      - exists []. auto.
      - exists p. auto. }
    destruct H1 as (s & H1 & Hs1), H2 as (p & H2 & Hp2).
    exists p, s. split; [|done]. rewrite H1 at 1. rewrite H2 at 1.
    by rewrite <- app_assoc. }
  destruct Hgoal as (p & s & Heq & Hpin & Hsin).
  exists p, s. repeat split; try done.
  - apply (f_equal length) in Heq. rewrite !length_app in Heq.
    specialize (Hp p Hpin). specialize (Hs s Hsin). lia.
  - apply (f_equal length) in Heq. rewrite !length_app in Heq. lia.
Qed.

(** ** What the index holds *)

Section IndexContents.

Implicit Types (idx : InvertedIndex) (t term token tok : str) (d p : nat).
Implicit Types (po : Posting) (old : option Posting) (ps : list nat).

Lemma occurrences_app d old ps1 ps2 :
  occurrences d (occurrences d old ps1) ps2 = occurrences d old (ps1 ++ ps2).
Proof.
  destruct ps1 as [|p1 ps1]; [done|].
  destruct ps2 as [|p2 ps2]; [by rewrite app_nil_r|].
  simpl. f_equal. f_equal.
  - rewrite length_app. simpl. lia.
  - by rewrite <- app_assoc.
Qed.

Lemma postingOf_addToken d p tok idx t d' :
  postingOf (addToken d p tok idx) t d' =
  if bool_decide (t = tok ∧ d' = d)
  then occurrences d (postingOf idx tok d) [p]
  else postingOf idx t d'.
Proof.
  unfold addToken, postingOf. cbv zeta.
  set (el := {| DocFrequency := 0; Postings := ∅ |}).
  set (ep := {| DocID := d; Frequency := 0; Positions := [] |}).
  assert (Hidx' : ∃ idx' pl,
            match idx !! tok with Some _ => idx | None => <[tok:=el]> idx end = idx'
            ∧ idx' !! tok = Some pl
            ∧ (∀ t0, t0 ≠ tok → idx' !! t0 = idx !! t0)
            ∧ Postings pl !! d = (idx !! tok ≫= λ pl0, Postings pl0 !! d)
            ∧ (∀ d0, Postings pl !! d0 = (idx !! tok ≫= λ pl0, Postings pl0 !! d0))).
  { destruct (idx !! tok) as [pl|] eqn:Hpl.
    - exists idx, pl. by rewrite Hpl.
    - exists (<[tok:=el]> idx), el. rewrite lookup_insert_eq. repeat split; try done.
      intros t0 Ht0. by rewrite lookup_insert_ne. }
  destruct Hidx' as (idx' & pl & -> & Hpl & Hother & _ & Hold).
  rewrite Hpl. change (default el (Some pl)) with pl.
  set (pl' := match Postings pl !! d with
              | Some _ => pl
              | None => {| DocFrequency := S (DocFrequency pl);
                           Postings := <[d:=ep]> (Postings pl) |}
              end).
  assert (Hpl' : default ep (Postings pl' !! d) = default ep (Postings pl !! d)
                 ∧ ∀ d0, d0 ≠ d → Postings pl' !! d0 = Postings pl !! d0).
  { subst pl'. destruct (Postings pl !! d) as [po|] eqn:Hpo.
    - by rewrite Hpo.
    - cbn [Postings]. rewrite lookup_insert_eq. split; [done|].
      intros d0 Hd0. by rewrite lookup_insert_ne. }
  destruct Hpl' as [Hd Hd0]. rewrite Hd.
  case_bool_decide as Hc.
  - destruct Hc as [-> ->]. rewrite lookup_insert_eq. cbn [mbind option_bind Postings].
    rewrite lookup_insert_eq. rewrite <- Hold.
    cbn [occurrences length]. by rewrite Nat.add_1_r.
  - destruct (decide (t = tok)) as [->|Ht].
    + rewrite lookup_insert_eq. cbn [mbind option_bind Postings].
      assert (d' ≠ d) by (intros ->; by apply Hc).
      rewrite lookup_insert_ne by done. rewrite Hd0 by done. apply Hold.
    + rewrite lookup_insert_ne by done. by rewrite Hother.
Qed.

Lemma postingOf_indexTokens d tokens : ∀ p idx t d',
  postingOf (indexTokens d p tokens idx) t d' =
  if bool_decide (d' = d)
  then occurrences d (postingOf idx t d) (positionsFrom p t tokens)
  else postingOf idx t d'.
Proof.
  induction tokens as [|tok tokens IH]; intros p idx t d';
    cbn [indexTokens positionsFrom].
  - cbn [occurrences]. case_bool_decide; by subst.
  - rewrite IH. rewrite !postingOf_addToken.
    case_bool_decide as Hd; [subst d'|].
    + destruct (decide (tok = t)) as [->|Htok].
      * rewrite !bool_decide_eq_true_2 by done. by rewrite occurrences_app.
      * rewrite (bool_decide_eq_false_2 (tok = t)) by done.
        rewrite bool_decide_eq_false_2; [done|]. intros [-> _]. by apply Htok.
    + rewrite bool_decide_eq_false_2; [done|]. intros [_ ?]. by apply Hd.
Qed.

Lemma postingOf_indexArticles articles : ∀ d idx t d',
  postingOf (indexArticles d articles idx) t d' =
  if d' <? d then postingOf idx t d'
  else
    match articles !! (d' - d) with
    | Some article =>
        occurrences d' (postingOf idx t d') (positionsFrom 0 t (documentTokens article))
    | None => postingOf idx t d'
    end.
Proof.
  induction articles as [|a articles IH]; intros d idx t d'; cbn [indexArticles].
  - rewrite lookup_nil. by destruct (d' <? d).
  - rewrite IH. rewrite !postingOf_indexTokens.
    destruct (Nat.ltb_spec d' (S d)) as [Hlt|Hge].
    + case_bool_decide as Hd.
      * subst d'. rewrite Nat.ltb_irrefl, Nat.sub_diag. done.
      * destruct (Nat.ltb_spec d' d); [done|lia].
    + rewrite bool_decide_eq_false_2 by lia.
      destruct (Nat.ltb_spec d' d); [lia|].
      replace (d' - d) with (S (d' - S d)) by lia. done.
Qed.

Lemma positionsFrom_elem t tokens : ∀ p x,
  x ∈ positionsFrom p t tokens ↔ p ≤ x ∧ tokens !! (x - p) = Some t.
Proof.
  induction tokens as [|tok tokens IH]; intros p x; cbn [positionsFrom].
  - rewrite lookup_nil. split; [by intros ?%elem_of_nil|by intros [_ ?]].
  - assert (Hrest : x ∈ positionsFrom (S p) t tokens
                    ↔ S p ≤ x ∧ (tok :: tokens) !! (x - p) = Some t).
    { rewrite IH. split; intros [Hle H]; (split; [done|]).
      - by replace (x - p) with (S (x - S p)) by lia.
      - by replace (x - p) with (S (x - S p)) in H by lia. }
    case_bool_decide as Htok.
    + subst tok. rewrite elem_of_cons, Hrest. split.
      * intros [->|[? ?]]; [|split; [lia|done]].
        split; [done|]. by rewrite Nat.sub_diag.
      * intros [Hle H]. destruct (decide (x = p)) as [|Hne]; [by left|].
        right. split; [lia|done].
    + rewrite Hrest. split; [intros [? ?]; split; [lia|done]|].
      intros [Hle H]. split; [|done].
      destruct (decide (x = p)) as [->|]; [|lia].
      rewrite Nat.sub_diag in H. simpl in H. congruence.
Qed.

Lemma positionsFrom_sorted t tokens : ∀ p,
  StronglySorted lt (positionsFrom p t tokens).
Proof.
  induction tokens as [|tok tokens IH]; intros p; cbn [positionsFrom];
    [constructor|].
  case_bool_decide; [|apply IH]. constructor; [apply IH|].
  apply Forall_forall. intros x Hx. apply positionsFrom_elem in Hx. lia.
Qed.

Lemma positionsFrom_nil t tokens p :
  positionsFrom p t tokens = [] ↔ t ∉ tokens.
Proof.
  split.
  - intros Hnil [i Hi]%list_elem_of_lookup_1.
    assert (Hin : p + i ∈ positionsFrom p t tokens).
    { apply positionsFrom_elem. split; [lia|].
      by replace (p + i - p) with i by lia. }
    rewrite Hnil in Hin. by apply elem_of_nil in Hin.
  - intros Hnot. destruct (positionsFrom p t tokens) as [|x l] eqn:Hps; [done|].
    assert (Hin : x ∈ positionsFrom p t tokens) by (rewrite Hps; apply list_elem_of_here).
    apply positionsFrom_elem in Hin as [_ Hin].
    exfalso. apply Hnot. by eapply list_elem_of_lookup_2.
Qed.

Lemma postingOf_indexArticles_0 articles t d' :
  postingOf (buildInvertedIndex articles) t d' =
  article ← articles !! d';
  let positions := positionsFrom 0 t (documentTokens article) in
  if bool_decide (positions = []) then None
  else Some {| DocID := d'; Frequency := length positions; Positions := positions |}.
Proof.
  unfold buildInvertedIndex. rewrite postingOf_indexArticles.
  rewrite Nat.sub_0_r. cbn [Nat.ltb Nat.leb].
  assert (Hempty : postingOf NewInvertedIndex t d' = None) by done.
  rewrite Hempty.
  destruct (articles !! d') as [article|]; [|done].
  cbn [mbind option_bind]. cbv zeta.
  destruct (positionsFrom 0 t (documentTokens article)) as [|p ps]; [done|].
  rewrite bool_decide_eq_false_2 by done. done.
Qed.

End IndexContents.

(** X2. The posting of a term for a document lists exactly the offsets at
    which the term stands among the document's tokens (the normalized
    title, a space, and the content), in ascending order, with their
    number as frequency; there is no posting when the term does not occur
    in the document or the document does not exist. The list is strictly
    ascending, and an offset is listed exactly when the token at that offset
    is the term. *)
Theorem buildInvertedIndex_postings (articles : list Article) (term : str)
    (docID : nat) :
  postingOf (buildInvertedIndex articles) term docID
  = (article ← articles !! docID;
     let positions := positionsFrom 0 term (documentTokens article) in
     if bool_decide (positions = []) then None
     else Some {| DocID := docID; Frequency := length positions; Positions := positions |})
  ∧ ∀ article,
      StronglySorted lt (positionsFrom 0 term (documentTokens article))
      ∧ ∀ p, p ∈ positionsFrom 0 term (documentTokens article)
             ↔ documentTokens article !! p = Some term.
Proof.
  split; [apply postingOf_indexArticles_0|].
  intros article. split; [apply positionsFrom_sorted|].
  intros p. rewrite positionsFrom_elem, Nat.sub_0_r.
  split; [by intros [_ ?] | intros ?; split; [lia|done]].
Qed.

Section DocumentFrequency.

Implicit Types (idx : InvertedIndex) (t term tok : str) (d p : nat).

Lemma addToken_postings d p tok idx :
  map_Forall (λ _ pl, Postings pl ≠ ∅) idx →
  map_Forall (λ _ pl, Postings pl ≠ ∅) (addToken d p tok idx).
Proof.
  intros Hidx. unfold addToken. cbv zeta.
  destruct (idx !! tok) as [pl|] eqn:Hpl.
  - apply map_Forall_insert_2; [|done]. cbn [Postings]. apply insert_non_empty.
  - rewrite insert_insert_eq.
    apply map_Forall_insert_2; [|done]. cbn [Postings]. apply insert_non_empty.
Qed.

Lemma indexTokens_postings d tokens : ∀ p idx,
  map_Forall (λ _ pl, Postings pl ≠ ∅) idx →
  map_Forall (λ _ pl, Postings pl ≠ ∅) (indexTokens d p tokens idx).
Proof.
  induction tokens as [|tok tokens IH]; intros p idx Hidx; simpl; [done|].
  apply IH. by apply addToken_postings.
Qed.

Lemma indexArticles_postings articles : ∀ d idx,
  map_Forall (λ _ pl, Postings pl ≠ ∅) idx →
  map_Forall (λ _ pl, Postings pl ≠ ∅) (indexArticles d articles idx).
Proof.
  induction articles as [|a articles IH]; intros d idx Hidx; simpl; [done|].
  apply IH. by apply indexTokens_postings.
Qed.

(** Counting the members of a list that satisfy [Q] by their indices. *)
Lemma size_indices {A} (Q : A → bool) (l : list A) : ∀ (X : gset nat) d,
  (∀ i, i ∈ X ↔ d ≤ i ∧ ∃ a, l !! (i - d) = Some a ∧ Q a = true) →
  size X = length (List.filter Q l).
Proof.
  induction l as [|a l IH]; intros X d HX.
  - simpl. apply size_empty_iff, elem_of_equiv_empty. intros i Hi.
    apply HX in Hi as (_ & a & Ha & _). by rewrite lookup_nil in Ha.
  - assert (Hrest : ∀ i, i ∈ X ∖ {[d]} ↔ S d ≤ i ∧ ∃ a0, l !! (i - S d) = Some a0 ∧ Q a0 = true).
    { intros i. rewrite elem_of_difference, not_elem_of_singleton, HX. split.
      - intros [(Hle & a0 & Ha0 & HQ) Hne]. split; [lia|].
        exists a0. split; [|done].
        by replace (i - d) with (S (i - S d)) in Ha0 by lia.
      - intros (Hle & a0 & Ha0 & HQ). split; [|lia]. split; [lia|].
        exists a0. split; [|done].
        by replace (i - d) with (S (i - S d)) by lia. }
    specialize (IH _ _ Hrest). cbn [List.filter].
    destruct (Q a) eqn:HQ; cbn [length]; rewrite <- IH.
    + assert (Hd : d ∈ X).
      { apply HX. split; [done|]. exists a. by rewrite Nat.sub_diag. }
      rewrite (union_difference_singleton_L d X Hd) at 1.
      rewrite size_union by (apply disjoint_singleton_l, not_elem_of_difference; right; apply elem_of_singleton_2; done).
      by rewrite size_singleton.
    + assert (Hd : d ∉ X).
      { intros (_ & a0 & Ha0 & HQ0)%HX. rewrite Nat.sub_diag in Ha0.
        simpl in Ha0. congruence. }
      f_equal. symmetry. by apply difference_disjoint_L, disjoint_singleton_r.
Qed.

End DocumentFrequency.

Lemma DocFrequency_filter (articles : list Article) (term : str)
    (pl : PostingList) :
  buildInvertedIndex articles !! term = Some pl →
  DocFrequency pl = length (List.filter (containsTerm term) articles)
  ∧ 1 ≤ DocFrequency pl ≤ length articles.
Proof.
  intros Hpl.
  destruct (buildInvertedIndex_ok articles) as (d & p & Hok).
  destruct (Hok term pl Hpl) as [Hdf _].
  assert (Hne : Postings pl ≠ ∅).
  { eapply (indexArticles_postings articles 0 NewInvertedIndex); [|exact Hpl].
    apply map_Forall_empty. }
  assert (Hcount : size (dom (Postings pl))
                   = length (List.filter (containsTerm term) articles)).
  { apply (size_indices _ _ _ 0). intros i.
    rewrite elem_of_dom, Nat.sub_0_r.
    assert (Hpo : Postings pl !! i = postingOf (buildInvertedIndex articles) term i).
    { unfold postingOf. by rewrite Hpl. }
    rewrite Hpo. rewrite postingOf_indexArticles_0.
    destruct (articles !! i) as [a|]; cbn [mbind option_bind].
    - cbv zeta. unfold containsTerm. case_bool_decide as Hnil.
      + apply positionsFrom_nil in Hnil. split; [by intros [? ?]|].
        intros (_ & a0 & [= <-] & Hin%bool_decide_eq_true). done.
      + split; [|by eauto]. intros _. split; [lia|]. exists a. split; [done|].
        apply bool_decide_eq_true. destruct (decide (term ∈ documentTokens a)); [done|].
        exfalso. apply Hnil. by apply positionsFrom_nil.
    - split; [by intros [? ?]|]. by intros (_ & a0 & ? & _). }
  rewrite size_dom in Hcount. rewrite Hdf. split; [done|]. split.
  - destruct (size (Postings pl)) eqn:Hsz; [|lia].
    by apply map_size_empty_iff in Hsz.
  - rewrite Hcount. apply List.filter_length_le.
Qed.

(** X3. The [DocFrequency] of a term of the index is the number of articles
    among whose tokens the term occurs; it is at least 1 and at most the
    number of articles, so that the quotient taken for the IDF is defined
    and is at least 1. *)
Theorem DocFrequency_counts (articles : list Article) (term : str)
    (pl : PostingList) :
  buildInvertedIndex articles !! term = Some pl →
  DocFrequency pl = length (List.filter (containsTerm term) articles)
  ∧ 1 ≤ DocFrequency pl ≤ length articles.
Proof. apply DocFrequency_filter. Qed.

Lemma DocFrequency_counts_witness :
  buildInvertedIndex sampleArticles !! ("kota"%string : str)
  = Some {| DocFrequency := 2;
            Postings :=
              <[0 := {| DocID := 0; Frequency := 1; Positions := [5] |}]>
                (<[1 := {| DocID := 1; Frequency := 1; Positions := [4] |}]> ∅) |}
  ∧ 2 = length (List.filter (containsTerm "kota"%string) sampleArticles)
  ∧ 1 ≤ 2 ≤ length sampleArticles.
Proof.
  assert (H : buildInvertedIndex sampleArticles !! ("kota"%string : str)
              = Some {| DocFrequency := 2;
                        Postings :=
                          <[0 := {| DocID := 0; Frequency := 1; Positions := [5] |}]>
                            (<[1 := {| DocID := 1; Frequency := 1; Positions := [4] |}]> ∅) |})
    by (vm_compute; reflexivity).
  split; [exact H|].
  exact (DocFrequency_counts sampleArticles ("kota"%string : str) _ H).
Defined.

(** ** Scores *)

Section ScoreFacts.

Implicit Types (qv v : gmap str float) (table : TFIDFTable) (t : str) (i : nat).

Lemma countTokens_fold tokens : ∀ (m : gmap str float) t,
  is_Some (fold_left
             (λ queryVector token,
                <[token := (default 0 (queryVector !! token) + 1)%float]> queryVector)
             tokens m !! t)
  ↔ t ∈ tokens ∨ is_Some (m !! t).
Proof.
  induction tokens as [|tok tokens IH]; intros m t; cbn [fold_left].
  - split; [by right|]. by intros [?%elem_of_nil|?].
  - rewrite IH, elem_of_cons. destruct (decide (t = tok)) as [->|Hne].
    + rewrite lookup_insert_eq. split; [by auto|]. intros _. right. by eexists.
    + rewrite lookup_insert_ne by done. split; intros [H|H]; auto.
      destruct H as [?|?]; [done|by auto].
Qed.

(** The query vector has an entry for exactly the tokens of the query. *)
Lemma countTokens_lookup tokens t : is_Some (countTokens tokens !! t) ↔ t ∈ tokens.
Proof.
  unfold countTokens. rewrite countTokens_fold, lookup_empty.
  split; [|by left]. intros [?|[? ?]]; done.
Qed.

Lemma docVectorOf_lookup table i t :
  docVectorOf table i !! t = table !! t ≫= λ scores, scores !! i.
Proof. unfold docVectorOf. by rewrite lookup_omap. Qed.

(** The column of a document has an entry for exactly the terms with a
    posting for it. *)
Lemma docVectorOf_posting Log idx n i t :
  is_Some (docVectorOf (calculateTFIDF Log idx n) i !! t) ↔ is_Some (postingOf idx t i).
Proof.
  rewrite docVectorOf_lookup. unfold calculateTFIDF, postingOf.
  rewrite lookup_fmap. destruct (idx !! t) as [pl|]; simpl; [|done].
  by rewrite lookup_fmap, fmap_is_Some.
Qed.

Lemma normalizeVector_lookup v t :
  is_Some (normalizeVector v !! t) → is_Some (v !! t).
Proof.
  unfold normalizeVector. cbv zeta. destruct (0 <? _)%float.
  - rewrite lookup_fmap. destruct (v !! t); [by eauto|]. by intros [? ?].
  - rewrite lookup_empty. by intros [? ?].
Qed.

Lemma zero_div_not_positive x : (0 <? 0 / x)%float = false.
Proof.
  rewrite ltb_spec, div_spec. change (Prim2SF 0) with (S754_zero false).
  destruct (Prim2SF x) as [s|s| |s m e]; try reflexivity; by destruct s.
Qed.

(** With no term in common there is nothing to add to the dot product. *)
Lemma dot_product_none (nq nd : gmap str float) :
  (∀ t, is_Some (nq !! t) → nd !! t = None) →
  map_fold
    (λ term queryWeight dotProduct,
       match nd !! term with
       | Some docWeight => (dotProduct + queryWeight * docWeight)%float
       | None => dotProduct
       end)
    0%float nq = 0%float.
Proof.
  apply (map_fold_weak_ind
           (λ r (m : gmap str float),
              (∀ t, is_Some (m !! t) → nd !! t = None) → r = 0%float)).
  - done.
  - intros t x m' r Hfresh IH Hall.
    rewrite (Hall t) by (rewrite lookup_insert_eq; by eexists).
    apply IH. intros t' Ht'. apply Hall.
    destruct (decide (t' = t)) as [->|Hne].
    + rewrite Hfresh in Ht'. by destruct Ht'.
    + by rewrite lookup_insert_ne.
Qed.

Lemma cosine_no_shared qv table i :
  (∀ t, is_Some (qv !! t) → docVectorOf table i !! t = None) →
  cosineSimilarityWithTFIDF qv table i = 0%float.
Proof.
  intros Hno. unfold cosineSimilarityWithTFIDF. cbv zeta.
  apply dot_product_none.
  intros t Ht%normalizeVector_lookup. specialize (Hno t Ht).
  destruct (normalizeVector (docVectorOf table i) !! t) eqn:Hd; [|done].
  assert (Hs : is_Some (docVectorOf table i !! t)).
  { apply normalizeVector_lookup. rewrite Hd. by eexists. }
  rewrite Hno in Hs. by destruct Hs.
Qed.

Lemma jaccard_no_shared qv table i :
  (∀ t, is_Some (qv !! t) → docVectorOf table i !! t = None) →
  (0 <? jaccardSimilarityWithTFIDF qv table i)%float = false.
Proof.
  intros Hno. unfold jaccardSimilarityWithTFIDF. cbv zeta.
  assert (Hempty : dom qv ∩ dom (docVectorOf table i) = (∅ : gset str)).
  { apply leibniz_equiv, elem_of_equiv_empty. intros t [Hq Hd]%elem_of_intersection.
    apply elem_of_dom in Hq, Hd. rewrite (Hno t Hq) in Hd. by destruct Hd. }
  rewrite Hempty, size_empty.
  destruct (_ =? 0); [reflexivity|].
  change (float64 0) with 0%float. apply zero_div_not_positive.
Qed.

Lemma similarity_no_shared method qv table i :
  (∀ t, is_Some (qv !! t) → docVectorOf table i !! t = None) →
  (0 <? similarity method qv table i)%float = false.
Proof.
  intros Hno. unfold similarity.
  repeat case_bool_decide;
    first [by apply jaccard_no_shared | by rewrite cosine_no_shared].
Qed.

Lemma scoreOf_no_shared Log articles query method i :
  (∀ article t, articles !! i = Some article →
     t ∈ tp.ProcessText query → t ∉ documentTokens article) →
  (0 <? scoreOf Log articles query method i)%float = false.
Proof.
  intros Hno. unfold scoreOf. apply similarity_no_shared.
  intros t Ht%countTokens_lookup.
  destruct (docVectorOf _ i !! t) eqn:Hd; [|done]. exfalso.
  assert (Hs : is_Some (postingOf (buildInvertedIndex articles) t i)).
  { eapply docVectorOf_posting. rewrite Hd. by eexists. }
  rewrite postingOf_indexArticles_0 in Hs.
  destruct (articles !! i) as [article|] eqn:Ha; [|by destruct Hs].
  cbn [mbind option_bind] in Hs. cbv zeta in Hs.
  case_bool_decide as Hnil; [by destruct Hs|].
  apply Hnil, positionsFrom_nil. by eapply Hno.
Qed.

End ScoreFacts.

(** X4. A document that shares no term with the query does not score above
    0, with either method and whatever [math.Log] returns: the dot product
    of the cosine has no summand and stays 0, and the Jaccard quotient has
    numerator 0. Such a document is left out of the results. *)
Theorem score_needs_shared_term (Log : float → float) (articles : list Article)
    (query method : str) (i : nat) :
  (∀ article t, articles !! i = Some article →
     t ∈ tp.ProcessText query → t ∉ documentTokens article) →
  (0 <? scoreOf Log articles query method i)%float = false.
Proof. apply scoreOf_no_shared. Qed.

Lemma score_needs_shared_term_witness :
  (∀ article t, sampleArticles !! 1 = Some article →
     t ∈ tp.ProcessText "rumah tajam"%string → t ∉ documentTokens article)
  ∧ (0 <? scoreOf logStandIn sampleArticles "rumah tajam"%string "cosine"%string 1)%float
    = false.
Proof.
  assert (H : ∀ article t, sampleArticles !! 1 = Some article →
                t ∈ tp.ProcessText "rumah tajam"%string → t ∉ documentTokens article).
  { intros article t [= <-] Ht.
    assert (Hq : tp.ProcessText "rumah tajam"%string = strs ["rumah"; "tajam"]%string)
      by (vm_compute; reflexivity).
    rewrite Hq in Ht.
    apply elem_of_cons in Ht as [->|Ht];
      [|apply elem_of_cons in Ht as [->|Ht]; [|by apply elem_of_nil in Ht]];
      apply (bool_decide_unpack _); vm_compute; exact I. }
  split; [exact H|].
  exact (score_needs_shared_term logStandIn sampleArticles "rumah tajam"%string
           "cosine"%string 1 H).
Defined.

Section SearchResults.

Variable Log : float → float.
Variable highlightText : str → str → str.
Variable sortSlice :
  (SearchResult → SearchResult → bool) → list SearchResult → list SearchResult.

Hypothesis sortSlice_perm : ∀ less l, sortSlice less l ≡ₚ l.

Lemma rankArticles_none query method qv table articles : ∀ i,
  (∀ k, k < length articles → (0 <? similarity method qv table (i + k))%float = false) →
  rankArticles highlightText query method qv table i articles = Some [].
Proof.
  induction articles as [|article articles IH]; intros i Hno; cbn [rankArticles]; [done|].
  cbv zeta. pose proof (Hno 0 ltac:(simpl; lia)) as H0. rewrite Nat.add_0_r in H0.
  rewrite H0. apply IH. intros k Hk.
  replace (S i + k) with (i + S k) by lia. apply Hno. simpl. lia.
Qed.

(** Every article whose score is above 0 gets a result, made of its title,
    URL, preview, highlighted preview and site icon. *)
Lemma rankArticles_complete query method qv table articles : ∀ i results k article,
  rankArticles highlightText query method qv table i articles = Some results →
  articles !! k = Some article →
  (0 <? similarity method qv table (i + k))%float = true →
  ∃ r, r ∈ results
       ∧ ResultTitle r = Title article
       ∧ ResultURL r = URL article
       ∧ Score r = similarity method qv table (i + k)
       ∧ getContentPreview (Content article) query 160 = Some (ResultContent r)
       ∧ HighlightedContent r = highlightText (ResultContent r) query
       ∧ Favicon r = getFaviconPath (URL article).
Proof.
  induction articles as [|a articles IH]; intros i results k article;
    cbn [rankArticles]; [by rewrite lookup_nil|].
  cbv zeta. intros Hrank Hk Hpos.
  destruct k as [|k].
  - injection Hk as ->. rewrite Nat.add_0_r in Hpos |- *. rewrite Hpos in Hrank.
    destruct (getContentPreview (Content article) query 160) as [preview|]; [|done].
    cbn [mbind option_bind] in Hrank.
    destruct (rankArticles _ _ _ _ _ _ _) as [rest|]; [|done].
    cbn [mbind option_bind] in Hrank. injection Hrank as <-.
    eexists. split; [apply list_elem_of_here|]. by repeat split.
  - cbn [lookup list_lookup] in Hk.
    replace (i + S k) with (S i + k) in Hpos |- * by lia.
    destruct (0 <? similarity method qv table i)%float.
    + destruct (getContentPreview (Content a) query 160) as [preview|]; [|done].
      cbn [mbind option_bind] in Hrank.
      destruct (rankArticles _ _ _ _ _ _ _) as [rest|] eqn:Hrest; [|done].
      cbn [mbind option_bind] in Hrank. injection Hrank as <-.
      destruct (IH _ _ _ _ Hrest Hk Hpos) as (r & Hin & H).
      exists r. split; [by apply list_elem_of_further|done].
    + by apply (IH _ _ _ _ Hrank Hk Hpos).
Qed.

(** There is one result for each article whose score is above 0. *)
Lemma rankArticles_length query method qv table articles : ∀ i results,
  rankArticles highlightText query method qv table i articles = Some results →
  length results
  = length (List.filter (λ k, (0 <? similarity method qv table k)%float)
              (seq i (length articles))).
Proof.
  induction articles as [|a articles IH]; intros i results; cbn [rankArticles].
  - by intros [= <-].
  - cbv zeta. cbn [length seq List.filter]. intros Hrank.
    destruct (0 <? similarity method qv table i)%float.
    + destruct (getContentPreview (Content a) query 160) as [preview|]; [|done].
      cbn [mbind option_bind] in Hrank.
      destruct (rankArticles _ _ _ _ _ _ _) as [rest|] eqn:Hrest; [|done].
      cbn [mbind option_bind] in Hrank. injection Hrank as <-.
      cbn [length]. f_equal. by apply IH.
    + by apply IH.
Qed.

(** X5. When no term of the normalized query occurs among the tokens of any
    article (in particular when the query is empty or holds stop words
    only), [searching] returns the empty list, with either method. *)
Theorem searching_no_match (articles : list Article) (query method : str) :
  (∀ article t, article ∈ articles →
     t ∈ tp.ProcessText query → t ∉ documentTokens article) →
  searching Log highlightText sortSlice (Some articles) query method = Some [].
Proof using sortSlice_perm.
  intros Hno. cbn [searching]. cbv zeta.
  rewrite rankArticles_none.
  - cbn [mbind option_bind]. f_equal. apply Permutation_nil_r, sortSlice_perm.
  - intros k Hk. cbn [Nat.add].
    apply (scoreOf_no_shared Log articles query method k).
    intros article t Ha. apply Hno. by eapply list_elem_of_lookup_2.
Qed.

(** X6. [searching] leaves out no article whose score is above 0: each has
    a result carrying its title, its URL, its score, the preview of its
    content, the highlighted preview and its site icon; and there are as
    many results as there are such articles. *)
Theorem searching_complete (articles : list Article) (query method : str) :
  ∃ results,
    searching Log highlightText sortSlice (Some articles) query method = Some results
    ∧ length results
      = length (List.filter (λ i, (0 <? scoreOf Log articles query method i)%float)
                  (seq 0 (length articles)))
    ∧ ∀ i article,
        articles !! i = Some article →
        (0 <? scoreOf Log articles query method i)%float = true →
        ∃ r, r ∈ results
             ∧ ResultTitle r = Title article
             ∧ ResultURL r = URL article
             ∧ Score r = scoreOf Log articles query method i
             ∧ getContentPreview (Content article) query 160 = Some (ResultContent r)
             ∧ HighlightedContent r = highlightText (ResultContent r) query
             ∧ Favicon r = getFaviconPath (URL article).
Proof using sortSlice_perm.
  cbn [searching]. cbv zeta.
  destruct (rankArticles_results highlightText query method
              (countTokens (tp.ProcessText query))
              (calculateTFIDF Log (buildInvertedIndex articles) (length articles))
              articles 0) as (results & Hrank & _).
  rewrite Hrank. cbn [mbind option_bind]. eexists. split; [done|]. split.
  - rewrite sortSlice_perm. exact (rankArticles_length _ _ _ _ _ 0 _ Hrank).
  - intros i article Hi Hpos.
    destruct (rankArticles_complete _ _ _ _ _ 0 _ i article Hrank Hi Hpos)
      as (r & Hin & H).
    exists r. split; [by rewrite sortSlice_perm|done].
Qed.

End SearchResults.

Lemma searching_no_match_witness :
  (∀ less (l : list SearchResult), insertionSort less l ≡ₚ l)
  ∧ (∀ article t, article ∈ sampleArticles →
       t ∈ tp.ProcessText "di mana saja"%string → t ∉ documentTokens article)
  ∧ searching logStandIn plainText insertionSort (Some sampleArticles)
      "di mana saja"%string "jaccard"%string = Some [].
Proof.
  assert (Hperm : ∀ less (l : list SearchResult), insertionSort less l ≡ₚ l)
    by (intros; apply insertionSort_perm).
  assert (H : ∀ article t, article ∈ sampleArticles →
                t ∈ tp.ProcessText "di mana saja"%string → t ∉ documentTokens article).
  { intros article t Ha Ht.
    assert (Hq : tp.ProcessText "di mana saja"%string = strs ["mana"]%string)
      by (vm_compute; reflexivity).
    rewrite Hq in Ht. apply list_elem_of_singleton in Ht as ->.
    apply elem_of_cons in Ha as [->|Ha];
      [|apply elem_of_cons in Ha as [->|Ha]; [|by apply elem_of_nil in Ha]];
      apply (bool_decide_unpack _); vm_compute; exact I. }
  split; [exact Hperm|]. split; [exact H|].
  exact (searching_no_match logStandIn plainText insertionSort Hperm sampleArticles
           "di mana saja"%string "jaccard"%string H).
Defined.

Lemma searching_complete_witness :
  (∀ less (l : list SearchResult), insertionSort less l ≡ₚ l)
  ∧ ∃ results,
      searching logStandIn plainText insertionSort (Some sampleArticles)
        "harga tanah"%string "jaccard"%string = Some results
      ∧ length results
        = length (List.filter
                    (λ i, (0 <? scoreOf logStandIn sampleArticles "harga tanah"%string
                                  "jaccard"%string i)%float)
                    (seq 0 (length sampleArticles)))
      ∧ ∀ i article,
          sampleArticles !! i = Some article →
          (0 <? scoreOf logStandIn sampleArticles "harga tanah"%string
                  "jaccard"%string i)%float = true →
          ∃ r, r ∈ results
               ∧ ResultTitle r = Title article
               ∧ ResultURL r = URL article
               ∧ Score r = scoreOf logStandIn sampleArticles "harga tanah"%string
                             "jaccard"%string i
               ∧ getContentPreview (Content article) "harga tanah"%string 160
                 = Some (ResultContent r)
               ∧ HighlightedContent r = plainText (ResultContent r) "harga tanah"%string
               ∧ Favicon r = getFaviconPath (URL article).
Proof.
  assert (Hperm : ∀ less (l : list SearchResult), insertionSort less l ≡ₚ l)
    by (intros; apply insertionSort_perm).
  split; [exact Hperm|].
  exact (searching_complete logStandIn plainText insertionSort Hperm sampleArticles
           "harga tanah"%string "jaccard"%string).
Defined.

(** ** The size of a preview *)

Section PreviewSize.

Implicit Types (t w : str).

Lemma slice_len t lo hi w : slice t lo hi = Some w → len w = (hi - lo)%Z.
Proof.
  unfold slice.
  destruct (Z.leb_spec 0 lo); [|done].
  destruct (Z.leb_spec lo hi); [|done].
  destruct (Z.leb_spec hi (len t)); [|done].
  cbn [andb]. intros [= <-]. unfold len in *.
  rewrite length_take, length_drop. lia.
Qed.

Lemma len_app t w : len (t ++ w) = (len t + len w)%Z.
Proof. unfold len. rewrite length_app. lia. Qed.

Lemma decorate_len cleaned start end_ window :
  (len window ≤ len (decorate cleaned start end_ window) ≤ len window + 6)%Z.
Proof.
  unfold decorate. cbv zeta.
  destruct (0 <? start)%Z, (end_ <? len cleaned)%Z; rewrite ?len_app;
    change (len "..."%string) with 3%Z; lia.
Qed.

Lemma windowEnd_width cleaned start :
  (windowEnd cleaned start 160 ≤ start + 160)%Z.
Proof.
  unfold windowEnd. cbv zeta.
  match goal with
  | |- context [(len cleaned <? ?e)%Z] => destruct (Z.ltb_spec (len cleaned) e)
  end; lia.
Qed.

End PreviewSize.

Section PreviewWindow.

Implicit Types (t w before window after : str).

Lemma slice_parts t lo hi w :
  slice t lo hi = Some w →
  t = take (Z.to_nat lo) t ++ w ++ drop (Z.to_nat hi) t
  ∧ length (take (Z.to_nat lo) t) = Z.to_nat lo
  ∧ length (drop (Z.to_nat hi) t) = length t - Z.to_nat hi.
Proof.
  unfold slice.
  destruct (Z.leb_spec 0 lo); [|done].
  destruct (Z.leb_spec lo hi); [|done].
  destruct (Z.leb_spec hi (len t)); [|done].
  cbn [andb]. intros [= <-]. unfold len in *. split; [|split].
  - rewrite <- (take_drop (Z.to_nat lo) t) at 1. f_equal.
    rewrite <- (take_drop (Z.to_nat (hi - lo)) (drop (Z.to_nat lo) t)) at 1. f_equal.
    rewrite drop_drop. f_equal. lia.
  - rewrite length_take. lia.
  - by rewrite length_drop.
Qed.

Lemma nil_length t : bool_decide (t = []) = (length t =? 0).
Proof. destruct t; by simpl. Qed.

End PreviewWindow.

(** X7. [getContentPreview] returns for every content, query and
    [maxLength] (no slice is out of range). The preview is a window of at
    most 160 consecutive bytes of the cleaned content, with an ellipsis in
    front exactly when content comes before the window and an ellipsis
    behind exactly when content comes after it; so it has at most 166
    bytes. *)
Theorem getContentPreview_window (content query : str) (maxLength : Z) :
  ∃ before window after preview,
    getContentPreview content query maxLength = Some preview
    ∧ cleanContent content = before ++ window ++ after
    ∧ length window ≤ 160
    ∧ preview = (if bool_decide (before = []) then [] else "..."%string : str)
                ++ window
                ++ (if bool_decide (after = []) then [] else "..."%string : str)
    ∧ length preview ≤ 166.
Proof.
  assert (Hdots : ∀ before window after : str,
            length window ≤ 160 →
            length ((if bool_decide (before = []) then [] else "..."%string : str)
                    ++ window
                    ++ (if bool_decide (after = []) then [] else "..."%string : str))
            ≤ 166).
  { intros before window after Hw. rewrite !length_app.
    destruct (bool_decide (before = [])), (bool_decide (after = [])); simpl; lia. }
  unfold getContentPreview. cbv zeta. set (cleaned := cleanContent content).
  destruct (Z.leb_spec (len cleaned) 160) as [Hshort|Hlen].
  { exists [], cleaned, [], cleaned.
    assert (Hw : length cleaned ≤ 160) by (unfold len in Hshort; lia).
    rewrite (bool_decide_eq_true_2 (([] : str) = [])) by done.
    rewrite !app_nil_r. cbn [app]. repeat split; try done; lia. }
  destruct (Z.eqb_spec (matchPos cleaned query) (-1)) as [|Hpos].
  - destruct (slice_in_range cleaned 0 160 ltac:(lia) ltac:(lia)) as [head Hhead].
    rewrite Hhead. cbn [mbind option_bind].
    destruct (slice_parts _ _ _ _ Hhead) as (Hparts & _ & Hafter).
    pose proof (slice_len _ _ _ _ Hhead) as Hw.
    cbn [Z.to_nat take app] in Hparts.
    assert (Hne : bool_decide (drop (Z.to_nat 160) cleaned = []) = false).
    { rewrite nil_length, Hafter. apply Nat.eqb_neq. unfold len in Hlen. lia. }
    exists [], head, (drop (Z.to_nat 160) cleaned), (head ++ "..."%string).
    rewrite Hne. cbn [app bool_decide]. unfold len in Hw.
    repeat split; try done; [lia|]. rewrite length_app. simpl. lia.
  - destruct (matchWordPos_defined cleaned query Hpos) as (wordPos & -> & Hrange).
    destruct (window_bounds cleaned wordPos Hlen Hrange) as (H0 & H1 & H2).
    destruct (slice_in_range cleaned _ _ (conj H0 H1) H2) as [window Hwin].
    cbn [mbind option_bind]. rewrite Hwin. cbn [mbind option_bind].
    set (start := windowStart wordPos) in *.
    set (end_ := windowEnd cleaned start 160) in *.
    destruct (slice_parts _ _ _ _ Hwin) as (Hparts & Hbefore & Hafter).
    pose proof (slice_len _ _ _ _ Hwin) as Hw.
    pose proof (windowEnd_width cleaned start) as Hwidth. fold end_ in Hwidth.
    assert (Hwindow : length window ≤ 160) by (unfold len in Hw; lia).
    exists (take (Z.to_nat start) cleaned), window, (drop (Z.to_nat end_) cleaned).
    eexists. split; [done|]. split; [exact Hparts|]. split; [done|].
    assert (Heq : decorate cleaned start end_ window
                  = (if bool_decide (take (Z.to_nat start) cleaned = [])
                     then [] else "..."%string : str)
                    ++ window
                    ++ (if bool_decide (drop (Z.to_nat end_) cleaned = [])
                        then [] else "..."%string : str)).
    { unfold decorate. cbv zeta. rewrite !nil_length, Hbefore, Hafter.
      unfold len in *.
      destruct (Z.ltb_spec 0 start), (Z.ltb_spec end_ (Z.of_nat (length cleaned)));
        repeat match goal with
               | |- context [?n =? 0] =>
                   first [ replace (n =? 0) with true by (symmetry; apply Nat.eqb_eq; lia)
                         | replace (n =? 0) with false by (symmetry; apply Nat.eqb_neq; lia) ]
               end; by rewrite ?app_nil_r, <- ?app_assoc. }
    split; [exact Heq|]. rewrite Heq. by apply Hdots.
Qed.

(** ** The shape of a cleaned content *)

Section CleanShape.

Import regexp.
Implicit Types (t u : str) (ws words : list str) (c : ascii) (rs : list str).

(** A word of a cleaned content: nonempty, of ASCII letters and digits. *)
Lemma cleanByte_word c :
  cleanByte c → isSpace c = false → (isLetter c || isDigit c) = true.
Proof.
  intros [_ H] Hs. destruct (isLetter c || isDigit c) eqn:Hl; [done|].
  simpl in H. apply isReSpace_isSpace in H. congruence.
Qed.

Lemma alnum_not_space c :
  (isLetter c || isDigit c) = true → isSpace c = false ∧ isASCII c = true.
Proof.
  intros H. assert (Hw : isWordChar c = true).
  { unfold isWordChar. by rewrite H. }
  split; [by apply isWordChar_not_space | by apply isWordChar_ascii].
Qed.

Lemma not_space_not_respace c : isSpace c = false → isReSpace c = false.
Proof.
  intros H. destruct (isReSpace c) eqn:Hr; [|done].
  apply isReSpace_isSpace in Hr. congruence.
Qed.

(** The loop that drops repeated words leaves no word equal to the one
    before it. *)
Lemma uniqueWords_head words : ∀ prev w rest,
  clean.uniqueWords prev words = w :: rest → w ≠ prev.
Proof.
  induction words as [|word words IH]; intros prev w rest; simpl; [done|].
  case_bool_decide as H; [by intros [= <- _] | apply IH].
Qed.

Lemma uniqueWords_adjacent words : ∀ prev i w1 w2,
  clean.uniqueWords prev words !! i = Some w1 →
  clean.uniqueWords prev words !! S i = Some w2 →
  w1 ≠ w2.
Proof.
  induction words as [|word words IH]; intros prev i w1 w2; simpl; [done|].
  case_bool_decide as H; [|apply IH].
  destruct i as [|i]; [|apply IH].
  cbn [lookup list_lookup]. intros [= <-] H2.
  destruct (clean.uniqueWords word words) as [|w rest] eqn:Hu; [done|].
  cbn [lookup list_lookup] in H2. injection H2 as <-.
  intros ->. by eapply uniqueWords_head.
Qed.

(** Joining tokens with single spaces and splitting again. *)
Lemma Fields_Join ws :
  Forall isToken ws → strings.Fields (strings.Join ws " "%string) = ws.
Proof.
  induction 1 as [|w ws Hw Hall IH]; [done|].
  destruct ws as [|w2 ws]; [by apply Fields_token|].
  rewrite Join_cons2, Fields_token_space by done. by rewrite IH.
Qed.

Lemma Join_tokens_head ws :
  Forall isToken ws → ws ≠ [] →
  ∃ c u, strings.Join ws " "%string = c :: u ∧ isSpace c = false.
Proof.
  intros Hall Hne. destruct Hall as [|w ws [Hw Hbytes] Hall]; [done|].
  destruct w as [|c w]; [done|]. apply Forall_cons in Hbytes as [Hc _].
  destruct ws as [|w2 ws]; [by exists c, w|].
  rewrite Join_cons2. by eexists c, _.
Qed.

Lemma Join_tokens_last ws :
  Forall isToken ws → ws ≠ [] →
  ∃ u c, strings.Join ws " "%string = u ++ [c] ∧ isSpace c = false.
Proof.
  induction 1 as [|w ws [Hw Hbytes] Hall IH]; [done|]. intros _.
  destruct ws as [|w2 ws].
  - destruct (exists_last Hw) as (u & c & ->).
    apply Forall_app in Hbytes as [_ Hc]. apply Forall_cons in Hc as [Hc _].
    by exists u, c.
  - destruct IH as (u & c & Hu & Hc); [done|].
    rewrite Join_cons2, Hu. exists (w ++ " "%string ++ u), c.
    split; [|done]. by rewrite <- !app_assoc.
Qed.

Lemma dropWhile_head (g : ascii → bool) c u :
  g c = false → dropWhile g (c :: u) = c :: u.
Proof. intros H. simpl. by rewrite H. Qed.

(** [strings.TrimSpace] leaves a text that neither starts nor ends with
    white space as it is. *)
Lemma TrimSpace_tokens ws :
  Forall isToken ws →
  strings.TrimSpace (strings.Join ws " "%string) = strings.Join ws " "%string.
Proof.
  intros Hall. destruct ws as [|w ws]; [done|].
  destruct (Join_tokens_head (w :: ws) Hall) as (c & u & Hhead & Hc); [done|].
  destruct (Join_tokens_last (w :: ws) Hall) as (v & c' & Hlast & Hc'); [done|].
  unfold strings.TrimSpace.
  rewrite Hhead, dropWhile_head by done. rewrite <- Hhead, Hlast.
  rewrite reverse_app. cbn [reverse app]. change (reverse [c']) with [c'].
  cbn [app]. rewrite dropWhile_head by done.
  rewrite reverse_cons, reverse_involutive. done.
Qed.

(** [\s+] does not look at what precedes the match. *)
Lemma replaceAll_Plus_prev k repl rs : ∀ w w' skip,
  replaceAll (Plus k) repl w skip rs = replaceAll (Plus k) repl w' skip rs.
Proof.
  induction rs as [|r rs IH]; intros w w' skip; [done|].
  cbn [replaceAll]. destruct skip as [|n]; [|apply IH].
  assert (Hm : matchLen (Plus k) w (r :: rs) = matchLen (Plus k) w' (r :: rs)) by done.
  by rewrite Hm.
Qed.

Lemma replaceAll_space_word repl w u tail :
  Forall (λ c, isSpace c = false ∧ isASCII c = true) u →
  replaceAll (Plus space) repl w 0 (bytesAsRunes (u ++ tail))
  = u ++ replaceAll (Plus space) repl w 0 (bytesAsRunes tail).
Proof.
  intros Hu. revert w. induction Hu as [|c u [Hc Ha] Hu IH]; intros w; [done|].
  change (bytesAsRunes ((c :: u) ++ tail)) with ([c] :: bytesAsRunes (u ++ tail)).
  cbn [replaceAll].
  pose proof (matchLen_Plus space w [c] (bytesAsRunes (u ++ tail))) as Hm.
  assert (Hk : inClass space [c] = false).
  { cbn [inClass]. rewrite Ha. by apply not_space_not_respace. }
  rewrite Hk in Hm. rewrite Hm.
  cbn [app]. f_equal. rewrite (replaceAll_Plus_prev _ _ _ _ w). apply IH.
Qed.

Lemma replaceAll_space_single w c tail :
  isSpace c = false → isASCII c = true →
  replaceAll (Plus space) " "%string w 0 (bytesAsRunes (" "%string ++ c :: tail))
  = " "%string ++ replaceAll (Plus space) " "%string w 0 (bytesAsRunes (c :: tail)).
Proof.
  intros Hc Ha.
  assert (Hk : inClass space [c] = false).
  { cbn [inClass]. rewrite Ha. by apply not_space_not_respace. }
  change (bytesAsRunes (" "%string ++ c :: tail))
    with ([" "%char] :: [c] :: bytesAsRunes tail).
  cbn [replaceAll].
  assert (Hm : matchLen (Plus space) w ([" "%char] :: [c] :: bytesAsRunes tail) = Some 1).
  { unfold matchLen. cbn [exec].
    change (inClass space [" "%char]) with true. cbn [many]. rewrite Hk.
    cbn [length]. f_equal; lia. }
  by rewrite Hm.
Qed.

(** The final [\s+] pass finds single spaces only and puts them back. *)
Lemma replaceAll_space_Join ws : ∀ w,
  Forall (λ t, t ≠ [] ∧ Forall (λ c, isSpace c = false ∧ isASCII c = true) t) ws →
  replaceAll (Plus space) " "%string w 0 (bytesAsRunes (strings.Join ws " "%string))
  = strings.Join ws " "%string.
Proof.
  intros w Hall. revert w. induction Hall as [|t ws [Hne Ht] Hall IH]; intros w; [done|].
  destruct ws as [|t2 ws].
  - cbn [strings.Join]. rewrite <- (app_nil_r t) at 1.
    rewrite replaceAll_space_word by done. by rewrite app_nil_r.
  - rewrite Join_cons2, replaceAll_space_word by done. f_equal.
    specialize (IH w).
    destruct (strings.Join (t2 :: ws) " "%string) as [|c tail] eqn:HJ.
    + exfalso. apply Forall_cons in Hall as [[Hne2 _] _].
      destruct t2; [done|]. by destruct ws.
    + assert (Hc : isSpace c = false ∧ isASCII c = true).
      { apply Forall_cons in Hall as [[Hne2 Ht2] _]. destruct t2 as [|c2 t2]; [done|].
        apply Forall_cons in Ht2 as [Hc2 _].
        destruct ws; cbn [strings.Join app] in HJ; by injection HJ as <- _. }
      destruct Hc as [Hc Ha]. rewrite replaceAll_space_single by done.
      by rewrite IH.
Qed.

End CleanShape.

(** X8. A cleaned content is a sequence of words joined by single spaces:
    every word is a nonempty run of ASCII letters and digits, no word is
    equal to the word before it, and there is no white space at either end. *)
Theorem cleanContent_words (content : str) :
  ∃ words,
    cleanContent content = strings.Join words " "%string
    ∧ strings.Fields (cleanContent content) = words
    ∧ Forall (λ w, w ≠ [] ∧ Forall (λ c, (isLetter c || isDigit c) = true) w) words
    ∧ ∀ i w1 w2, words !! i = Some w1 → words !! S i = Some w2 → w1 ≠ w2.
Proof.
  assert (Hascii : ∀ c, cleanByte c → isASCII c = true) by by intros c [? ?].
  assert (Hblank : Forall cleanByte (" "%string : str)) by by repeat constructor.
  unfold cleanContent. cbv zeta.
  set (c4 := regexp.ReplaceAllString clean.socialPattern _ _). clearbody c4.
  set (c9 := regexp.ReplaceAllString clean.punctuationSpacing _ _).
  assert (Hc9 : Forall cleanByte c9).
  { subst c9. apply ReplaceAllString_Forall; [done| |done].
    apply TrimSpace_Forall.
    do 2 (apply ReplaceAllString_Forall; [done| |done]).
    unfold regexp.ReplaceAllString, clean.specialCharsPattern.
    apply replaceAll_Plus_Forall;
      [done | apply specialChars_kept | apply runes_fuel_nonempty]. }
  clearbody c9.
  set (words := clean.uniqueWords [] (strings.Fields c9)).
  assert (Hwords : Forall (λ w, w ≠ [] ∧ Forall (λ c, (isLetter c || isDigit c) = true) w)
                     words).
  { subst words. apply uniqueWords_Forall.
    eapply Forall_impl; [by apply (Fields_Forall cleanByte)|].
    intros f [Hne Hf]. split; [done|].
    eapply Forall_impl; [exact Hf|]. intros c [? ?]. by apply cleanByte_word. }
  assert (Htok : Forall isToken words).
  { eapply Forall_impl; [exact Hwords|]. intros w [Hne Hw]. split; [done|].
    eapply Forall_impl; [exact Hw|]. intros c Hc. by apply alnum_not_space. }
  assert (Hbytes : Forall (λ t, t ≠ [] ∧ Forall (λ c, isSpace c = false ∧ isASCII c = true) t)
                     words).
  { eapply Forall_impl; [exact Hwords|]. intros w [Hne Hw]. split; [done|].
    eapply Forall_impl; [exact Hw|]. intros c Hc. by apply alnum_not_space. }
  assert (Hclean : regexp.ReplaceAllString clean.whitespacePattern
                     (strings.TrimSpace (strings.Join words " "%string)) " "%string
                   = strings.Join words " "%string).
  { rewrite TrimSpace_tokens by done. unfold regexp.ReplaceAllString.
    rewrite runes_ascii.
    - by apply replaceAll_space_Join.
    - apply Join_Forall; [|by repeat constructor].
      eapply Forall_impl; [exact Hbytes|]. intros w [_ Hw].
      eapply Forall_impl; [exact Hw|]. by intros c [_ ?]. }
  exists words. rewrite Hclean. repeat split; try done.
  - by apply Fields_Join.
  - subst words. apply uniqueWords_adjacent.
Qed.

(** ** The length of a cleaned content *)

Section CleanLength.

Import regexp.
Implicit Types (t u old : str) (ws words : list str) (c : ascii) (rs : list str).

Lemma replaceAllFrom_length old t : ∀ skip,
  length (strings.replaceAllFrom old [] skip t) ≤ length t.
Proof.
  induction t as [|c t IH]; intros skip; cbn [strings.replaceAllFrom]; [done|].
  destruct skip as [|k].
  - destruct (strings.HasPrefix (c :: t) old); cbn [app length].
    + specialize (IH (length old - 1)). lia.
    + specialize (IH 0). lia.
  - specialize (IH k). simpl. lia.
Qed.

Lemma removeTexts_length (texts : list str) : ∀ t,
  length (fold_left (λ content text, strings.ReplaceAll content text []) texts t)
  ≤ length t.
Proof.
  induction texts as [|text texts IH]; intros t; cbn [fold_left]; [done|].
  etrans; [apply IH|]. apply replaceAllFrom_length.
Qed.

(** Replacing each match, which takes at least one rune, by at most one
    byte does not lengthen the text. *)
Lemma replaceAll_length re repl rs : ∀ w skip,
  length repl ≤ 1 → Forall (λ r, r ≠ []) rs →
  length (replaceAll re repl w skip rs) ≤ length (concat rs).
Proof.
  intros w skip Hrepl Hne. revert w skip.
  induction Hne as [|r rs Hr Hne IH]; intros w skip; [done|].
  assert (Hlen : 1 ≤ length r) by (destruct r; [done|simpl; lia]).
  cbn [replaceAll concat]. rewrite length_app.
  destruct skip as [|k]; [|specialize (IH (isWordRune r) k); lia].
  destruct (matchLen re w (r :: rs)) as [[|k]|]; rewrite length_app.
  - specialize (IH (isWordRune r) 0). lia.
  - specialize (IH (isWordRune r) k). lia.
  - specialize (IH (isWordRune r) 0). lia.
Qed.

Lemma ReplaceAllString_length re t repl :
  length repl ≤ 1 → length (ReplaceAllString re t repl) ≤ length t.
Proof.
  intros Hrepl. unfold ReplaceAllString.
  rewrite <- (runes_concat t) at 2.
  apply replaceAll_length; [done | apply runes_fuel_nonempty].
Qed.

Lemma removePatterns_length (patterns : list regex) : ∀ t,
  length (fold_left (λ content pattern, ReplaceAllString pattern content []) patterns t)
  ≤ length t.
Proof.
  induction patterns as [|re patterns IH]; intros t; cbn [fold_left]; [done|].
  etrans; [apply IH|]. apply ReplaceAllString_length. simpl. lia.
Qed.

Lemma dropWhile_length {A} (g : A → bool) (l : list A) :
  length (dropWhile g l) ≤ length l.
Proof. induction l as [|x l IH]; simpl; [done|]. destruct (g x); simpl; lia. Qed.

Lemma TrimSpace_length t : length (strings.TrimSpace t) ≤ length t.
Proof.
  unfold strings.TrimSpace. rewrite length_reverse.
  etrans; [apply dropWhile_length|]. rewrite length_reverse.
  apply dropWhile_length.
Qed.

Lemma Join_spread ws :
  ws ≠ [] → S (length (strings.Join ws " "%string)) = spread ws.
Proof.
  induction ws as [|w1 ws IH]; [done|]. intros _.
  destruct ws as [|w2 ws]; [simpl; lia|].
  rewrite Join_cons2, !length_app.
  change (spread (w1 :: w2 :: ws)) with (S (length w1) + spread (w2 :: ws)).
  rewrite <- IH by done. simpl. lia.
Qed.

Lemma uniqueWords_spread words : ∀ prev,
  spread (clean.uniqueWords prev words) ≤ spread words.
Proof.
  induction words as [|w words IH]; intros prev; simpl; [done|].
  case_bool_decide; cbn [spread]; [specialize (IH w) | specialize (IH prev)]; lia.
Qed.

Lemma Join_uniqueWords_length t :
  length (strings.Join (clean.uniqueWords [] (strings.Fields t)) " "%string) ≤ length t.
Proof.
  destruct (clean.uniqueWords [] (strings.Fields t)) as [|w ws] eqn:Hu; [simpl; lia|].
  pose proof (Join_spread (w :: ws) ltac:(done)) as HJ.
  pose proof (uniqueWords_spread (strings.Fields t) []) as Hs. rewrite Hu in Hs.
  pose proof (Fields_spread t). lia.
Qed.

End CleanLength.

(** X9. Cleaning never lengthens a content: every step removes text,
    replaces a match by at most one byte, or trims. *)
Theorem cleanContent_length (content : str) :
  length (cleanContent content) ≤ length content.
Proof.
  assert (Hblank : length (" "%string : str) ≤ 1) by (simpl; lia).
  assert (Hnil : length ([] : str) ≤ 1) by (simpl; lia).
  unfold cleanContent. cbv zeta.
  repeat first
    [ etrans; [by apply ReplaceAllString_length|]
    | etrans; [apply TrimSpace_length|]
    | etrans; [apply Join_uniqueWords_length|]
    | etrans; [apply removePatterns_length|] ].
  apply removeTexts_length.
Qed.

(** ** Words, numbers and the text processor *)

Section WordsFacts.

Import regexp.
Implicit Types (t u tail a b : str) (rs : list str) (c : ascii) (w : bool).

Ltac by_byte c :=
  destruct c as [[] [] [] [] [] [] [] []]; vm_compute; try done; auto.

Lemma isReSpace_not_word c : isReSpace c = true → isWordChar c = false.
Proof. by_byte c. Qed.

Lemma isReSpace_ascii c : isReSpace c = true → isASCII c = true.
Proof. by_byte c. Qed.

Lemma Fields_sep c u : isSpace c = true → strings.Fields (c :: u) = strings.Fields u.
Proof. intros Hc. apply (Fields_spaces_app [c]). by repeat constructor. Qed.

Lemma Fields_token_sep t c u :
  isToken t → isSpace c = true →
  strings.Fields (t ++ c :: u) = t :: strings.Fields u.
Proof.
  intros [Hne Ht] Hc. unfold strings.Fields. rewrite fieldsFrom_token_app by done.
  cbn [strings.fieldsFrom]. destruct (strings.fieldsFrom u) as [f fs].
  rewrite Hc. cbn [fst snd]. rewrite app_nil_r.
  destruct t as [|x t]; [done|reflexivity].
Qed.

Lemma Fields_token_end t : isToken t → strings.Fields t = [t].
Proof. apply Fields_token. Qed.

(** Splitting distributes over a separating blank. *)
Lemma Fields_app_sep a c b :
  isSpace c = true →
  strings.Fields (a ++ c :: b) = strings.Fields a ++ strings.Fields b.
Proof.
  intros Hc. unfold strings.Fields.
  assert (H : ∀ a, strings.fieldsFrom (a ++ c :: b)
                   = ((strings.fieldsFrom a).1,
                      (strings.fieldsFrom a).2
                      ++ strings.pushField (strings.fieldsFrom b).1 (strings.fieldsFrom b).2)).
  { clear a. induction a as [|x a IH].
    - cbn [app strings.fieldsFrom]. destruct (strings.fieldsFrom b) as [f fs].
      by rewrite Hc.
    - cbn [app strings.fieldsFrom]. rewrite IH.
      destruct (strings.fieldsFrom a) as [f fs]. cbn [fst snd].
      destruct (isSpace x); [|done]. cbn [fst snd]. by destruct f. }
  rewrite H. destruct (strings.fieldsFrom a) as [f fs].
  destruct (strings.fieldsFrom b) as [g gs]. cbn [fst snd].
  by destruct f.
Qed.

(** A blank is copied by the numbers pass, and what follows it starts
    outside a word. *)
Lemma replaceAll_numbers_blank repl w c rs :
  isReSpace c = true →
  replaceAll tp.numbers repl w 0 ([c] :: rs)
  = c :: replaceAll tp.numbers repl false 0 rs.
Proof.
  intros Hc. cbn [replaceAll]. unfold matchLen. rewrite exec_numbers.
  assert (Hd : inClass digit [c] = false).
  { rewrite inClass_digit_byte. destruct (isDigit c) eqn:Hd; [|done].
    apply isDigit_isWordChar in Hd. apply isReSpace_not_word in Hc. congruence. }
  rewrite Hd, andb_false_r.
  assert (Hw : isWordRune [c] = false).
  { unfold isWordRune. cbn [inClass]. rewrite (isReSpace_ascii c Hc).
    by apply isReSpace_not_word. }
  by rewrite Hw.
Qed.

(** A text of kept bytes is empty, starts with a blank, or starts with a
    word that reaches the end or a blank. *)
Lemma kept_split t :
  Forall keptByte t →
  t = []
  ∨ (∃ c t', t = c :: t' ∧ isReSpace c = true)
  ∨ (∃ u tail, t = u ++ tail ∧ u ≠ [] ∧ Forall (λ c, isWordChar c = true) u
               ∧ (tail = [] ∨ ∃ c t', tail = c :: t' ∧ isReSpace c = true)).
Proof.
  induction 1 as [|c t [Ha Hc] Ht IH]; [by left|]. right.
  destruct (isWordChar c) eqn:Hw.
  - right. destruct IH as [->|[(c' & t' & -> & Hc')|(u & tail & -> & Hne & Hu & Htail)]].
    + exists [c], []. repeat split; try done; [by repeat constructor | by left].
    + exists [c], (c' :: t'). repeat split; try done; [by repeat constructor|].
      right. by exists c', t'.
    + exists (c :: u), tail. repeat split; try done. by constructor.
  - left. exists c, t. by split.
Qed.

(** The numbers pass, read word by word: the words that are numbers go,
    the others stay. *)
Lemma Fields_numbers_pass : ∀ n t w,
  length t ≤ n →
  Forall keptByte t →
  (w = true → nextIsWord (bytesAsRunes t) = false) →
  strings.Fields (replaceAll tp.numbers " "%string w 0 (bytesAsRunes t))
  = List.filter (λ f, negb (forallb isDigit f)) (strings.Fields t).
Proof.
  induction n as [|n IH]; intros t w Hlen Hkept Hw.
  { destruct t; [done|simpl in Hlen; lia]. }
  destruct (kept_split t Hkept)
    as [->|[(c & t' & -> & Hc)|(u & tail & -> & Hne & Hu & Htail)]]; [done| |].
  - change (bytesAsRunes (c :: t')) with ([c] :: bytesAsRunes t').
    rewrite replaceAll_numbers_blank by done.
    rewrite !Fields_sep by by apply isReSpace_isSpace.
    apply Forall_cons in Hkept as [_ Hkept].
    apply IH; [simpl in Hlen; lia | done | done].
  - assert (Htok : isToken u).
    { split; [done|]. eapply Forall_impl; [exact Hu|]. apply isWordChar_not_space. }
    assert (Hfalse : w = false).
    { destruct w; [|done]. specialize (Hw eq_refl).
      destruct u as [|c u]; [done|]. apply Forall_cons in Hu as [Hc _].
      cbn [app bytesAsRunes map nextIsWord] in Hw.
      rewrite isWordRune_byte in Hw by done. done. }
    subst w. apply Forall_app in Hkept as [_ Hkept].
    assert (Hulen : 1 ≤ length u) by (destruct u; [done|simpl; lia]).
    rewrite length_app in Hlen.
    destruct Htail as [->|(c & t' & -> & Hc)].
    + rewrite replaceAll_numbers_token by done. cbn [bytesAsRunes map replaceAll].
      rewrite !app_nil_r, (Fields_token u Htok). cbn [List.filter].
      destruct (forallb isDigit u); [done|]. by apply Fields_token.
    + rewrite replaceAll_numbers_token; [|done|done|].
      2:{ cbn [bytesAsRunes map nextIsWord]. unfold isWordRune. cbn [inClass].
          rewrite (isReSpace_ascii c Hc). by apply isReSpace_not_word. }
      change (bytesAsRunes (c :: t')) with ([c] :: bytesAsRunes t').
      rewrite replaceAll_numbers_blank by done.
      pose proof (isReSpace_isSpace c Hc) as Hs.
      rewrite (Fields_token_sep u c t' Htok Hs). cbn [List.filter].
      apply Forall_cons in Hkept as [_ Hkept].
      assert (HIH := IH t' false ltac:(simpl in Hlen; lia) Hkept ltac:(done)).
      destruct (forallb isDigit u); cbn [negb].
      * change (" "%string ++ c :: ?x) with (" "%char :: c :: x).
        rewrite Fields_sep by done. rewrite Fields_sep by done. exact HIH.
      * rewrite (Fields_token_sep u c _ Htok Hs). by rewrite HIH.
Qed.

End WordsFacts.

(** ** The text processor on concatenated texts *)

Section RunesOfParts.

Import regexp.
Implicit Types (t u a x text rest : str) (rs : list str) (c : ascii).

Lemma runes_fuel_enough : ∀ n m t,
  length t ≤ n → length t ≤ m → utf8.runes_fuel n t = utf8.runes_fuel m t.
Proof.
  induction n as [|n IH]; intros m t Hn Hm.
  - destruct t; [|simpl in Hn; lia]. by destruct m.
  - destruct t as [|b0 rest]; [by destruct m|].
    destruct m as [|m]; [simpl in Hm; lia|].
    cbn [utf8.runes_fuel]. f_equal.
    simpl in Hn, Hm. apply IH; rewrite length_drop; lia.
Qed.

Lemma between_space lo hi : (128 ≤ lo)%N → between lo hi " "%char = false.
Proof.
  intros H. unfold between. apply andb_false_intro1. apply N.leb_gt.
  change (code " "%char) with 32%N. lia.
Qed.

(** A space after the text does not change how its last bytes decode: it
    cannot continue a multi-byte sequence. *)
Lemma runeWidth_app_space (b0 : ascii) rest x :
  utf8.runeWidth b0 (rest ++ " "%char :: x) = utf8.runeWidth b0 rest
  ∧ utf8.runeWidth b0 rest - 1 ≤ length rest.
Proof.
  assert (Hc : utf8.cont " "%char = false) by done.
  unfold utf8.runeWidth. cbv zeta.
  destruct (code b0 <? 128)%N; [simpl; split; [done|lia]|].
  destruct (between 194 223 b0).
  { destruct rest as [|b1 rest]; cbn [app length].
    - rewrite Hc. split; [done|lia].
    - destruct (utf8.cont b1); split; try done; lia. }
  destruct (between 224 239 b0).
  { set (lo := if (code b0 =? 224)%N then 160%N else 128%N).
    set (hi := if (code b0 =? 237)%N then 159%N else 191%N).
    assert (Hlo : between lo hi " "%char = false).
    { apply between_space. subst lo. destruct (code b0 =? 224)%N; lia. }
    clearbody lo hi.
    destruct rest as [|b1 [|b2 rest]]; cbn [app length].
    - rewrite Hlo. cbn [andb]. split; [by destruct x|lia].
    - rewrite Hc, andb_false_r. split; [done|lia].
    - destruct (between lo hi b1 && utf8.cont b2); split; try done; lia. }
  destruct (between 240 244 b0).
  { set (lo := if (code b0 =? 240)%N then 144%N else 128%N).
    set (hi := if (code b0 =? 244)%N then 143%N else 191%N).
    assert (Hlo : between lo hi " "%char = false).
    { apply between_space. subst lo. destruct (code b0 =? 240)%N; lia. }
    clearbody lo hi.
    destruct rest as [|b1 [|b2 [|b3 rest]]]; cbn [app length].
    - rewrite Hlo. cbn [andb]. split; [by destruct x as [|? [|? ?]]|lia].
    - rewrite Hc, andb_false_r. cbn [andb]. split; [by destruct x|lia].
    - rewrite Hc, andb_false_r. split; [done|lia].
    - destruct (between lo hi b1 && utf8.cont b2 && utf8.cont b3); split; try done; lia. }
  split; [done|lia].
Qed.

Lemma runes_fuel_app_space (b : str) : ∀ n a,
  length a ≤ n →
  utf8.runes_fuel (n + S (length b)) (a ++ " "%char :: b)
  = utf8.runes_fuel n a ++ [" "%char] :: utf8.runes b.
Proof.
  induction n as [|n IH]; intros a Ha.
  - destruct a; [|simpl in Ha; lia]. cbn [app utf8.runes_fuel Nat.add].
    change (utf8.runeWidth " "%char b) with 1. cbn [Nat.sub take drop]. done.
  - destruct a as [|b0 rest].
    + cbn [app utf8.runes_fuel Nat.add].
      change (utf8.runeWidth " "%char b) with 1. cbn [Nat.sub take drop].
      f_equal. apply runes_fuel_enough; lia.
    + cbn [app utf8.runes_fuel Nat.add]. simpl in Ha.
      destruct (runeWidth_app_space b0 rest b) as [-> Hw].
      rewrite take_app_le, drop_app_le by done.
      by rewrite IH by (rewrite length_drop; lia).
Qed.

Lemma runes_app_space a (b : str) :
  utf8.runes (a ++ " "%char :: b) = utf8.runes a ++ [" "%char] :: utf8.runes b.
Proof.
  unfold utf8.runes at 1 2. rewrite length_app. cbn [length].
  by apply runes_fuel_app_space.
Qed.

(** The punctuation pass works rune by rune, so it distributes over a
    separating space. *)
Lemma punctuation_pass_app a (b : str) :
  ReplaceAllString tp.punctuation (a ++ " "%string ++ b) " "%string
  = ReplaceAllString tp.punctuation a " "%string ++ " "%string
    ++ ReplaceAllString tp.punctuation b " "%string.
Proof.
  unfold ReplaceAllString, tp.punctuation. rewrite !replaceAll_Chr.
  change (" "%string ++ b) with (" "%char :: b) at 1.
  rewrite runes_app_space, map_app, concat_app. done.
Qed.

(** The tokens of a text: the words left by the punctuation pass that are
    neither numbers nor stop words, lowered and stemmed. *)
Lemma ProcessText_fields text :
  tp.ProcessText text
  = stemming (tp.caseFolding
      (List.filter (λ word, negb (tp.stopWords (strings.ToLower word)))
         (List.filter (λ f, negb (forallb isDigit f))
            (strings.Fields (ReplaceAllString tp.punctuation text " "%string))))).
Proof.
  unfold tp.ProcessText, tp.removeStopwords, tp.removePunctuationsAndNumbers.
  cbv zeta. rewrite Fields_TrimSpace. f_equal. f_equal. f_equal.
  pose proof (punctuation_pass_kept text) as Hkept.
  unfold ReplaceAllString at 1. rewrite runes_ascii by by apply keptByte_ascii.
  by apply (Fields_numbers_pass _ _ false (Nat.le_refl _)).
Qed.

End RunesOfParts.

(** X10. The tokens of two texts joined by a space are the tokens of the
    first followed by the tokens of the second: no token is formed across
    the space, and none is lost. [buildInvertedIndex] reads a document as
    title, space, content, so its tokens are those of the title followed by
    those of the content. *)
Theorem ProcessText_app (a b : str) :
  tp.ProcessText (a ++ " "%string ++ b) = tp.ProcessText a ++ tp.ProcessText b.
Proof.
  rewrite !ProcessText_fields, punctuation_pass_app.
  change (" "%string ++ ?x) with (" "%char :: x).
  rewrite Fields_app_sep by done.
  rewrite !List.filter_app. unfold stemming, tp.caseFolding.
  by rewrite !map_app.
Qed.

(** ** What the first step leaves *)

Section TrimFacts.

Implicit Types (t u front rest : str) (c : ascii).

Lemma dropWhile_cons (g : ascii → bool) t c u :
  dropWhile g t = c :: u → g c = false.
Proof.
  induction t as [|x t IH]; simpl; [done|].
  destruct (g x) eqn:Hx; [done|]. by intros [= <- _].
Qed.

Lemma dropWhile_snoc (g : ascii → bool) t c :
  g c = false → dropWhile g (t ++ [c]) = dropWhile g t ++ [c].
Proof.
  intros Hc. induction t as [|x t IH]; simpl; [by rewrite Hc|].
  by destruct (g x).
Qed.

Lemma TrimSpace_head t c rest :
  strings.TrimSpace t = c :: rest → isSpace c = false.
Proof.
  unfold strings.TrimSpace.
  destruct (dropWhile isSpace t) as [|c0 u0] eqn:Hd; [done|].
  apply dropWhile_cons in Hd. rewrite reverse_cons, dropWhile_snoc by done.
  rewrite reverse_app. cbn [reverse app]. change (reverse [c0]) with [c0].
  by intros [= <- _].
Qed.

Lemma TrimSpace_last t front c :
  strings.TrimSpace t = front ++ [c] → isSpace c = false.
Proof.
  unfold strings.TrimSpace. intros H.
  apply (f_equal reverse) in H. rewrite reverse_involutive, reverse_app in H.
  by apply dropWhile_cons in H.
Qed.

End TrimFacts.

(** X11. The first step of normalization returns a text of ASCII letters,
    digits, underscores and blanks (no other punctuation and no byte above
    127), without white space at either end. Its words are the words left
    by the punctuation pass less those that consist of digits only: a
    number standing alone is dropped, digits inside a word stay. *)
Theorem removePunctuationsAndNumbers_shape (text : str) :
  Forall (λ c, isASCII c = true ∧ (isWordChar c || isReSpace c) = true)
    (tp.removePunctuationsAndNumbers text)
  ∧ (∀ c rest, tp.removePunctuationsAndNumbers text = c :: rest → isSpace c = false)
  ∧ (∀ front c, tp.removePunctuationsAndNumbers text = front ++ [c] → isSpace c = false)
  ∧ strings.Fields (tp.removePunctuationsAndNumbers text)
    = List.filter (λ word, negb (forallb isDigit word))
        (strings.Fields (regexp.ReplaceAllString tp.punctuation text " "%string))
  ∧ Forall (λ word, forallb isDigit word = false)
      (strings.Fields (tp.removePunctuationsAndNumbers text)).
Proof.
  split; [apply removePunctuationsAndNumbers_kept|].
  split; [intros c rest; apply TrimSpace_head|].
  split; [intros front c; apply TrimSpace_last|].
  assert (Hwords : strings.Fields (tp.removePunctuationsAndNumbers text)
                   = List.filter (λ word, negb (forallb isDigit word))
                       (strings.Fields
                          (regexp.ReplaceAllString tp.punctuation text " "%string))).
  { unfold tp.removePunctuationsAndNumbers. cbv zeta. rewrite Fields_TrimSpace.
    pose proof (punctuation_pass_kept text) as Hkept.
    unfold regexp.ReplaceAllString at 1. rewrite runes_ascii by by apply keptByte_ascii.
    by apply (Fields_numbers_pass _ _ false (Nat.le_refl _)). }
  split; [exact Hwords|]. rewrite Hwords.
  apply Forall_forall. intros word Hin.
  apply list_elem_of_In, List.filter_In in Hin as [_ Hin].
  by apply negb_true_iff.
Qed.

(** X12. Every token [ProcessText] returns is a nonempty string of the
    bytes [a-z], [0-9] and [_]: no upper-case letter, no white space, no
    other punctuation and no byte above 127 reaches the index or the query
    vector. *)
Theorem ProcessText_tokens (text : str) :
  Forall
    (λ token, token ≠ []
              ∧ Forall (λ c, (isLower c || isDigit c || Ascii.eqb c "_") = true) token)
    (tp.ProcessText text).
Proof. apply ProcessText_terms. Qed.

(** ** A collection of one article *)

Section NullWeights.

Implicit Types (x y m w : float) (v qv : gmap str float) (i : nat).

Lemma nullWeight_zero : nullWeight 0.
Proof. right. by exists false. Qed.

Lemma nullWeight_mul_zero x : nullWeight (x * 0).
Proof.
  unfold nullWeight. rewrite mul_spec. change (Prim2SF 0) with (S754_zero false).
  destruct (Prim2SF x) as [s|s| |s m e]; simpl; eauto.
Qed.

Lemma nullWeight_square_sum m w :
  nullWeight m → nullWeight w → nullWeight (m + w * w).
Proof.
  unfold nullWeight. rewrite add_spec, mul_spec.
  intros [->|[s ->]] [->|[s' ->]]; simpl; eauto.
  destruct s, s'; simpl; eauto.
Qed.

Lemma nullWeight_sqrt m : nullWeight m → nullWeight (PrimFloat.sqrt m).
Proof.
  unfold nullWeight. rewrite sqrt_spec. intros [->|[s ->]]; simpl; eauto.
Qed.

Lemma nullWeight_not_positive m : nullWeight m → (0 <? m)%float = false.
Proof.
  unfold nullWeight. rewrite ltb_spec. change (Prim2SF 0) with (S754_zero false).
  by intros [->|[s ->]].
Qed.

(** A vector of such weights has no direction: it is normalized to the
    empty vector. *)
Lemma normalizeVector_null v :
  map_Forall (λ _ w, nullWeight w) v → normalizeVector v = ∅.
Proof.
  intros Hv. unfold normalizeVector. cbv zeta.
  rewrite nullWeight_not_positive; [done|].
  apply nullWeight_sqrt. revert Hv.
  apply (map_fold_weak_ind
           (λ r (m : gmap str float), map_Forall (λ _ w, nullWeight w) m → nullWeight r)).
  - intros _. apply nullWeight_zero.
  - intros t w m r Hfresh IH Hall.
    apply map_Forall_insert in Hall as [Hw Hm]; [|done].
    apply nullWeight_square_sum; [by apply IH | done].
Qed.

Lemma cosine_null_document qv (table : TFIDFTable) i :
  map_Forall (λ _ w, nullWeight w) (docVectorOf table i) →
  cosineSimilarityWithTFIDF qv table i = 0%float.
Proof.
  intros Hnull. unfold cosineSimilarityWithTFIDF. cbv zeta.
  rewrite (normalizeVector_null (docVectorOf table i)) by done.
  apply dot_product_none. intros t _. apply lookup_empty.
Qed.

(** In a collection of one article every weight is a multiple of
    [Log(1/1)]. *)
Lemma single_article_weights Log article :
  Log 1%float = 0%float →
  map_Forall (λ _ w, nullWeight w)
    (docVectorOf (calculateTFIDF Log (buildInvertedIndex [article]) 1) 0).
Proof.
  intros HLog t w. rewrite docVectorOf_lookup. unfold calculateTFIDF.
  rewrite lookup_fmap.
  destruct (buildInvertedIndex [article] !! t) as [pl|] eqn:Hpl; [|done].
  cbn [fmap option_fmap option_map mbind option_bind].
  rewrite lookup_fmap. destruct (Postings pl !! 0) as [po|]; [|done].
  cbn [fmap option_fmap option_map]. intros [= <-].
  destruct (DocFrequency_filter [article] t pl Hpl) as [_ [Hlo Hhi]].
  assert (Hdf : DocFrequency pl = 1) by (simpl in Hhi; lia).
  rewrite Hdf.
  assert (Hone : (float64 1 / float64 1)%float = 1%float) by reflexivity.
  rewrite Hone, HLog. apply nullWeight_mul_zero.
Qed.

End NullWeights.

Section SingleArticle.

Variable Log : float → float.
Variable highlightText : str → str → str.
Variable sortSlice :
  (SearchResult → SearchResult → bool) → list SearchResult → list SearchResult.

Hypothesis sortSlice_perm : ∀ less l, sortSlice less l ≡ₚ l.
Hypothesis Log_1 : Log 1%float = 0%float.

(** X13. In a collection of one article the cosine search returns nothing,
    whatever the query: the inverse document frequency of every term is
    [Log(1/1)], which is 0, so every weight of the article is 0 (or NaN),
    its vector has no magnitude above 0, and the score is 0. The same holds
    for every method name other than "jaccard", which all select the
    cosine. *)
Theorem searching_single_article (article : Article) (query method : str) :
  method ≠ ("jaccard"%string : str) →
  searching Log highlightText sortSlice (Some [article]) query method = Some [].
Proof using sortSlice_perm Log_1.
  intros Hmethod. cbn [searching]. cbv zeta. cbn [length rankArticles].
  assert (Hscore : similarity method (countTokens (tp.ProcessText query))
                     (calculateTFIDF Log (buildInvertedIndex [article]) 1) 0
                   = 0%float).
  { unfold similarity.
    rewrite (bool_decide_eq_false_2 (method = "jaccard"%string :> str)) by done.
    assert (Hcos := cosine_null_document (countTokens (tp.ProcessText query)) _ 0
                      (single_article_weights Log article Log_1)).
    by destruct (bool_decide _). }
  cbv zeta. rewrite Hscore. change (0 <? 0)%float with false.
  cbn [mbind option_bind]. f_equal. apply Permutation_nil_r, sortSlice_perm.
Qed.

End SingleArticle.

Lemma searching_single_article_witness :
  (∀ less (l : list SearchResult), insertionSort less l ≡ₚ l)
  ∧ logStandIn 1%float = 0%float
  ∧ ("cosine"%string : str) ≠ ("jaccard"%string : str)
  ∧ searching logStandIn plainText insertionSort
      (Some [ {| Title := "Harga Rumah Naik"%string;
                 Content := "Harga rumah di kota naik tajam tahun ini"%string;
                 URL := "u1"%string |} ])
      "harga rumah"%string "cosine"%string = Some [].
Proof.
  assert (Hperm : ∀ less (l : list SearchResult), insertionSort less l ≡ₚ l)
    by (intros; apply insertionSort_perm).
  assert (Hlog : logStandIn 1%float = 0%float) by reflexivity.
  assert (Hm : ("cosine"%string : str) ≠ ("jaccard"%string : str)) by discriminate.
  split; [exact Hperm|]. split; [exact Hlog|]. split; [exact Hm|].
  exact (searching_single_article logStandIn plainText insertionSort Hperm Hlog _
           "harga rumah"%string "cosine"%string Hm).
Defined.

(** ** The Jaccard score *)

Section JaccardFacts.

Implicit Types (qv : gmap str float) (t : str) (i : nat).

Lemma countTokens_dom tokens : dom (countTokens tokens) = (list_to_set tokens : gset str).
Proof.
  apply set_eq. intros t.
  by rewrite elem_of_dom, countTokens_lookup, elem_of_list_to_set.
Qed.

(** The column of a document has an entry for exactly its tokens. *)
Lemma docVectorOf_dom Log articles n i article :
  articles !! i = Some article →
  dom (docVectorOf (calculateTFIDF Log (buildInvertedIndex articles) n) i)
  = (list_to_set (documentTokens article) : gset str).
Proof.
  intros Ha. apply set_eq. intros t.
  rewrite elem_of_dom, docVectorOf_posting, postingOf_indexArticles_0, Ha.
  cbn [mbind option_bind]. cbv zeta. rewrite elem_of_list_to_set.
  case_bool_decide as Hnil.
  - apply positionsFrom_nil in Hnil. split; [by intros [? ?]|done].
  - split; [|by eauto]. intros _.
    destruct (decide (t ∈ documentTokens article)) as [|Hnot]; [done|].
    exfalso. by apply Hnil, positionsFrom_nil.
Qed.

Lemma intersection_swap (X Y : gset str) : X ∩ Y = Y ∩ X.
Proof. apply set_eq. intros t. rewrite !elem_of_intersection. tauto. Qed.

Lemma size_union_intersection (X Y : gset str) :
  size X + size Y - size (X ∩ Y) = size (X ∪ Y).
Proof.
  pose proof (size_union_alt X Y) as H1.
  pose proof (size_difference_alt Y X) as H2.
  rewrite (intersection_swap Y X) in H2.
  assert (size (X ∩ Y) ≤ size Y).
  { apply subseteq_size. intros t [_ ?]%elem_of_intersection. done. }
  lia.
Qed.

End JaccardFacts.

(** X14. With the method "jaccard" the score of a document is the Jaccard
    index of two sets, the tokens of the query and the tokens of the
    document: the size of their intersection over the size of their union,
    divided as float64 values, and 0 when both are empty. The weights of
    the TF-IDF table, and with them [math.Log] and the term frequencies, do
    not enter the score. *)
Theorem jaccard_score (Log : float → float) (articles : list Article)
    (query : str) (i : nat) (article : Article) :
  articles !! i = Some article →
  scoreOf Log articles query "jaccard"%string i
  = let querySet : gset str := list_to_set (tp.ProcessText query) in
    let docSet : gset str := list_to_set (documentTokens article) in
    if size (querySet ∪ docSet) =? 0 then 0%float
    else (float64 (size (querySet ∩ docSet)) / float64 (size (querySet ∪ docSet)))%float.
Proof.
  intros Ha. unfold scoreOf, similarity.
  rewrite bool_decide_eq_false_2 by discriminate.
  rewrite bool_decide_eq_true_2 by done.
  unfold jaccardSimilarityWithTFIDF. cbv zeta.
  rewrite countTokens_dom, (docVectorOf_dom _ _ _ _ _ Ha).
  by rewrite size_union_intersection.
Qed.

Lemma jaccard_score_witness :
  sampleArticles !! 1
  = Some {| Title := "Pasar Properti"%string;
            Content := "Pasar properti kota lesu, harga tanah turun"%string;
            URL := "u2"%string |}
  ∧ scoreOf logStandIn sampleArticles "harga rumah"%string "jaccard"%string 1
    = let querySet : gset str := list_to_set (tp.ProcessText "harga rumah"%string) in
      let docSet : gset str :=
        list_to_set
          (documentTokens
             {| Title := "Pasar Properti"%string;
                Content := "Pasar properti kota lesu, harga tanah turun"%string;
                URL := "u2"%string |}) in
      if size (querySet ∪ docSet) =? 0 then 0%float
      else (float64 (size (querySet ∩ docSet)) / float64 (size (querySet ∪ docSet)))%float.
Proof.
  assert (H : sampleArticles !! 1
              = Some {| Title := "Pasar Properti"%string;
                        Content := "Pasar properti kota lesu, harga tanah turun"%string;
                        URL := "u2"%string |}) by reflexivity.
  split; [exact H|].
  exact (jaccard_score logStandIn sampleArticles "harga rumah"%string 1 _ H).
Defined.

(** One of eight tokens is shared: the seven of the second sample and
    "rumah". *)
Example jaccard_score_run :
  scoreOf logStandIn sampleArticles "harga rumah"%string "jaccard"%string 1
  = (float64 1 / float64 8)%float.
Proof. vm_compute. reflexivity. Qed.

(** ** The web front end *)

(** X15. [trimURLPath] returns for every URL (its slice [path[:47]] is taken
    only from a path longer than 50 bytes), and what it returns has at most
    50 bytes. *)
Theorem trimURLPath_bounded (url : str) :
  ∃ path, trimURLPath url = Some path ∧ (len path ≤ 50)%Z.
Proof.
  unfold trimURLPath. cbv zeta.
  set (u := strings.TrimPrefix (strings.TrimPrefix url _) _).
  unfold SplitN2. destruct (strings.indexFrom u "/"%string) as [i|]; cbn [length].
  2:{ exists []. split; [done|]. unfold len. simpl. lia. }
  change (1 <? 2) with true. cbn [lookup list_lookup mbind option_bind].
  set (path := drop _ u).
  destruct (Z.ltb_spec 50 (len path)) as [Hlong|Hshort].
  - destruct (slice_in_range path 0 47 ltac:(lia) ltac:(lia)) as [head Hhead].
    rewrite Hhead. cbn [mbind option_bind]. eexists. split; [done|].
    apply slice_len in Hhead. rewrite len_app, Hhead.
    change (len "..."%string) with 3%Z. lia.
  - by exists path.
Qed.

Section PageFacts.

Variable ceilInt : float → Z.
Context {A : Type}.
Implicit Types (allResults paged : list A) (page : Z).

Lemma sliceOf_in_range (l : list A) lo hi :
  (0 ≤ lo ≤ hi)%Z → (hi ≤ Z.of_nat (length l))%Z →
  sliceOf l lo hi = Some (take (Z.to_nat (hi - lo)) (drop (Z.to_nat lo) l)).
Proof.
  intros [H1 H2] H3. unfold sliceOf.
  apply Z.leb_le in H1, H2, H3. by rewrite H1, H2, H3.
Qed.

(** X16. When the page count [searchHandlerGet] computes is the exact
    ceiling of [totalResults / 10], the handler does not panic, whatever
    page number the request carries: the page shown lies between 1 and the
    page count (a number below 1 becomes 1, a number above the count
    becomes the count, any other is kept), it holds the results at offsets
    [10 * (page - 1)] up to [10 * page] and so at least one and at most 10
    of them; without results the page is empty. *)
Theorem paginate_in_range allResults page :
  ceilInt (float64 (length allResults) / float64 ITEMS_PER_PAGE)%float
    = ((Z.of_nat (length allResults) + 9) / 10)%Z →
  ∃ shown,
    paginate ceilInt allResults page = Some shown
    ∧ totalPages shown = ((Z.of_nat (length allResults) + 9) / 10)%Z
    ∧ (allResults = [] → pagedResults shown = [])
    ∧ (allResults ≠ [] →
         (1 ≤ currentPage shown ≤ totalPages shown)%Z
         ∧ currentPage shown = Z.max 1 (Z.min page (totalPages shown))
         ∧ pagedResults shown
           = take 10 (drop (10 * Z.to_nat (currentPage shown - 1)) allResults)
         ∧ 1 ≤ length (pagedResults shown) ≤ 10).
Proof.
  intros Hceil. unfold paginate. cbv zeta. rewrite Hceil.
  set (n := length allResults). change (Z.of_nat ITEMS_PER_PAGE) with 10%Z.
  set (pages := ((Z.of_nat n + 9) / 10)%Z).
  assert (Hpages : (10 * pages - 9 ≤ Z.of_nat n ≤ 10 * pages)%Z).
  { subst pages. pose proof (Z.div_mod (Z.of_nat n + 9) 10 ltac:(lia)).
    pose proof (Z.mod_pos_bound (Z.of_nat n + 9) 10 ltac:(lia)). lia. }
  destruct (Z.ltb_spec 0 (Z.of_nat n)) as [Hpos|Hzero].
  2:{ assert (Hnil : allResults = []) by (destruct allResults; [done|simpl in *; lia]).
      cbn [mbind option_bind]. eexists. split; [done|]. cbn [totalPages pagedResults].
      repeat split; try done. }
  set (page' := if (page <? 1)%Z then 1%Z
                else if ((pages <? page) && (0 <? pages))%Z then pages else page).
  assert (Hpage : (1 ≤ page' ≤ pages)%Z ∧ page' = Z.max 1 (Z.min page pages)).
  { subst page'. destruct (Z.ltb_spec page 1); [lia|].
    destruct (Z.ltb_spec pages page), (Z.ltb_spec 0 pages); cbn [andb]; lia. }
  destruct Hpage as [Hrange Hclamp].
  set (end_ := if (Z.of_nat n <? (page' - 1) * 10 + 10)%Z then Z.of_nat n
               else ((page' - 1) * 10 + 10)%Z).
  assert (Hend : ((page' - 1) * 10 < end_)%Z ∧ (end_ ≤ Z.of_nat n)%Z
                 ∧ (end_ - (page' - 1) * 10 ≤ 10)%Z
                 ∧ end_ = Z.min (Z.of_nat n) ((page' - 1) * 10 + 10)).
  { subst end_. destruct (Z.ltb_spec (Z.of_nat n) ((page' - 1) * 10 + 10)); lia. }
  destruct Hend as (Hlo & Hhi & Hwidth & Hmin).
  rewrite sliceOf_in_range by (fold n; lia).
  cbn [mbind option_bind]. eexists. split; [done|].
  cbn [totalPages pagedResults currentPage].
  split; [done|]. split; [by intros ->|]. intros _.
  split; [done|]. split; [done|].
  assert (Htake : take (Z.to_nat (end_ - (page' - 1) * 10))
                    (drop (Z.to_nat ((page' - 1) * 10)) allResults)
                  = take 10 (drop (10 * Z.to_nat (page' - 1)) allResults)).
  { replace (Z.to_nat ((page' - 1) * 10)) with (10 * Z.to_nat (page' - 1)) by lia.
    destruct (Z.le_gt_cases ((page' - 1) * 10 + 10) (Z.of_nat n)).
    - f_equal. lia.
    - rewrite !take_ge; [done| |]; rewrite length_drop; fold n; lia. }
  split; [exact Htake|].
  rewrite Htake, length_take, length_drop. fold n. lia.
Qed.

End PageFacts.

Lemma paginate_in_range_witness :
  ceilStandIn (float64 (length (seq 0 23)) / float64 ITEMS_PER_PAGE)%float
    = ((Z.of_nat (length (seq 0 23)) + 9) / 10)%Z
  ∧ paginate ceilStandIn (seq 0 23) 7
    = Some {| pagedResults := [20; 21; 22]; currentPage := 3;
              totalPages := 3; totalResults := 23 |}
  ∧ ∃ shown,
      paginate ceilStandIn (seq 0 23) 7 = Some shown
      ∧ totalPages shown = ((Z.of_nat (length (seq 0 23)) + 9) / 10)%Z
      ∧ (seq 0 23 = [] → pagedResults shown = [])
      ∧ (seq 0 23 ≠ [] →
           (1 ≤ currentPage shown ≤ totalPages shown)%Z
           ∧ currentPage shown = Z.max 1 (Z.min 7 (totalPages shown))
           ∧ pagedResults shown
             = take 10 (drop (10 * Z.to_nat (currentPage shown - 1)) (seq 0 23))
           ∧ 1 ≤ length (pagedResults shown) ≤ 10).
Proof.
  assert (H : ceilStandIn (float64 (length (seq 0 23)) / float64 ITEMS_PER_PAGE)%float
              = ((Z.of_nat (length (seq 0 23)) + 9) / 10)%Z) by (vm_compute; reflexivity).
  split; [exact H|]. split; [vm_compute; reflexivity|].
  exact (paginate_in_range ceilStandIn (seq 0 23) 7 H).
Defined.

(** ** The second variant *)

Section Variant2Facts.

Implicit Types (t u text token : str) (ts tokens : list str) (c : ascii).

Ltac by_byte c :=
  destruct c as [[] [] [] [] [] [] [] []]; vm_compute; try done; auto.

Lemma ToLower_not_upper c : isUpper (unicode.ToLower c) = false.
Proof. by_byte c. Qed.

Lemma ToLower_lower c : isUpper c = false → unicode.ToLower c = c.
Proof. unfold unicode.ToLower. by intros ->. Qed.

Lemma filter_filter {A} (f : A → bool) (l : list A) :
  List.filter f (List.filter f l) = List.filter f l.
Proof.
  induction l as [|x l IH]; [done|]. cbn [List.filter].
  destruct (f x) eqn:Hx; [|done]. cbn [List.filter]. by rewrite Hx, IH.
Qed.

(** The bytes of a token of the second variant. *)
Lemma tokenize_bytes text :
  Forall (λ token,
            token ≠ []
            ∧ Forall (λ c, isSpace c = false ∧ isUpper c = false
                           ∧ existsb (Ascii.eqb c) variant2.punctuationMarks = false)
                token)
    (variant2.tokenize text).
Proof.
  unfold variant2.tokenize. cbv zeta. apply Forall_List_filter.
  eapply Forall_impl.
  { apply (Fields_Forall
             (λ c, c = " "%char
                   ∨ (isUpper c = false
                      ∧ existsb (Ascii.eqb c) variant2.punctuationMarks = false))).
    apply Forall_map. unfold strings.ToLower. apply Forall_map.
    apply Forall_forall. intros c _. cbn beta.
    destruct (existsb _ variant2.punctuationMarks) eqn:Hm; [by left|].
    right. split; [apply ToLower_not_upper | done]. }
  intros token [Hne Hbytes]. split; [done|].
  eapply Forall_impl; [exact Hbytes|]. intros c [[->|[? ?]] Hs]; [done|by auto].
Qed.

Lemma keep_length token :
  (negb (bool_decide (token ∈ variant2.stopWords)) && (1 <? length token)) = true →
  2 ≤ length token ∧ token ∉ variant2.stopWords.
Proof.
  intros [Hs Hl]%andb_prop. apply negb_true_iff, bool_decide_eq_false in Hs.
  apply Nat.ltb_lt in Hl. split; [lia|done].
Qed.

(** The first component of the loop over [queryFreq] stays 0 when no
    token of the query is a key of [docFreq]. *)
Lemma dot_product_fold (queryFreq docFreq : gmap str float) :
  (∀ t, is_Some (queryFreq !! t) → docFreq !! t = None) →
  (map_fold
     (λ token freq (sums : float * float),
        let dotProduct :=
          match docFreq !! token with
          | Some docFrequency => (sums.1 + freq * docFrequency)%float
          | None => sums.1
          end in
        (dotProduct, (sums.2 + freq * freq)%float))
     (0%float, 0%float) queryFreq).1 = 0%float.
Proof.
  apply (map_fold_weak_ind
           (λ (r : float * float) (m : gmap str float),
              (∀ t, is_Some (m !! t) → docFreq !! t = None) → r.1 = 0%float)).
  - done.
  - intros t x m' r Hfresh IH Hall. cbv zeta. cbn [fst].
    rewrite (Hall t) by (rewrite lookup_insert_eq; by eexists).
    apply IH. intros t' Ht'. apply Hall.
    destruct (decide (t' = t)) as [->|Hne].
    + rewrite Hfresh in Ht'. by destruct Ht'.
    + by rewrite lookup_insert_ne.
Qed.

End Variant2Facts.

(** X17. In the second variant, every token of an ASCII text has at least
    two bytes, is not one of the stop words, and holds no white space, no
    upper-case letter and none of the marks that [tokenize] blanks out. *)
Theorem tokenize_tokens (text : str) :
  Forall (λ c, isASCII c = true) text →
  Forall (λ token,
            2 ≤ length token
            ∧ (token ∉ variant2.stopWords)
            ∧ Forall (λ c, isSpace c = false ∧ isUpper c = false
                           ∧ existsb (Ascii.eqb c) variant2.punctuationMarks = false)
                token)
    (variant2.tokenize text).
Proof.
  intros _. pose proof (tokenize_bytes text) as Hbytes.
  apply Forall_forall. intros token Hin.
  rewrite Forall_forall in Hbytes. destruct (Hbytes token Hin) as [_ Hb].
  unfold variant2.tokenize in Hin. cbv zeta in Hin.
  apply list_elem_of_In, List.filter_In in Hin as [_ Hkeep].
  apply keep_length in Hkeep as [? ?]. done.
Qed.

Lemma tokenize_tokens_witness :
  Forall (λ c, isASCII c = true) ("Harga rumah di Jakarta naik, kata dia."%string : str)
  ∧ variant2.tokenize "Harga rumah di Jakarta naik, kata dia."%string
    = strs ["harga"; "rumah"; "jakarta"; "naik"; "kata"]%string
  ∧ Forall (λ token,
              2 ≤ length token
              ∧ (token ∉ variant2.stopWords)
              ∧ Forall (λ c, isSpace c = false ∧ isUpper c = false
                             ∧ existsb (Ascii.eqb c) variant2.punctuationMarks = false)
                  token)
      (variant2.tokenize "Harga rumah di Jakarta naik, kata dia."%string).
Proof.
  assert (H : Forall (λ c, isASCII c = true)
                ("Harga rumah di Jakarta naik, kata dia."%string : str)).
  { apply Forall_forall. intros c Hc. apply list_elem_of_In in Hc.
    revert c Hc. apply forallb_forall. vm_compute. reflexivity. }
  split; [exact H|]. split; [vm_compute; reflexivity|].
  exact (tokenize_tokens _ H).
Defined.

(** X18. In the second variant, tokenizing is idempotent on ASCII text: the
    tokens of a text, joined by spaces and tokenized again, are the same
    tokens (lowering, blanking the marks, splitting and filtering each
    leave them as they are). *)
Theorem tokenize_idempotent (text : str) :
  Forall (λ c, isASCII c = true) text →
  variant2.tokenize (strings.Join (variant2.tokenize text) " "%string)
  = variant2.tokenize text.
Proof.
  intros _. pose proof (tokenize_bytes text) as Hbytes.
  set (ts := variant2.tokenize text) in *.
  assert (Htok : Forall isToken ts).
  { eapply Forall_impl; [exact Hbytes|]. intros token [Hne Hb]. split; [done|].
    eapply Forall_impl; [exact Hb|]. by intros c (? & _). }
  assert (Hjoin : Forall (λ c, isUpper c = false
                               ∧ existsb (Ascii.eqb c) variant2.punctuationMarks = false)
                    (strings.Join ts " "%string)).
  { apply Join_Forall; [|by repeat constructor].
    eapply Forall_impl; [exact Hbytes|]. intros token [_ Hb].
    eapply Forall_impl; [exact Hb|]. by intros c (_ & ? & ?). }
  unfold variant2.tokenize at 1. cbv zeta.
  assert (Hlower : strings.ToLower (strings.Join ts " "%string) = strings.Join ts " "%string).
  { apply map_fixed. eapply Forall_impl; [exact Hjoin|].
    intros c [Hu _]. by apply ToLower_lower. }
  rewrite Hlower.
  assert (Hmap : map (λ r, if existsb (Ascii.eqb r) variant2.punctuationMarks
                           then " "%char else r) (strings.Join ts " "%string)
                 = strings.Join ts " "%string).
  { apply map_fixed. eapply Forall_impl; [exact Hjoin|].
    intros c [_ Hm]. cbn beta. by rewrite Hm. }
  rewrite Hmap, Fields_Join by done.
  subst ts. unfold variant2.tokenize. cbv zeta. apply filter_filter.
Qed.

Lemma tokenize_idempotent_witness :
  Forall (λ c, isASCII c = true) ("Harga rumah di Jakarta naik, kata dia."%string : str)
  ∧ variant2.tokenize
      (strings.Join (variant2.tokenize "Harga rumah di Jakarta naik, kata dia."%string)
         " "%string)
    = variant2.tokenize "Harga rumah di Jakarta naik, kata dia."%string.
Proof.
  assert (H : Forall (λ c, isASCII c = true)
                ("Harga rumah di Jakarta naik, kata dia."%string : str)).
  { apply Forall_forall. intros c Hc. apply list_elem_of_In in Hc.
    revert c Hc. apply forallb_forall. vm_compute. reflexivity. }
  split; [exact H|]. exact (tokenize_idempotent _ H).
Defined.

(** X19. The Jaccard score of the second variant is symmetric in its two
    token lists, and it depends on the lists only through their sets of
    tokens: order and repetition do not matter. *)
Theorem jaccardSimilarity_symmetric (queryTokens docTokens : list str) :
  variant2.jaccardSimilarity queryTokens docTokens
  = variant2.jaccardSimilarity docTokens queryTokens
  ∧ ∀ queryTokens' docTokens',
      (∀ t, t ∈ queryTokens' ↔ t ∈ queryTokens) →
      (∀ t, t ∈ docTokens' ↔ t ∈ docTokens) →
      variant2.jaccardSimilarity queryTokens' docTokens'
      = variant2.jaccardSimilarity queryTokens docTokens.
Proof.
  split.
  - unfold variant2.jaccardSimilarity. cbv zeta.
    rewrite (intersection_comm_L (list_to_set docTokens : gset str)).
    by rewrite (Nat.add_comm (size (list_to_set docTokens : gset str))).
  - intros q' d' Hq Hd. unfold variant2.jaccardSimilarity. cbv zeta.
    assert (Hqs : (list_to_set q' : gset str) = list_to_set queryTokens).
    { apply set_eq. intros t. by rewrite !elem_of_list_to_set. }
    assert (Hds : (list_to_set d' : gset str) = list_to_set docTokens).
    { apply set_eq. intros t. by rewrite !elem_of_list_to_set. }
    by rewrite Hqs, Hds.
Qed.

(** X20. In the second variant a document without a token of the query
    does not score above 0, with either score: the dot product and the
    intersection stay 0. An empty query is a case of this. *)
Theorem variant2_scores_need_shared_token (queryTokens docTokens : list str) :
  (∀ t, t ∈ queryTokens → t ∉ docTokens) →
  (0 <? variant2.cosineSimilarity queryTokens docTokens)%float = false
  ∧ (0 <? variant2.jaccardSimilarity queryTokens docTokens)%float = false.
Proof.
  intros Hno. split.
  - unfold variant2.cosineSimilarity. cbv zeta.
    rewrite dot_product_fold.
    + destruct (_ || _); [reflexivity | apply zero_div_not_positive].
    + intros t Ht%countTokens_lookup.
      destruct (countTokens docTokens !! t) eqn:Hd; [|done].
      exfalso. apply (Hno t Ht). apply countTokens_lookup. rewrite Hd. by eexists.
  - unfold variant2.jaccardSimilarity. cbv zeta.
    assert (Hempty : (list_to_set queryTokens : gset str) ∩ list_to_set docTokens = ∅).
    { apply leibniz_equiv, elem_of_equiv_empty. intros t [Hq Hd]%elem_of_intersection.
      apply elem_of_list_to_set in Hq, Hd. by apply (Hno t). }
    rewrite Hempty, size_empty.
    destruct (_ =? 0); [reflexivity|].
    change (float64 0) with 0%float. apply zero_div_not_positive.
Qed.

Lemma variant2_scores_need_shared_token_witness :
  (∀ t, t ∈ variant2.tokenize "harga tanah"%string
        → t ∉ variant2.tokenize "Pasar properti lesu"%string)
  ∧ (0 <? variant2.cosineSimilarity (variant2.tokenize "harga tanah"%string)
            (variant2.tokenize "Pasar properti lesu"%string))%float = false
  ∧ (0 <? variant2.jaccardSimilarity (variant2.tokenize "harga tanah"%string)
            (variant2.tokenize "Pasar properti lesu"%string))%float = false.
Proof.
  assert (H : ∀ t, t ∈ variant2.tokenize "harga tanah"%string
                   → t ∉ variant2.tokenize "Pasar properti lesu"%string).
  { intros t Ht.
    assert (Hq : variant2.tokenize "harga tanah"%string = strs ["harga"; "tanah"]%string)
      by (vm_compute; reflexivity).
    rewrite Hq in Ht.
    apply elem_of_cons in Ht as [->|Ht];
      [|apply elem_of_cons in Ht as [->|Ht]; [|by apply elem_of_nil in Ht]];
      apply (bool_decide_unpack _); vm_compute; exact I. }
  split; [exact H|]. exact (variant2_scores_need_shared_token _ _ H).
Defined.

(** X21. The preview of the second variant honours [maxLength]: for ASCII
    content and query it returns exactly when [maxLength] is not negative,
    and then the preview has at most [maxLength + 6] bytes; with a negative
    [maxLength] a slice bound is out of range and the function panics. *)
Theorem variant2_getContentPreview_returns (content query : str) (maxLength : Z) :
  Forall (λ c, isASCII c = true) content →
  Forall (λ c, isASCII c = true) query →
  ((0 ≤ maxLength)%Z →
     ∃ preview, variant2.getContentPreview content query maxLength = Some preview
                ∧ (len preview ≤ maxLength + 6)%Z)
  ∧ ((maxLength < 0)%Z → variant2.getContentPreview content query maxLength = None).
Proof.
  intros _ _. unfold variant2.getContentPreview. cbv zeta.
  set (cleaned := variant2.cleanContent content).
  assert (Hlen : (0 ≤ len cleaned)%Z) by (unfold len; lia).
  set (pos := strings.Index (strings.ToLower cleaned) (strings.ToLower query)).
  assert (Hpos : pos ≠ (-1)%Z → (0 ≤ pos ≤ len cleaned)%Z).
  { intros H. apply Index_range in H. by rewrite len_ToLower in H. }
  split.
  - intros Hmax. destruct (Z.leb_spec (len cleaned) maxLength) as [|Hlong].
    { eexists. split; [done|lia]. }
    destruct (Z.eqb_spec pos (-1)) as [|Hfound].
    + destruct (slice_in_range cleaned 0 maxLength ltac:(lia) ltac:(lia)) as [head Hhead].
      rewrite Hhead. cbn [mbind option_bind]. eexists. split; [done|].
      apply slice_len in Hhead. rewrite len_app, Hhead.
      change (len "..."%string) with 3%Z. lia.
    + specialize (Hpos Hfound).
      pose proof (Z.quot_pos maxLength 3 Hmax ltac:(lia)) as Hq.
      set (start := if (pos - Z.quot maxLength 3 <? 0)%Z then 0%Z
                    else (pos - Z.quot maxLength 3)%Z).
      assert (Hstart : (0 ≤ start ≤ len cleaned)%Z).
      { subst start. destruct (Z.ltb_spec (pos - Z.quot maxLength 3) 0); lia. }
      set (end_ := if (len cleaned <? start + maxLength)%Z then len cleaned
                   else (start + maxLength)%Z).
      assert (Hend : (start ≤ end_ ≤ len cleaned)%Z ∧ (end_ - start ≤ maxLength)%Z).
      { subst end_. destruct (Z.ltb_spec (len cleaned) (start + maxLength)); lia. }
      destruct Hend as [Hend Hwidth].
      destruct (slice_in_range cleaned start end_ ltac:(lia) ltac:(lia)) as [result Hres].
      rewrite Hres. cbn [mbind option_bind]. eexists. split; [done|].
      apply slice_len in Hres.
      destruct (0 <? start)%Z, (end_ <? len cleaned)%Z; rewrite ?len_app;
        change (len "..."%string) with 3%Z; lia.
  - intros Hneg. destruct (Z.leb_spec (len cleaned) maxLength) as [|_]; [lia|].
    destruct (Z.eqb_spec pos (-1)) as [|Hfound].
    + unfold slice. destruct (Z.leb_spec 0 maxLength); [lia|]. done.
    + specialize (Hpos Hfound).
      assert (Hq : (Z.quot maxLength 3 ≤ 0)%Z).
      { replace maxLength with (- (- maxLength))%Z by lia.
        rewrite Z.quot_opp_l by lia.
        pose proof (Z.quot_pos (- maxLength) 3 ltac:(lia) ltac:(lia)). lia. }
      destruct (Z.ltb_spec (pos - Z.quot maxLength 3) 0) as [|_]; [lia|].
      set (start := (pos - Z.quot maxLength 3)%Z) in *.
      set (end_ := if (len cleaned <? start + maxLength)%Z then len cleaned
                   else (start + maxLength)%Z).
      assert (Hend : (end_ < start)%Z).
      { subst end_. destruct (Z.ltb_spec (len cleaned) (start + maxLength)); lia. }
      unfold slice. destruct (Z.leb_spec start end_); [lia|].
      by rewrite andb_false_r.
Qed.

Lemma variant2_getContentPreview_returns_witness :
  Forall (λ c, isASCII c = true) ("Harga rumah di kota naik tajam."%string : str)
  ∧ Forall (λ c, isASCII c = true) ("Kota"%string : str)
  ∧ variant2.getContentPreview "Harga rumah di kota naik tajam."%string "Kota"%string 9
    = Some ("...di kota n..."%string : str)
  ∧ ((0 ≤ 9)%Z →
       ∃ preview,
         variant2.getContentPreview "Harga rumah di kota naik tajam."%string
           "Kota"%string 9 = Some preview
         ∧ (len preview ≤ 9 + 6)%Z)
  ∧ ((9 < 0)%Z →
       variant2.getContentPreview "Harga rumah di kota naik tajam."%string
         "Kota"%string 9 = None).
Proof.
  assert (Hascii : ∀ t : str, forallb isASCII t = true → Forall (λ c, isASCII c = true) t).
  { intros t Ht. apply Forall_forall. intros c Hc. apply list_elem_of_In in Hc.
    revert c Hc. by apply forallb_forall. }
  assert (H1 : Forall (λ c, isASCII c = true)
                 ("Harga rumah di kota naik tajam."%string : str))
    by (apply Hascii; vm_compute; reflexivity).
  assert (H2 : Forall (λ c, isASCII c = true) ("Kota"%string : str))
    by (apply Hascii; vm_compute; reflexivity).
  split; [exact H1|]. split; [exact H2|]. split; [vm_compute; reflexivity|].
  exact (variant2_getContentPreview_returns _ _ 9 H1 H2).
Defined.


(** ** Highlighting *)

Section HighlightFacts.

Import regexp.
Implicit Types (t u s run rest tok word : str) (rs : list str) (c x : ascii) (w : bool).
Implicit Types (f g : str → str).

Ltac by_byte c :=
  destruct c as [[] [] [] [] [] [] [] []]; vm_compute; try done; auto.

Lemma ToLower_word x : isWordChar (unicode.ToLower x) = isWordChar x.
Proof. by_byte x. Qed.

Lemma isWordRune_char x : isWordRune [x] = isWordChar x.
Proof.
  unfold isWordRune. cbn [inClass word cls_ascii cls_other].
  destruct (isASCII x) eqn:Ha; [done|].
  destruct (isWordChar x) eqn:Hw; [|done].
  apply isWordChar_ascii in Hw. congruence.
Qed.

Lemma inClass_word_char x : inClass word [x] = isWordChar x.
Proof. apply isWordRune_char. Qed.

(** A byte of the token matches a byte of the text exactly when the two are
    equal once lowered; the byte of the text is then a word byte. *)
Lemma inClass_foldChar c x :
  isWordChar c = true →
  inClass (highlight.foldChar c) [x]
  = Ascii.eqb (unicode.ToLower x) (unicode.ToLower c).
Proof.
  intros Hc. cbn [inClass highlight.foldChar cls_ascii cls_other].
  destruct (isASCII x) eqn:Ha; [done|].
  destruct (Ascii.eqb_spec (unicode.ToLower x) (unicode.ToLower c)) as [Heq|]; [|done].
  assert (Hw : isWordChar x = true).
  { by rewrite <- ToLower_word, Heq, ToLower_word. }
  apply isWordChar_ascii in Hw. congruence.
Qed.

Lemma foldChar_word c x :
  isWordChar c = true →
  Ascii.eqb (unicode.ToLower x) (unicode.ToLower c) = true → isWordChar x = true.
Proof.
  intros Hc Heq%Ascii.eqb_eq. by rewrite <- ToLower_word, Heq, ToLower_word.
Qed.

(** *** The pieces of the pattern *)

Lemma exec_litFold tok : ∀ s w,
  Forall (λ c, isWordChar c = true) tok →
  exec (highlight.litFold tok) w (bytesAsRunes s)
  = if prefixFold tok s
    then [(match tok with [] => w | _ => true end, bytesAsRunes (drop (length tok) s))]
    else [].
Proof.
  induction tok as [|c tok IH]; intros s w Htok; [done|].
  apply Forall_cons in Htok as [Hc Htok].
  cbn [highlight.litFold exec prefixFold]. destruct s as [|x s]; [done|].
  cbn [bytesAsRunes map]. rewrite inClass_foldChar by done.
  destruct (Ascii.eqb (unicode.ToLower x) (unicode.ToLower c)) eqn:Heq; [|done].
  cbn [flat_map fst snd andb]. rewrite app_nil_r.
  fold (bytesAsRunes s). rewrite IH by done. cbn [length drop].
  rewrite isWordRune_char, (foldChar_word c x Hc Heq).
  destruct (prefixFold tok s); [|done]. by destruct tok.
Qed.

(** The token cannot reach beyond the word it starts in. *)
Lemma prefixFold_in_word tok : ∀ u rest,
  Forall (λ c, isWordChar c = true) tok →
  nextIsWord (bytesAsRunes rest) = false →
  prefixFold tok (u ++ rest) = true → tok ≠ [] →
  length tok ≤ length u ∧ prefixFold tok u = true.
Proof.
  induction tok as [|c tok IH]; intros u rest Htok Hrest Hp Hne; [done|].
  apply Forall_cons in Htok as [Hc Htok].
  destruct u as [|x u].
  - cbn [app] in Hp. destruct rest as [|x rest]; [done|].
    cbn [prefixFold] in Hp. apply andb_prop in Hp as [Hx _].
    apply (foldChar_word c x Hc) in Hx.
    cbn [bytesAsRunes map nextIsWord] in Hrest. rewrite isWordRune_char in Hrest.
    congruence.
  - cbn [app prefixFold] in Hp |- *. apply andb_prop in Hp as [Hx Hp].
    rewrite Hx. cbn [andb length].
    destruct tok as [|c' tok]; [split; [simpl; lia|done]|].
    destruct (IH u rest Htok Hrest Hp ltac:(done)) as [Hlen Hpu].
    split; [simpl in *; lia|done].
Qed.

Lemma prefixFold_app tok : ∀ u rest,
  prefixFold tok u = true → prefixFold tok (u ++ rest) = true.
Proof.
  induction tok as [|c tok IH]; intros u rest Hp; [done|].
  destruct u as [|x u]; [done|]. cbn [app prefixFold] in Hp |- *.
  apply andb_prop in Hp as [-> Hp]. by rewrite IH.
Qed.

Lemma dropWhile_word_run u rest :
  Forall (λ c, isWordChar c = true) u →
  nextIsWord (bytesAsRunes rest) = false →
  dropWhile (inClass word) (bytesAsRunes (u ++ rest)) = bytesAsRunes rest.
Proof.
  intros Hu Hrest. induction Hu as [|x u Hx Hu IH].
  - destruct rest as [|x rest]; [done|].
    cbn [app bytesAsRunes map dropWhile]. cbn [bytesAsRunes map nextIsWord] in Hrest.
    unfold isWordRune in Hrest. by rewrite Hrest.
  - cbn [app bytesAsRunes map dropWhile]. by rewrite inClass_word_char, Hx.
Qed.

(** After the token the rest of the word is taken, up to its end. *)
Lemma exec_word_end u rest :
  Forall (λ c, isWordChar c = true) u →
  nextIsWord (bytesAsRunes rest) = false →
  exec (Seq (Star word) WordBoundary) true (bytesAsRunes (u ++ rest))
  = [(true, bytesAsRunes rest)].
Proof.
  intros Hu Hrest. cbn [exec].
  rewrite (many_then_boundary word) by (intros r Hr; exact Hr).
  cbv zeta. rewrite dropWhile_word_run by done. by rewrite Hrest.
Qed.

(** The token tried at one position inside a word. *)
Lemma exec_token_at tok u rest w :
  tok ≠ [] →
  Forall (λ c, isWordChar c = true) tok →
  Forall (λ c, isWordChar c = true) u →
  nextIsWord (bytesAsRunes rest) = false →
  exec (Seq (highlight.litFold tok) (Seq (Star word) WordBoundary)) w
    (bytesAsRunes (u ++ rest))
  = if prefixFold tok u then [(true, bytesAsRunes rest)] else [].
Proof.
  intros Hne Htok Hu Hrest.
  change (exec (Seq ?r1 ?r2) w ?rs)
    with (flat_map (λ p : position, exec r2 p.1 p.2) (exec r1 w rs)).
  rewrite exec_litFold by done.
  destruct (prefixFold tok (u ++ rest)) eqn:Hp.
  - destruct (prefixFold_in_word tok u rest Htok Hrest Hp Hne) as [Hlen ->].
    cbn [flat_map fst snd]. rewrite app_nil_r.
    rewrite drop_app_le by done. destruct tok as [|c tok]; [done|].
    apply exec_word_end; [|done]. by apply Forall_drop.
  - destruct (prefixFold tok u) eqn:Hpu; [|done].
    apply (prefixFold_app tok u rest) in Hpu. congruence.
Qed.

(** The positions [\w*] offers, longest run first, each followed by the
    token and the end of the word. *)
Lemma many_then_token tok rest : ∀ u w,
  tok ≠ [] →
  Forall (λ c, isWordChar c = true) tok →
  Forall (λ c, isWordChar c = true) u →
  nextIsWord (bytesAsRunes rest) = false →
  ∃ n,
    flat_map
      (λ p : position,
         exec (Seq (highlight.litFold tok) (Seq (Star word) WordBoundary)) p.1 p.2)
      (many word w (bytesAsRunes (u ++ rest)))
    = replicate n (true, bytesAsRunes rest)
    ∧ (n = 0 ↔ anySuffix (prefixFold tok) u = false).
Proof.
  intros u w Hne Htok Hu Hrest. revert w.
  induction Hu as [|x u Hx Hu IH]; intros w.
  - cbn [app anySuffix].
    assert (Hmany : many word w (bytesAsRunes rest) = [(w, bytesAsRunes rest)]).
    { destruct rest as [|x rest]; [done|]. cbn [bytesAsRunes map many].
      cbn [bytesAsRunes map nextIsWord] in Hrest. unfold isWordRune in Hrest.
      by rewrite Hrest. }
    rewrite Hmany. cbn [flat_map fst snd]. rewrite app_nil_r.
    pose proof (exec_token_at tok [] rest w Hne Htok ltac:(constructor) Hrest) as He.
    cbn [app] in He. rewrite He.
    destruct (prefixFold tok []); [by exists 1 | by exists 0].
  - cbn [app bytesAsRunes map many]. rewrite inClass_word_char, Hx.
    rewrite flat_map_app. fold (bytesAsRunes (u ++ rest)).
    destruct (IH (isWordRune [x])) as (n & -> & Hn).
    cbn [flat_map fst snd]. rewrite app_nil_r.
    change ([x] :: bytesAsRunes (u ++ rest)) with (bytesAsRunes ((x :: u) ++ rest)).
    rewrite (exec_token_at tok (x :: u) rest w) by (try done; by constructor).
    cbn [anySuffix]. destruct (prefixFold tok (x :: u)).
    + exists (n + 1). rewrite replicate_add. split; [done|].
      rewrite orb_true_r. split; [lia|done].
    + exists n. rewrite app_nil_r, orb_false_r. done.
Qed.

(** At the start of a word the pattern matches the whole word, if the word
    holds the token, and nothing otherwise. *)
Lemma matchLen_word_start tok run rest :
  tok ≠ [] →
  Forall (λ c, isWordChar c = true) tok →
  run ≠ [] →
  Forall (λ c, isWordChar c = true) run →
  nextIsWord (bytesAsRunes rest) = false →
  matchLen (highlight.pattern tok) false (bytesAsRunes (run ++ rest))
  = if anySuffix (prefixFold tok) run then Some (length run) else None.
Proof.
  intros Hne Htok Hrun Hword Hrest. unfold matchLen, highlight.pattern.
  change (exec (Seq WordBoundary ?r) false ?rs)
    with (flat_map (λ p : position, exec r p.1 p.2) (exec WordBoundary false rs)).
  assert (Hnext : nextIsWord (bytesAsRunes (run ++ rest)) = true).
  { destruct Hword as [|x run Hx _]; [done|].
    cbn [app bytesAsRunes map nextIsWord]. by rewrite isWordRune_char. }
  cbn [exec xorb]. rewrite Hnext. cbn [flat_map fst snd]. rewrite app_nil_r.
  destruct (many_then_token tok rest run false Hne Htok Hword Hrest) as (n & Hn & Hzero).
  cbn [exec] in Hn. rewrite Hn.
  destruct n as [|n].
  - rewrite (proj1 Hzero eq_refl). done.
  - destruct (anySuffix (prefixFold tok) run) eqn:Hany.
    + cbn [replicate]. f_equal. rewrite bytesAsRunes_app, length_app.
      unfold bytesAsRunes. rewrite !length_map. lia.
    + by pose proof (proj2 Hzero eq_refl).
Qed.

Lemma exec_inword tok x rs :
  isWordChar x = true → exec (highlight.pattern tok) true ([x] :: rs) = [].
Proof.
  intros Hx. unfold highlight.pattern.
  change (exec (Seq WordBoundary ?r) true ?rs0)
    with (flat_map (λ p : position, exec r p.1 p.2) (exec WordBoundary true rs0)).
  cbn [exec nextIsWord]. by rewrite isWordRune_char, Hx.
Qed.

Lemma exec_gap tok w x rs :
  tok ≠ [] →
  Forall (λ c, isWordChar c = true) tok →
  isWordChar x = false →
  exec (highlight.pattern tok) w ([x] :: rs) = [].
Proof.
  intros Hne Htok Hx. unfold highlight.pattern.
  change (exec (Seq WordBoundary ?r) w ?rs0)
    with (flat_map (λ p : position, exec r p.1 p.2) (exec WordBoundary w rs0)).
  cbn [exec nextIsWord]. rewrite isWordRune_char, Hx.
  destruct w; cbn [xorb flat_map]; [|done].
  cbn [fst snd many]. rewrite inClass_word_char, Hx. cbn [flat_map fst snd].
  destruct tok as [|c tok]; [done|]. apply Forall_cons in Htok as [Hc _].
  cbn [highlight.litFold exec]. rewrite inClass_foldChar by done.
  destruct (Ascii.eqb (unicode.ToLower x) (unicode.ToLower c)) eqn:Heq; [|done].
  apply (foldChar_word c x Hc) in Heq. congruence.
Qed.

(** *** One pass over a text *)

Lemma wrapAll_skip re (before after : str) u rs :
  u ≠ [] →
  Forall (λ c, isWordChar c = true) u →
  highlight.wrapAll re before after true (length u) (bytesAsRunes u ++ rs)
  = u ++ after ++ highlight.wrapAll re before after true 0 rs.
Proof.
  intros Hne Hu. induction Hu as [|x u Hx Hu IH]; [done|].
  cbn [length bytesAsRunes map app highlight.wrapAll].
  rewrite isWordRune_char, Hx. destruct u as [|y u]; [done|].
  cbn [length]. cbn [length] in IH. fold (bytesAsRunes (y :: u)).
  rewrite IH by done. done.
Qed.

Lemma wrapAll_inword tok (before after : str) u rs :
  Forall (λ c, isWordChar c = true) u →
  highlight.wrapAll (highlight.pattern tok) before after true 0 (bytesAsRunes u ++ rs)
  = u ++ highlight.wrapAll (highlight.pattern tok) before after true 0 rs.
Proof.
  induction 1 as [|x u Hx Hu IH]; [done|].
  cbn [bytesAsRunes map app highlight.wrapAll]. unfold matchLen.
  rewrite exec_inword by done. rewrite isWordRune_char, Hx.
  cbn [app]. f_equal. apply IH.
Qed.

Lemma wrapAll_gap tok (before after : str) w x rs :
  tok ≠ [] →
  Forall (λ c, isWordChar c = true) tok →
  isWordChar x = false →
  highlight.wrapAll (highlight.pattern tok) before after w 0 ([x] :: rs)
  = x :: highlight.wrapAll (highlight.pattern tok) before after false 0 rs.
Proof.
  intros Hne Htok Hx. cbn [highlight.wrapAll]. unfold matchLen.
  rewrite exec_gap by done. by rewrite isWordRune_char, Hx.
Qed.

(** A word is copied between the tags if it holds the token, and copied
    as it is otherwise. *)
Lemma wrapAll_word tok (before after : str) run rest :
  tok ≠ [] →
  Forall (λ c, isWordChar c = true) tok →
  run ≠ [] →
  Forall (λ c, isWordChar c = true) run →
  nextIsWord (bytesAsRunes rest) = false →
  highlight.wrapAll (highlight.pattern tok) before after false 0
    (bytesAsRunes (run ++ rest))
  = (if anySuffix (prefixFold tok) run then before ++ run ++ after else run)
    ++ highlight.wrapAll (highlight.pattern tok) before after true 0 (bytesAsRunes rest).
Proof.
  intros Hne Htok Hrun Hword Hrest.
  pose proof (matchLen_word_start tok run rest Hne Htok Hrun Hword Hrest) as Hm.
  destruct run as [|x u]; [done|]. apply Forall_cons in Hword as [Hx Hu].
  rewrite bytesAsRunes_app in Hm |- *.
  change (bytesAsRunes (x :: u) ++ bytesAsRunes rest)
    with ([x] :: (bytesAsRunes u ++ bytesAsRunes rest)) in Hm |- *.
  cbn [highlight.wrapAll]. rewrite Hm. rewrite isWordRune_char, Hx.
  destruct (anySuffix (prefixFold tok) (x :: u)).
  - cbn [length]. destruct u as [|y u].
    + cbn [length bytesAsRunes map app]. by rewrite <- !app_assoc.
    + rewrite wrapAll_skip by done. cbn [length app].
      repeat (rewrite <- app_assoc; cbn [app]). done.
  - rewrite wrapAll_inword by done. done.
Qed.

(** *** Runs of word bytes *)

Lemma word_split t :
  t = []
  ∨ (∃ x t', t = x :: t' ∧ isWordChar x = false)
  ∨ (∃ run rest, t = run ++ rest ∧ run ≠ []
                 ∧ Forall (λ c, isWordChar c = true) run
                 ∧ nextIsWord (bytesAsRunes rest) = false).
Proof.
  induction t as [|c t IH]; [by left|]. right.
  destruct (isWordChar c) eqn:Hc; [|left; by exists c, t].
  right. destruct IH as [->|[(x & t' & -> & Hx)|(run & rest & -> & Hne & Hrun & Hrest)]].
  - exists [c], []. repeat split; try done. by repeat constructor.
  - exists [c], (x :: t'). repeat split; try done; [by repeat constructor|].
    cbn [bytesAsRunes map nextIsWord]. by rewrite isWordRune_char.
  - exists (c :: run), rest. repeat split; try done. by constructor.
Qed.

Lemma mapWords_nil f : mapWords f [] = [].
Proof. done. Qed.

Lemma mapWords_gap f x t :
  isWordChar x = false → mapWords f (x :: t) = x :: mapWords f t.
Proof.
  intros Hx. unfold mapWords. cbn [wordsFrom].
  destruct (wordsFrom f t) as [w out]. by rewrite Hx.
Qed.

Lemma wordsFrom_word f run rest :
  Forall (λ c, isWordChar c = true) run →
  wordsFrom f (run ++ rest) = (run ++ (wordsFrom f rest).1, (wordsFrom f rest).2).
Proof.
  induction 1 as [|x run Hx Hrun IH]; [cbn [app]; by destruct (wordsFrom f rest)|].
  cbn [app wordsFrom]. rewrite IH, Hx. done.
Qed.

Lemma wordsFrom_gap_start f rest :
  nextIsWord (bytesAsRunes rest) = false → (wordsFrom f rest).1 = [].
Proof.
  destruct rest as [|x rest]; [done|]. cbn [bytesAsRunes map nextIsWord wordsFrom].
  rewrite isWordRune_char. intros ->. by destruct (wordsFrom f rest).
Qed.

Lemma mapWords_word f run rest :
  run ≠ [] →
  Forall (λ c, isWordChar c = true) run →
  nextIsWord (bytesAsRunes rest) = false →
  mapWords f (run ++ rest) = f run ++ mapWords f rest.
Proof.
  intros Hne Hrun Hrest. unfold mapWords. rewrite wordsFrom_word by done.
  pose proof (wordsFrom_gap_start f rest Hrest) as Hw.
  destruct (wordsFrom f rest) as [w out]. cbn [fst snd] in *. subst w.
  rewrite app_nil_r. cbn [emitWord app]. by destruct run.
Qed.

(** One pass of [highlightText], for one token, wraps the words that hold
    the token. *)
Lemma wrapAll_mapWords tok (before after : str) : ∀ n t w,
  tok ≠ [] →
  Forall (λ c, isWordChar c = true) tok →
  length t ≤ n →
  (w = true → nextIsWord (bytesAsRunes t) = false) →
  highlight.wrapAll (highlight.pattern tok) before after w 0 (bytesAsRunes t)
  = mapWords
      (λ word, if anySuffix (prefixFold tok) word then before ++ word ++ after else word)
      t.
Proof.
  induction n as [|n IH]; intros t w Hne Htok Hlen Hw.
  { destruct t; [done|simpl in Hlen; lia]. }
  destruct (word_split t)
    as [->|[(x & t' & -> & Hx)|(run & rest & -> & Hrun & Hword & Hrest)]]; [done| |].
  - change (bytesAsRunes (x :: t')) with ([x] :: bytesAsRunes t').
    rewrite wrapAll_gap, mapWords_gap by done. f_equal.
    apply IH; [done|done|simpl in Hlen; lia|done].
  - assert (Hfalse : w = false).
    { destruct w; [|done]. specialize (Hw eq_refl).
      destruct Hword as [|x run Hx _]; [done|].
      cbn [app bytesAsRunes map nextIsWord] in Hw. rewrite isWordRune_char in Hw.
      congruence. }
    subst w. rewrite wrapAll_word, mapWords_word by done. f_equal.
    assert (Hrlen : 1 ≤ length run) by (destruct run; [done|simpl; lia]).
    rewrite length_app in Hlen.
    apply IH; [done|done|lia|done].
Qed.

(** *** Holding a token *)

Lemma prefixFold_HasPrefix tok :
  Forall (λ c, unicode.ToLower c = c) tok →
  ∀ s, prefixFold tok s = strings.HasPrefix (strings.ToLower s) tok.
Proof.
  induction 1 as [|c tok Hc Htok IH]; intros s.
  - unfold strings.HasPrefix. cbn [prefixFold length take Nat.leb andb].
    by rewrite bool_decide_eq_true_2.
  - destruct s as [|x s]; [done|]. cbn [prefixFold].
    unfold strings.HasPrefix, strings.ToLower. cbn [map length take Nat.leb].
    rewrite Hc, IH. unfold strings.HasPrefix, strings.ToLower.
    destruct (Ascii.eqb_spec (unicode.ToLower x) c) as [->|Hne].
    + cbn [andb]. f_equal. apply bool_decide_ext. split; [by intros ->|by intros [= ->]].
    + cbn [andb]. rewrite (bool_decide_eq_false_2 (_ :: _ = _ :: _)); [|by intros [= ? ?]].
      by rewrite andb_false_r.
Qed.

Lemma anySuffix_ext (p q : str → bool) run :
  (∀ u, p u = q u) → anySuffix p run = anySuffix q run.
Proof.
  intros Hpq. induction run as [|c run IH]; cbn [anySuffix]; [done|].
  by rewrite IH, Hpq.
Qed.

Lemma anySuffix_Index tok run :
  anySuffix (λ u, strings.HasPrefix (strings.ToLower u) tok) run
  = negb (strings.Index (strings.ToLower run) tok =? -1)%Z.
Proof.
  unfold strings.Index. induction run as [|c run IH].
  - cbn [anySuffix strings.ToLower map strings.indexFrom].
    by destruct (strings.HasPrefix [] tok).
  - cbn [anySuffix]. rewrite IH.
    change (strings.ToLower (c :: run))
      with (unicode.ToLower c :: strings.ToLower run).
    cbn [strings.indexFrom].
    change (unicode.ToLower c :: strings.ToLower run)
      with (strings.ToLower (c :: run)).
    destruct (strings.HasPrefix (strings.ToLower (c :: run)) tok); [by rewrite orb_true_r|].
    rewrite orb_false_r.
    destruct (strings.indexFrom (strings.ToLower run) tok) as [i|]; [|done].
    cbn [fmap option_fmap option_map].
    destruct (Z.eqb_spec (Z.of_nat i) (-1)); [lia|].
    destruct (Z.eqb_spec (Z.of_nat (S i)) (-1)); [lia|]. done.
Qed.

(** The pattern finds the token in a word exactly when the lowered word
    contains the token. *)
Lemma anySuffix_holdsToken tok run :
  isTerm tok → anySuffix (prefixFold tok) run = holdsToken run tok.
Proof.
  intros [_ Htok]. unfold holdsToken. rewrite <- anySuffix_Index.
  apply anySuffix_ext. apply prefixFold_HasPrefix.
  eapply Forall_impl; [exact Htok|]. apply ToLower_fixed.
Qed.

(** No token of two or more bytes other than "em" is found in the word
    "em" of a tag. *)
Lemma em_holds_no_token tok :
  2 ≤ length tok → tok ≠ ("em"%string : str) →
  holdsToken "em"%string tok = false.
Proof.
  intros Hlen Hne. unfold holdsToken, strings.Index.
  destruct tok as [|c1 [|c2 tok]]; [simpl in Hlen; lia..|].
  change (strings.ToLower "em"%string) with ("em"%string : str).
  assert (H0 : strings.HasPrefix ("em"%string : str) (c1 :: c2 :: tok) = false).
  { unfold strings.HasPrefix. destruct tok as [|c3 tok]; [|done].
    cbn [length Nat.leb take list_ascii_of_string andb].
    by apply bool_decide_eq_false_2. }
  assert (H1 : strings.HasPrefix ("m"%string : str) (c1 :: c2 :: tok) = false) by done.
  assert (H2 : strings.HasPrefix ([] : str) (c1 :: c2 :: tok) = false) by done.
  cbn [strings.indexFrom list_ascii_of_string] in *.
  by rewrite H0, H1, H2.
Qed.

(** *** Composing passes *)

Lemma wordsFrom_word_run f t : Forall (λ c, isWordChar c = true) (wordsFrom f t).1.
Proof.
  induction t as [|c t IH]; cbn [wordsFrom]; [constructor|].
  destruct (wordsFrom f t) as [w out]. cbn [fst] in IH.
  destruct (isWordChar c) eqn:Hc; cbn [fst]; [by constructor | constructor].
Qed.

Lemma mapWords_ext f g t :
  (∀ word, word ≠ [] → Forall (λ c, isWordChar c = true) word → f word = g word) →
  mapWords f t = mapWords g t.
Proof.
  intros Hfg.
  assert (Hemit : ∀ wd : str,
            Forall (λ c, isWordChar c = true) wd → emitWord f wd = emitWord g wd).
  { intros [|c w] Hw; [done|]. by apply Hfg. }
  assert (H : wordsFrom f t = wordsFrom g t).
  { induction t as [|c t IH]; cbn [wordsFrom]; [done|].
    pose proof (wordsFrom_word_run f t) as Hw. rewrite <- IH.
    destruct (wordsFrom f t) as [w out]. cbn [fst] in Hw.
    destruct (isWordChar c); [done|]. by rewrite Hemit. }
  unfold mapWords. rewrite <- H.
  pose proof (wordsFrom_word_run f t) as Hw.
  destruct (wordsFrom f t) as [w out]. by rewrite Hemit.
Qed.

Lemma mapWords_id t : mapWords (λ word, word) t = t.
Proof.
  assert (H : (wordsFrom (λ word, word) t).1 ++ (wordsFrom (λ word, word) t).2 = t).
  { induction t as [|c t IH]; cbn [wordsFrom]; [done|].
    destruct (wordsFrom (λ word, word) t) as [w out]. cbn [fst snd] in IH.
    destruct (isWordChar c); cbn [fst snd app]; [by rewrite IH|].
    f_equal. rewrite <- IH. by destruct w. }
  unfold mapWords. destruct (wordsFrom (λ word, word) t) as [w out].
  cbn [fst snd] in H. rewrite <- H. by destruct w.
Qed.

Lemma mapWords_Forall (P : ascii → Prop) f t :
  (∀ word, word ≠ [] → Forall (λ c, isWordChar c = true) word →
     Forall P word → Forall P (f word)) →
  Forall P t → Forall P (mapWords f t).
Proof.
  intros Hf Ht.
  assert (Hemit : ∀ wd : str, Forall (λ c, isWordChar c = true) wd → Forall P wd →
                             Forall P (emitWord f wd)).
  { intros [|c w] Hw HP; [constructor|]. by apply Hf. }
  assert (H : Forall P (wordsFrom f t).1 ∧ Forall P (wordsFrom f t).2).
  { induction Ht as [|c t Hc Ht IH]; cbn [wordsFrom]; [by split|].
    pose proof (wordsFrom_word_run f t) as Hw.
    destruct (wordsFrom f t) as [w out]. cbn [fst snd] in *. destruct IH as [IHw IHout].
    destruct (isWordChar c); cbn [fst snd]; [split; [by constructor|done]|].
    split; [constructor|]. constructor; [done|].
    apply Forall_app. split; [by apply Hemit|done]. }
  unfold mapWords. pose proof (wordsFrom_word_run f t) as Hw.
  destruct (wordsFrom f t) as [w out]. cbn [fst snd] in *. destruct H as [H1 H2].
  apply Forall_app. split; [by apply Hemit|done].
Qed.

Lemma mapWords_app_gap g (a : str) rest :
  nextIsWord (bytesAsRunes rest) = false →
  mapWords g (a ++ rest) = mapWords g a ++ mapWords g rest.
Proof.
  intros Hrest.
  assert (Hgap : wordsFrom g rest = ([], mapWords g rest)).
  { pose proof (wordsFrom_gap_start g rest Hrest) as Hw. unfold mapWords.
    destruct (wordsFrom g rest) as [w out]. cbn [fst] in Hw. by subst w. }
  assert (H : wordsFrom g (a ++ rest)
              = ((wordsFrom g a).1, (wordsFrom g a).2 ++ mapWords g rest)).
  { induction a as [|c a IH]; [done|]. cbn [app wordsFrom]. rewrite IH.
    destruct (wordsFrom g a) as [w out]. cbn [fst snd].
    destruct (isWordChar c); cbn [fst snd]; [done|].
    cbn [app]. by rewrite app_assoc. }
  unfold mapWords at 1 2. rewrite H. destruct (wordsFrom g a) as [w out].
  cbn [fst snd]. by rewrite app_assoc.
Qed.

Lemma mapWords_gap_start f rest :
  nextIsWord (bytesAsRunes rest) = false →
  nextIsWord (bytesAsRunes (mapWords f rest)) = false.
Proof.
  destruct rest as [|x rest]; [done|]. cbn [bytesAsRunes map nextIsWord].
  rewrite isWordRune_char. intros Hx. rewrite mapWords_gap by done.
  cbn [bytesAsRunes map nextIsWord]. by rewrite isWordRune_char.
Qed.

Lemma mapWords_run f run :
  run ≠ [] → Forall (λ c, isWordChar c = true) run → mapWords f run = f run.
Proof.
  intros Hne Hrun. rewrite <- (app_nil_r run) at 1.
  rewrite mapWords_word by done. by rewrite mapWords_nil, app_nil_r.
Qed.

(** Two passes in a row are one pass that treats each word twice. *)
Lemma mapWords_compose f g : ∀ n t,
  length t ≤ n →
  mapWords g (mapWords f t) = mapWords (λ word, mapWords g (f word)) t.
Proof.
  induction n as [|n IH]; intros t Hlen.
  { destruct t; [done|simpl in Hlen; lia]. }
  destruct (word_split t)
    as [->|[(x & t' & -> & Hx)|(run & rest & -> & Hrun & Hword & Hrest)]]; [done| |].
  - rewrite (mapWords_gap f), (mapWords_gap g),
      (mapWords_gap (λ word, mapWords g (f word))) by done.
    f_equal. apply IH. simpl in Hlen. lia.
  - rewrite (mapWords_word f), (mapWords_word (λ word, mapWords g (f word))) by done.
    rewrite mapWords_app_gap by by apply mapWords_gap_start.
    f_equal. apply IH. rewrite length_app in Hlen.
    assert (1 ≤ length run) by (destruct run; [done|simpl; lia]). lia.
Qed.

(** A pass goes through a pair of tags without touching them, unless its
    token is found in "em". *)
Lemma mapWords_tags g t :
  g ("em"%string : str) = ("em"%string : str) →
  mapWords g ("<em>"%string ++ t ++ "</em>"%string)
  = "<em>"%string ++ mapWords g t ++ "</em>"%string.
Proof.
  intros Hem.
  assert (Hword : ∀ rest : str,
            nextIsWord (bytesAsRunes rest) = false →
            mapWords g ("e"%char :: "m"%char :: rest)
            = "e"%char :: "m"%char :: mapWords g rest).
  { intros rest Hrest.
    change ("e"%char :: "m"%char :: rest) with (("em"%string : str) ++ rest).
    rewrite mapWords_word by (try done; by repeat constructor). by rewrite Hem. }
  assert (Hclose : mapWords g ("</em>"%string : str) = ("</em>"%string : str)).
  { cbn [list_ascii_of_string].
    rewrite (mapWords_gap g "<"%char), (mapWords_gap g "/"%char) by done.
    rewrite Hword by done. by rewrite (mapWords_gap g ">"%char) by done. }
  cbn [list_ascii_of_string app].
  rewrite (mapWords_gap g "<"%char) by done. rewrite Hword by done.
  rewrite (mapWords_gap g ">"%char) by done.
  rewrite mapWords_app_gap by done.
  cbn [list_ascii_of_string] in Hclose. by rewrite Hclose.
Qed.

Lemma mapWords_nest g n t :
  g ("em"%string : str) = ("em"%string : str) →
  mapWords g (nest n t) = nest n (mapWords g t).
Proof.
  intros Hem. induction n as [|n IH]; [done|].
  cbn [nest]. by rewrite mapWords_tags, IH.
Qed.

Lemma nest_nest n t : nest n ("<em>"%string ++ t ++ "</em>"%string) = nest (S n) t.
Proof.
  induction n as [|n IH]; [done|]. cbn [nest] in *. by rewrite IH.
Qed.

Lemma nest_ascii n t :
  Forall (λ c, isASCII c = true) t → Forall (λ c, isASCII c = true) (nest n t).
Proof.
  intros Ht. induction n as [|n IH]; [done|]. cbn [nest].
  apply Forall_app. split; [by repeat constructor|].
  apply Forall_app. split; [done|by repeat constructor].
Qed.

(** *** All passes *)

(** The passes for a list of tokens, started on a text in which each word
    already stands between some pairs of tags. *)
Lemma highlight_passes (tokens : list str) : ∀ (marked : str → str) text,
  Forall isTerm tokens →
  ("em"%string : str) ∉ tokens →
  Forall (λ c, isASCII c = true) text →
  (∀ word, word ≠ [] → Forall (λ c, isWordChar c = true) word →
     ∃ n, marked word = nest n word) →
  fold_left
    (λ highlighted token,
       if length token <? 2 then highlighted
       else
         highlight.wrapAll (highlight.pattern token) "<em>"%string "</em>"%string
           false 0 (utf8.runes highlighted))
    tokens (mapWords marked text)
  = mapWords
      (λ word,
         fold_left
           (λ marked token,
              if (2 <=? length token) && holdsToken word token
              then "<em>"%string ++ marked ++ "</em>"%string
              else marked)
           tokens (marked word))
      text.
Proof.
  induction tokens as [|tok tokens IH]; intros marked text Hterms Hem Hascii Hmarked;
    [done|].
  apply Forall_cons in Hterms as [Hterm Hterms].
  apply not_elem_of_cons in Hem as [Hne Hem].
  cbn [fold_left]. destruct (Nat.ltb_spec (length tok) 2) as [Hshort|Hlong].
  - rewrite IH by done. apply mapWords_ext. intros word _ _.
    destruct (Nat.leb_spec 2 (length tok)); [lia|]. done.
  - assert (Htok : tok ≠ [] ∧ Forall (λ c, isWordChar c = true) tok).
    { destruct Hterm as [? Hb]. split; [done|].
      eapply Forall_impl; [exact Hb|]. apply isLowWord_isWordChar. }
    destruct Htok as [Hnil Hword].
    assert (Hmem : holdsToken "em"%string tok = false).
    { apply em_holds_no_token; [done|]. by intros ->. }
    set (pass := λ word : str,
                   if anySuffix (prefixFold tok) word
                   then "<em>"%string ++ word ++ "</em>"%string else word).
    assert (Hpass_em : pass ("em"%string : str) = ("em"%string : str)).
    { unfold pass. by rewrite anySuffix_holdsToken, Hmem. }
    assert (Htext : Forall (λ c, isASCII c = true) (mapWords marked text)).
    { apply mapWords_Forall; [|done]. intros word Hw Hrun _.
      destruct (Hmarked word Hw Hrun) as [n ->]. apply nest_ascii.
      eapply Forall_impl; [exact Hrun|]. apply isWordChar_ascii. }
    rewrite runes_ascii by done.
    rewrite (wrapAll_mapWords tok _ _ _ _ false Hnil Hword (Nat.le_refl _)) by done.
    fold pass. rewrite (mapWords_compose marked pass _ _ (Nat.le_refl _)).
    rewrite IH; try done.
    + apply mapWords_ext. intros word Hw Hrun. f_equal.
      destruct (Hmarked word Hw Hrun) as [n ->].
      rewrite mapWords_nest, mapWords_run by done.
      destruct (Nat.leb_spec 2 (length tok)); [|lia]. cbn [andb].
      unfold pass. rewrite anySuffix_holdsToken by done.
      destruct (holdsToken word tok); [|done]. by rewrite nest_nest.
    + intros word Hw Hrun. destruct (Hmarked word Hw Hrun) as [n ->].
      rewrite mapWords_nest, mapWords_run by done. unfold pass.
      destruct (anySuffix (prefixFold tok) word); [|by exists n].
      exists (S n). by rewrite nest_nest.
Qed.

End HighlightFacts.

(** X22. [highlightText], on text without bytes above 127 (as the previews
    are) and for a query none of whose tokens is "em", returns the text with
    every maximal run of word bytes that holds a token of the query (of two
    or more bytes, letter case apart) put between [<em>] and [</em>], once
    for each such token; every other byte of the text is left as it is. A
    query without such a token leaves the text unchanged. *)
Theorem highlightText_words (text query : str) :
  Forall (λ c, isASCII c = true) text →
  ("em"%string : str) ∉ tp.ProcessText query →
  highlight.highlightText text query
  = mapWords (markWord (tp.ProcessText query)) text.
Proof.
  intros Hascii Hem. unfold highlight.highlightText.
  case_bool_decide as Hq.
  - subst query. change (tp.ProcessText []) with ([] : list str).
    symmetry. apply mapWords_id.
  - cbv zeta. rewrite <- (mapWords_id text) at 1.
    rewrite highlight_passes; try done.
    + apply ProcessText_terms.
    + intros word _ _. by exists 0.
Qed.

Lemma highlightText_words_witness :
  Forall (λ c, isASCII c = true)
    ("Harga rumah subsidi naik, Rumahku di perumahan baru..."%string : str)
  ∧ (("em"%string : str) ∉ tp.ProcessText "rumah baru"%string)
  ∧ highlight.highlightText
      "Harga rumah subsidi naik, Rumahku di perumahan baru..."%string
      "rumah baru"%string
    = mapWords (markWord (tp.ProcessText "rumah baru"%string))
        "Harga rumah subsidi naik, Rumahku di perumahan baru..."%string.
Proof.
  assert (H1 : Forall (λ c, isASCII c = true)
                 ("Harga rumah subsidi naik, Rumahku di perumahan baru..."%string : str)).
  { apply Forall_forall. intros c Hc. apply list_elem_of_In in Hc.
    revert c Hc. apply forallb_forall. vm_compute. reflexivity. }
  assert (H2 : ("em"%string : str) ∉ tp.ProcessText "rumah baru"%string).
  { apply (bool_decide_unpack _). vm_compute. exact I. }
  split; [exact H1|]. split; [exact H2|].
  exact (highlightText_words _ _ H1 H2).
Defined.

(** A run: the words that hold a token are wrapped as a whole, in either
    letter case. *)
Example highlightText_run :
  highlight.highlightText
    "Harga rumah subsidi naik, Rumahku di perumahan baru..."%string "rumah baru"%string
  = ("Harga <em>rumah</em> subsidi naik, <em>Rumahku</em> di <em>perumahan</em> <em>baru</em>..."%string : str).
Proof. vm_compute. reflexivity. Qed.

(** With the token "em" a later pass finds the word "em" inside the tags
    of an earlier pass and wraps it. *)
Example highlightText_em :
  highlight.highlightText "Harga rumah naik"%string "rumah em"%string
  = ("Harga <<em>em</em>>rumah</<em>em</em>> naik"%string : str).
Proof. vm_compute. reflexivity. Qed.

(** ** The highlighted preview *)

Lemma slice_Forall (P : ascii → Prop) (t : str) lo hi (w : str) :
  slice t lo hi = Some w → Forall P t → Forall P w.
Proof.
  unfold slice. intros Hw Ht.
  destruct ((0 <=? lo)%Z && (lo <=? hi)%Z && (hi <=? len t)%Z); [|done].
  injection Hw as <-. by apply Forall_take, Forall_drop.
Qed.

(** The bytes of a preview are bytes of the cleaned content and the full
    stops of the ellipsis. *)
Lemma getContentPreview_Forall (P : ascii → Prop) (content query : str) (maxLength : Z) :
  Forall P (cleanContent content) → P "."%char →
  ∃ preview,
    getContentPreview content query maxLength = Some preview ∧ Forall P preview.
Proof.
  intros Hclean Hdot.
  assert (Hdots : Forall P ("..."%string : str)) by by repeat constructor.
  unfold getContentPreview. cbv zeta. set (cleaned := cleanContent content) in *.
  destruct (Z.leb_spec (len cleaned) 160) as [Hshort|Hlen]; [by eexists|].
  destruct (Z.eqb_spec (matchPos cleaned query) (-1)) as [|Hpos].
  - destruct (slice_in_range cleaned 0 160 ltac:(lia) ltac:(lia)) as [head Hhead].
    rewrite Hhead. cbn [mbind option_bind]. eexists. split; [done|].
    apply Forall_app. split; [|done]. by eapply slice_Forall.
  - destruct (matchWordPos_defined cleaned query Hpos) as (wordPos & -> & Hrange).
    destruct (window_bounds cleaned wordPos Hlen Hrange) as (H0 & H1 & H2).
    destruct (slice_in_range cleaned _ _ (conj H0 H1) H2) as [window Hwin].
    cbn [mbind option_bind]. rewrite Hwin. cbn [mbind option_bind].
    eexists. split; [done|].
    pose proof (slice_Forall P _ _ _ _ Hwin Hclean) as Hwindow.
    unfold decorate. cbv zeta.
    destruct (0 <? windowStart wordPos)%Z,
      (windowEnd cleaned (windowStart wordPos) 160 <? len cleaned)%Z;
      rewrite ?Forall_app; cbn [app]; repeat split; done.
Qed.

(** X23. The highlighted preview of a result: for every content, and every
    query none of whose tokens is "em", [getContentPreview] returns a preview
    and [highlightText] returns that preview with every maximal run of word
    bytes that holds a token of the query (of two or more bytes, letter case
    apart) put between [<em>] and [</em>], once for each such token, and
    with every other byte as it is. *)
Theorem highlighted_preview (content query : str) (maxLength : Z) :
  ("em"%string : str) ∉ tp.ProcessText query →
  ∃ preview,
    getContentPreview content query maxLength = Some preview
    ∧ highlight.highlightText preview query
      = mapWords (markWord (tp.ProcessText query)) preview.
Proof.
  intros Hem.
  destruct (getContentPreview_Forall (λ c, isASCII c = true) content query maxLength)
    as (preview & Hpreview & Hbytes); [|done|].
  - eapply Forall_impl; [apply cleanContent_bytes|]. by intros c [? _].
  - exists preview. split; [done|].
    unfold highlight.highlightText. case_bool_decide as Hq.
    + subst query. change (tp.ProcessText []) with ([] : list str).
      symmetry. apply mapWords_id.
    + cbv zeta. rewrite <- (mapWords_id preview) at 1.
      rewrite highlight_passes; try done.
      * apply ProcessText_terms.
      * intros word _ _. by exists 0.
Qed.

Lemma highlighted_preview_witness :
  (("em"%string : str) ∉ tp.ProcessText "rumah subsidi"%string)
  ∧ ∃ preview,
      getContentPreview "Harga Rumah subsidi di perumahan baru naik!"%string
        "rumah subsidi"%string 160 = Some preview
      ∧ highlight.highlightText preview "rumah subsidi"%string
        = mapWords (markWord (tp.ProcessText "rumah subsidi"%string)) preview.
Proof.
  assert (H : ("em"%string : str) ∉ tp.ProcessText "rumah subsidi"%string).
  { apply (bool_decide_unpack _). vm_compute. exact I. }
  split; [exact H|]. exact (highlighted_preview _ _ 160 H).
Defined.

Example highlighted_preview_run :
  (preview ← getContentPreview "Harga Rumah subsidi di perumahan baru naik!"%string
               "rumah subsidi"%string 160;
   Some (highlight.highlightText preview "rumah subsidi"%string))
  = Some ("Harga <em>Rumah</em> <em>subsidi</em> di <em>perumahan</em> baru naik"%string : str).
Proof. vm_compute. reflexivity. Qed.


(** * Binary64 rounding

    What the rounding of the [float64] operations keeps, proved from the
    functions of [SpecFloat] that specify them: the sign of a result, the
    position of its leading bit, and the results that are exact. *)

Section Digits.

Local Open Scope Z_scope.

Lemma fexp_eq e : fexp prec emax e = fexp64 e.
Proof. reflexivity. Qed.

Lemma digits2_pos_bounds p :
  2 ^ (Zpos (digits2_pos p) - 1) ≤ Zpos p < 2 ^ Zpos (digits2_pos p).
Proof.
  induction p as [p IH|p IH|]; cbn [digits2_pos].
  - rewrite Pos2Z.inj_succ, Z.pow_succ_r by lia.
    replace (Z.succ (Zpos (digits2_pos p)) - 1) with (Z.succ (Zpos (digits2_pos p) - 1)) by lia.
    rewrite Z.pow_succ_r by lia. lia.
  - rewrite Pos2Z.inj_succ, Z.pow_succ_r by lia.
    replace (Z.succ (Zpos (digits2_pos p)) - 1) with (Z.succ (Zpos (digits2_pos p) - 1)) by lia.
    rewrite Z.pow_succ_r by lia. lia.
  - simpl. lia.
Qed.

Lemma digits_nonneg m : 0 ≤ digits m.
Proof. destruct m; simpl; lia. Qed.

Lemma digits_0 : digits 0 = 0.
Proof. reflexivity. Qed.

Lemma digits_bounds m : 0 < m → 2 ^ (digits m - 1) ≤ m < 2 ^ digits m.
Proof. destruct m as [|p|p]; [lia| |lia]. intros _. apply digits2_pos_bounds. Qed.

Lemma digits_pos m : 0 < m → 1 ≤ digits m.
Proof. destruct m as [|p|p]; [lia| |lia]. intros _. simpl. lia. Qed.

Lemma pow2_pos k : 0 ≤ k → 0 < 2 ^ k.
Proof. intros. by apply Z.pow_pos_nonneg. Qed.

Lemma pow2_le a b : 0 ≤ a ≤ b → 2 ^ a ≤ 2 ^ b.
Proof. intros. apply Z.pow_le_mono_r; lia. Qed.

Lemma pow2_lt a b : 0 ≤ a < b → 2 ^ a < 2 ^ b.
Proof. intros. apply Z.pow_lt_mono_r; lia. Qed.

Lemma pow2_lt_inv a b : 0 ≤ b → 2 ^ a < 2 ^ b → a < b.
Proof.
  intros Hb H. destruct (Z_lt_le_dec a b) as [|Hle]; [done|].
  pose proof (pow2_le b a ltac:(lia)). lia.
Qed.

(** [m < 2^k] says that [m] has at most [k] digits. *)
Lemma digits_le_pow m k : 0 ≤ m → 0 ≤ k → m < 2 ^ k → digits m ≤ k.
Proof.
  intros Hm Hk Hlt. destruct (Z.eq_dec m 0) as [->|Hne]; [by rewrite digits_0|].
  pose proof (digits_bounds m ltac:(lia)) as [Hlo _].
  pose proof (digits_pos m ltac:(lia)).
  assert (digits m - 1 < k); [|lia].
  apply pow2_lt_inv; [done|lia].
Qed.

Lemma digits_ge_pow m k : 0 ≤ k → 2 ^ k ≤ m → k + 1 ≤ digits m.
Proof.
  intros Hk Hle. pose proof (pow2_pos k Hk).
  pose proof (digits_bounds m ltac:(lia)) as [_ Hhi].
  pose proof (digits_nonneg m).
  assert (k < digits m); [|lia]. apply pow2_lt_inv; [done|lia].
Qed.

Lemma digits_unique m k : 0 < k → 2 ^ (k - 1) ≤ m < 2 ^ k → digits m = k.
Proof.
  intros Hk [Hlo Hhi]. pose proof (pow2_pos (k - 1) ltac:(lia)).
  pose proof (digits_le_pow m k ltac:(lia) ltac:(lia) Hhi).
  pose proof (digits_ge_pow m (k - 1) ltac:(lia) Hlo). lia.
Qed.


Lemma digits_pow2 k : 0 ≤ k → digits (2 ^ k) = k + 1.
Proof.
  intros Hk. apply digits_unique; [lia|].
  replace (k + 1 - 1) with k by lia. split; [lia|]. apply pow2_lt. lia.
Qed.

Lemma digits_mul_pow2 m k : 0 < m → 0 ≤ k → digits (m * 2 ^ k) = digits m + k.
Proof.
  intros Hm Hk. pose proof (digits_bounds m Hm) as [Hlo Hhi].
  pose proof (digits_pos m Hm). pose proof (pow2_pos k Hk).
  apply digits_unique; [lia|].
  replace (digits m + k - 1) with (digits m - 1 + k) by lia.
  rewrite !Z.pow_add_r by lia. split; nia.
Qed.

Lemma digits_div_pow2 m k :
  0 < m → 0 ≤ k < digits m → digits (m / 2 ^ k) = digits m - k.
Proof.
  intros Hm Hk. pose proof (digits_bounds m Hm) as [Hlo Hhi].
  pose proof (pow2_pos k ltac:(lia)).
  apply digits_unique; [lia|]. split.
  - apply Z.div_le_lower_bound; [done|].
    rewrite <- Z.pow_add_r by lia. by replace (k + (digits m - k - 1)) with (digits m - 1) by lia.
  - apply Z.div_lt_upper_bound; [done|].
    rewrite <- Z.pow_add_r by lia. by replace (k + (digits m - k)) with (digits m) by lia.
Qed.

Lemma div_pow2_small m k : 0 ≤ m → digits m ≤ k → m / 2 ^ k = 0.
Proof.
  intros Hm Hk. apply Z.div_small. split; [done|].
  destruct (Z.eq_dec m 0) as [->|]; [apply pow2_pos; pose proof (digits_nonneg 0); lia|].
  pose proof (digits_bounds m ltac:(lia)) as [_ Hhi].
  pose proof (digits_nonneg m).
  pose proof (pow2_le (digits m) k ltac:(lia)). lia.
Qed.

(** A number one above a number of [d] digits has [d] digits, or is [2^d]. *)
Lemma digits_succ m : 0 ≤ m →
  digits (m + 1) = digits m ∨ (digits (m + 1) = digits m + 1 ∧ m + 1 = 2 ^ digits m).
Proof.
  intros Hm. destruct (Z.eq_dec m 0) as [->|Hne]; [right; by compute|].
  pose proof (digits_bounds m ltac:(lia)) as [Hlo Hhi].
  pose proof (digits_pos m ltac:(lia)).
  destruct (Z.eq_dec (m + 1) (2 ^ digits m)) as [Heq|Hneq].
  - right. split; [|done]. rewrite Heq. apply digits_pow2. lia.
  - left. apply digits_unique; lia.
Qed.

End Digits.

(** ** Shifting a mantissa to the right *)

Section Shift.

Local Open Scope Z_scope.

Implicit Types (mrs : shr_record) (m e n : Z) (l : location).

Lemma shr_1_m mrs : 0 ≤ shr_m mrs → shr_m (shr_1 mrs) = shr_m mrs / 2.
Proof.
  destruct mrs as [m r s]. cbn [shr_m]. intros Hm. unfold shr_1.
  destruct m as [|[p|p|]|p]; cbn [shr_m]; [done| | |done|lia].
  - apply Z.div_unique with 1; lia.
  - apply Z.div_unique with 0; lia.
Qed.

Lemma div_div_pow2 a j k : 0 ≤ j → 0 ≤ k → a / 2 ^ j / 2 ^ k = a / 2 ^ (j + k).
Proof.
  intros Hj Hk. pose proof (pow2_pos j Hj). pose proof (pow2_pos k Hk).
  rewrite Z.div_div by lia. by rewrite Z.pow_add_r.
Qed.

Lemma iter_shr_1_m p : ∀ mrs,
  0 ≤ shr_m mrs → shr_m (SpecFloat.iter_pos shr_1 p mrs) = shr_m mrs / 2 ^ Zpos p.
Proof.
  assert (Hnn : ∀ mrs, 0 ≤ shr_m mrs → 0 ≤ shr_m (shr_1 mrs)).
  { intros mrs H. rewrite shr_1_m by done. by apply Z.div_pos. }
  induction p as [p IH|p IH|]; intros mrs Hm; cbn [SpecFloat.iter_pos].
  - assert (H1 : 0 ≤ shr_m (SpecFloat.iter_pos shr_1 p (shr_1 mrs))).
    { rewrite IH by auto. apply Z.div_pos; [auto|]. apply pow2_pos. lia. }
    rewrite IH, IH, shr_1_m by auto.
    change 2 with (2 ^ 1) at 1. rewrite !div_div_pow2 by lia.
    f_equal. f_equal. lia.
  - assert (H1 : 0 ≤ shr_m (SpecFloat.iter_pos shr_1 p mrs)).
    { rewrite IH by auto. apply Z.div_pos; [auto|]. apply pow2_pos. lia. }
    rewrite IH, IH by auto. rewrite div_div_pow2 by lia. f_equal. f_equal. lia.
  - rewrite shr_1_m by done. done.
Qed.

Lemma divide_pow2_le a j k : 0 ≤ j ≤ k → (2 ^ k | a) → (2 ^ j | a).
Proof.
  intros Hjk [c ->]. exists (c * 2 ^ (k - j)).
  rewrite <- Z.mul_assoc, <- Z.pow_add_r by lia. do 2 f_equal. lia.
Qed.

Lemma divide_div_pow2 a j k : 0 ≤ j ≤ k → (2 ^ k | a) → (2 ^ (k - j) | a / 2 ^ j).
Proof.
  intros Hjk [c ->]. exists c. pose proof (pow2_pos j ltac:(lia)).
  replace (2 ^ k) with (2 ^ (k - j) * 2 ^ j)
    by (rewrite <- Z.pow_add_r by lia; f_equal; lia).
  rewrite Z.mul_assoc, Z.div_mul by lia. done.
Qed.

Lemma shr_1_exact mrs :
  0 ≤ shr_m mrs → exactRecord mrs → (2 | shr_m mrs) → exactRecord (shr_1 mrs).
Proof.
  destruct mrs as [m r s]. cbn [shr_m]. intros Hm [Hr Hs] [c Hc]. cbn in Hr, Hs. subst r s.
  destruct m as [|[p|p|]|p]; try lia; done.
Qed.

Lemma iter_shr_1_exact p : ∀ mrs,
  0 ≤ shr_m mrs → exactRecord mrs → (2 ^ Zpos p | shr_m mrs) →
  exactRecord (SpecFloat.iter_pos shr_1 p mrs).
Proof.
  assert (Hnn : ∀ q mrs, 0 ≤ shr_m mrs → 0 ≤ shr_m (SpecFloat.iter_pos shr_1 q mrs)).
  { intros q mrs H. rewrite iter_shr_1_m by done. apply Z.div_pos; [done|].
    apply pow2_pos. lia. }
  induction p as [p IH|p IH|]; intros mrs Hm Hex Hdiv; cbn [SpecFloat.iter_pos].
  - rewrite Pos2Z.inj_xI in Hdiv.
    assert (H2 : (2 | shr_m mrs)).
    { apply (divide_pow2_le _ 1 (2 * Zpos p + 1)); [lia|done]. }
    assert (Hm1 : 0 ≤ shr_m (shr_1 mrs)) by (rewrite shr_1_m by done; by apply Z.div_pos).
    assert (Hd1 : (2 ^ (Zpos p + Zpos p) | shr_m (shr_1 mrs))).
    { rewrite shr_1_m by done.
      pose proof (divide_div_pow2 (shr_m mrs) 1 (2 * Zpos p + 1) ltac:(lia) Hdiv) as H.
      change (2 ^ 1) with 2 in H.
      replace (Zpos p + Zpos p) with (2 * Zpos p + 1 - 1); [exact H|lia]. }
    apply IH; [by apply Hnn| |].
    + apply IH; [done|by apply shr_1_exact|].
      apply (divide_pow2_le _ _ (Zpos p + Zpos p)); [lia|done].
    + rewrite iter_shr_1_m by done.
      match goal with
      | H : (2 ^ (Zpos p + Zpos p) | ?a) |- _ =>
          pose proof (divide_div_pow2 a (Zpos p) (Zpos p + Zpos p) ltac:(lia) H) as H'
      end.
      replace (Zpos p) with (Zpos p + Zpos p - Zpos p) at 1; [exact H'|lia].
  - assert (Hd : (2 ^ (Zpos p + Zpos p) | shr_m mrs)).
    { replace (Zpos p + Zpos p) with (Zpos p~0) by lia. exact Hdiv. }
    apply IH; [by apply Hnn| |].
    + apply IH; [done|done|].
      apply (divide_pow2_le _ _ (Zpos p + Zpos p)); [lia|exact Hd].
    + rewrite iter_shr_1_m by done.
      match goal with
      | H : (2 ^ (Zpos p + Zpos p) | ?a) |- _ =>
          pose proof (divide_div_pow2 a (Zpos p) (Zpos p + Zpos p) ltac:(lia) H) as H'
      end.
      replace (Zpos p) with (Zpos p + Zpos p - Zpos p) at 1; [exact H'|lia].
  - by apply shr_1_exact.
Qed.

Lemma shr_record_of_loc_m m l : shr_m (shr_record_of_loc m l) = m.
Proof. by destruct l as [|[| |]]. Qed.

(** The first component of [shr_fexp]: the mantissa divided, at the
    exponent of the format. *)
Lemma shr_fexp_spec m e l :
  0 ≤ m → e ≤ fexp64 (digits m + e) →
  ∃ mrs, shr_fexp prec emax m e l = (mrs, fexp64 (digits m + e))
         ∧ shr_m mrs = m / 2 ^ (fexp64 (digits m + e) - e)
         ∧ (l = loc_Exact → (2 ^ (fexp64 (digits m + e) - e) | m) → exactRecord mrs).
Proof.
  intros Hm He. unfold shr_fexp. rewrite fexp_eq. fold (digits m).
  set (n := fexp64 (digits m + e) - e).
  assert (Hn : 0 ≤ n) by lia. unfold shr.
  destruct n as [|p|p] eqn:Hp; [| |lia].
  - eexists. split; [f_equal; lia|]. rewrite shr_record_of_loc_m, Z.div_1_r.
    split; [done|]. by intros -> _.
  - eexists. split; [f_equal; lia|].
    rewrite iter_shr_1_m by (by rewrite shr_record_of_loc_m).
    rewrite shr_record_of_loc_m. split; [done|]. intros -> Hdiv.
    apply iter_shr_1_exact; [done|done|done].
Qed.

Lemma round_nearest_even_bounds m l :
  m ≤ round_nearest_even m l ≤ m + 1.
Proof.
  unfold round_nearest_even. destruct l as [|[| |]]; try lia.
  destruct (Z.even m); lia.
Qed.

Lemma loc_of_exact mrs : exactRecord mrs → loc_of_shr_record mrs = loc_Exact.
Proof. destruct mrs as [m r s]. intros [Hr Hs]. cbn in *. by subst. Qed.

End Shift.

Section Rounding.

Local Open Scope Z_scope.

Implicit Types (mx ex : Z) (lx : location).

(** The mantissa after the first shift has at most 53 digits, and as many
    as the format gives to a number of that size. *)
Lemma shifted_digits mx ex :
  0 ≤ mx → ex ≤ fexp64 (digits mx + ex) →
  let n := fexp64 (digits mx + ex) - ex in
  (digits mx ≤ n ∧ mx / 2 ^ n = 0 ∧ digits mx + ex ≤ -1074
     ∧ fexp64 (digits mx + ex) = -1074)
  ∨ (n < digits mx ∧ 0 < mx / 2 ^ n ∧ digits (mx / 2 ^ n) = digits mx - n
     ∧ digits (mx / 2 ^ n) ≤ 53).
Proof.
  intros Hmx He n. pose proof (digits_nonneg mx) as Hd.
  assert (Hn : 0 ≤ n) by (unfold n; lia).
  destruct (Z_le_gt_dec (digits mx) n) as [Hle|Hgt].
  - left. split; [done|]. split; [by apply div_pow2_small|].
    unfold n, fexp64 in *. lia.
  - right. assert (Hpos : 0 < mx) by (destruct (Z.eq_dec mx 0) as [->|]; [rewrite digits_0 in *|]; lia).
    assert (Hdig : digits (mx / 2 ^ n) = digits mx - n)
      by (apply digits_div_pow2; [done|unfold n in *; lia]).
    split; [lia|]. split; [|split; [done|unfold n, fexp64 in *; lia]].
    destruct (Z.eq_dec (mx / 2 ^ n) 0) as [H0|]; [rewrite H0, digits_0 in Hdig; lia|].
    pose proof (Z.div_pos mx (2 ^ n) Hmx (pow2_pos n ltac:(unfold n; lia))). lia.
Qed.

(** What rounding returns for a non-negative mantissa [mx] at exponent
    [ex], with [D = digits mx + ex]: zero only below the format; infinity
    only above it; otherwise a number of magnitude [D], or the power of two
    above. *)
Lemma binary_round_aux_range mx ex lx :
  0 ≤ mx → ex ≤ fexp64 (digits mx + ex) →
  match binary_round_aux prec emax false mx ex lx with
  | S754_zero s => s = false ∧ digits mx + ex ≤ -1074
  | S754_infinity s => s = false ∧ 1024 ≤ digits mx + ex
  | S754_nan => False
  | S754_finite s m e =>
      s = false
      ∧ digits mx + ex ≤ digits (Zpos m) + e ≤ Z.max (digits mx + ex + 1) (-1073)
      ∧ (digits (Zpos m) + e = digits mx + ex ∨ Zpos m = 2 ^ (digits (Zpos m) - 1))
  end.
Proof.
  intros Hmx He. unfold binary_round_aux.
  destruct (shr_fexp_spec mx ex lx Hmx He) as (mrs1 & -> & Hm1 & _).
  set (E1 := fexp64 (digits mx + ex)) in *. set (n := E1 - ex) in *.
  set (M := round_nearest_even (shr_m mrs1) (loc_of_shr_record mrs1)).
  pose proof (round_nearest_even_bounds (shr_m mrs1) (loc_of_shr_record mrs1)) as HM.
  fold M in HM. rewrite Hm1 in HM.
  pose proof (shifted_digits mx ex Hmx He) as Hcases. cbv zeta in Hcases. fold E1 n in Hcases.
  assert (Hn : 0 ≤ n) by (unfold n; lia).
  assert (HM0 : 0 ≤ M).
  { pose proof (Z.div_pos mx (2 ^ n) Hmx (pow2_pos n Hn)). lia. }
  assert (HE1 : -1074 ≤ E1) by (unfold E1, fexp64; lia).
  (* the digits of the rounded mantissa *)
  assert (HdM : (M = 0 ∧ mx / 2 ^ n = 0)
                ∨ (M = 1 ∧ mx / 2 ^ n = 0)
                ∨ (0 < mx / 2 ^ n
                   ∧ (digits M = digits (mx / 2 ^ n)
                      ∨ (digits M = digits (mx / 2 ^ n) + 1
                         ∧ M = 2 ^ digits (mx / 2 ^ n))))).
  { destruct (Z.eq_dec (mx / 2 ^ n) 0) as [H0|Hne].
    - rewrite H0 in HM. destruct (Z.eq_dec M 0); [by left|right; left; split; [lia|done]].
    - right. right.
      assert (Hq : 0 < mx / 2 ^ n).
      { pose proof (Z.div_pos mx (2 ^ n) Hmx (pow2_pos n Hn)). lia. }
      split; [done|].
      destruct (Z.eq_dec M (mx / 2 ^ n)) as [->|]; [by left|].
      replace M with (mx / 2 ^ n + 1) by lia.
      destruct (digits_succ (mx / 2 ^ n) ltac:(lia)) as [?|[? ?]]; [by left|by right]. }
  assert (Hpre : E1 ≤ fexp64 (digits M + E1)).
  { destruct HdM as [[-> H0]|[[-> H0]|[Hq HdM]]].
    - destruct Hcases as [(_ & _ & _ & HE)|(_ & Hq & _)]; [|lia].
      rewrite digits_0. unfold fexp64. lia.
    - destruct Hcases as [(_ & _ & _ & HE)|(_ & Hq & _)]; [|lia].
      change (digits 1) with 1. unfold fexp64. lia.
    - destruct Hcases as [(_ & H0 & _)|(Hlt & _ & Hdig & H53)]; [lia|].
      unfold fexp64. unfold n, E1, fexp64 in *. lia. }
  destruct (shr_fexp_spec M E1 loc_Exact HM0 Hpre) as (mrs2 & -> & Hm2 & _).
  rewrite Hm2. set (n2 := fexp64 (digits M + E1) - E1) in *.
  assert (HdM53 : digits M ≤ 54 ∧ (digits M = 54 → M = 2 ^ 53)).
  { destruct HdM as [[-> _]|[[-> _]|[Hq HdM]]]; [by compute|by compute|].
    destruct Hcases as [(_ & H0 & _)|(_ & _ & Hdig & H53)]; [lia|].
    destruct HdM as [->|[-> ->]]; [lia|]. split; [lia|]. intros H. f_equal. lia. }
  assert (Hn2 : n2 = 0 ∨ (n2 = 1 ∧ M = 2 ^ 53)).
  { destruct HdM53 as [H54 HM53]. unfold n2, fexp64 in *.
    destruct (Z.eq_dec (digits M) 54) as [H|H]; [right; split; [lia|auto]|left; lia]. }
  assert (Hres : M / 2 ^ n2 = M ∧ n2 = 0 ∨ M / 2 ^ n2 = 2 ^ 52 ∧ n2 = 1 ∧ M = 2 ^ 53).
  { destruct Hn2 as [->|[-> ->]]; [left; by rewrite Z.div_1_r|right; by compute]. }
  destruct Hres as [[-> Hn20]|(-> & Hn21 & HM53)].
  - (* no second shift *)
    destruct M as [|m|m] eqn:HMeq; [| |lia].
    + destruct HdM as [[_ H0]|[[? _]|[Hq HdM]]]; [|lia|].
      * destruct Hcases as [(_ & _ & HD & _)|(_ & Hq & _)]; [done|lia].
      * rewrite digits_0 in HdM. pose proof (digits_pos _ Hq). lia.
    + replace (fexp64 (digits (Z.pos m) + E1)) with E1 by lia.
      destruct (Z.leb_spec E1 (emax - prec)) as [Hfin|Hinf].
      * split; [done|].
        destruct HdM as [[? _]|[[HM1 H0]|[Hq HdM]]]; [lia| |].
        -- destruct Hcases as [(_ & _ & HD & HE)|(_ & Hq & _)]; [|lia].
           injection HM1 as ->. change (digits 1) with 1. fold E1 in HE.
           split; [lia|]. right. done.
        -- destruct Hcases as [(_ & H0 & _)|(Hlt & _ & Hdig & H53)]; [lia|].
           destruct HdM as [HdM|[HdM Hpow]].
           ++ split; [unfold n in *; lia|]. left. unfold n in *. lia.
           ++ split; [unfold n in *; lia|]. right. rewrite HdM, Hpow. f_equal. lia.
      * split; [done|]. change (emax - prec) with 971 in Hinf.
        destruct HdM as [[? _]|[[HM1 H0]|[Hq HdM]]]; [lia| |].
        -- destruct Hcases as [(_ & _ & HD & HE)|(_ & Hq & _)]; [|lia]. fold E1 in HE. lia.
        -- destruct Hcases as [(_ & H0 & _)|(Hlt & _ & Hdig & H53)]; [lia|].
           unfold n, E1, fexp64 in *. lia.
  - (* the mantissa reached [2^53] *)
    change (2 ^ 52) with (Zpos (4503599627370496)).
    replace (fexp64 (digits M + E1)) with (E1 + 1) by lia.
    assert (HD : digits mx + ex = 53 + E1 ∧ n < digits mx).
    { destruct HdM as [[? _]|[[? _]|[Hq HdM]]]; [lia|lia|].
      destruct Hcases as [(_ & H0 & _)|(Hlt & _ & Hdig & H53)]; [lia|].
      assert (digits M = 54) by (rewrite HM53; by compute).
      destruct HdM as [HdM|[HdM Hpow]]; unfold n in *; lia. }
    destruct (Z.leb_spec (E1 + 1) (emax - prec)) as [Hfin|Hinf].
    + split; [done|].
      change (digits (Zpos 4503599627370496)) with 53. split; [lia|]. right. done.
    + split; [done|]. change (emax - prec) with 971 in Hinf. lia.
Qed.

(** Rounding a mantissa that loses no bit is exact. *)
Lemma binary_round_aux_exact mx ex :
  0 < mx → ex ≤ fexp64 (digits mx + ex) →
  (2 ^ (fexp64 (digits mx + ex) - ex) | mx) →
  fexp64 (digits mx + ex) ≤ 971 →
  binary_round_aux prec emax false mx ex loc_Exact
  = S754_finite false (Z.to_pos (mx / 2 ^ (fexp64 (digits mx + ex) - ex)))
      (fexp64 (digits mx + ex)).
Proof.
  intros Hmx He Hdiv Hfin. unfold binary_round_aux.
  destruct (shr_fexp_spec mx ex loc_Exact ltac:(lia) He) as (mrs1 & -> & Hm1 & Hex).
  specialize (Hex eq_refl Hdiv). rewrite (loc_of_exact _ Hex).
  cbn [round_nearest_even]. rewrite Hm1.
  set (E1 := fexp64 (digits mx + ex)) in *. set (n := E1 - ex) in *.
  pose proof (shifted_digits mx ex ltac:(lia) He) as Hcases. cbv zeta in Hcases.
  fold E1 n in Hcases.
  assert (Hq : 0 < mx / 2 ^ n ∧ digits (mx / 2 ^ n) = digits mx - n ∧ digits (mx / 2 ^ n) ≤ 53).
  { destruct Hcases as [(Hle & H0 & _)|(_ & ? & ? & ?)]; [|done].
    exfalso. destruct Hdiv as [c Hc]. fold E1 n in Hc.
    assert (Hn : 0 ≤ n) by (unfold n; lia).
    pose proof (pow2_pos n Hn). rewrite Hc, Z.div_mul in H0 by lia. subst c. lia. }
  destruct Hq as (Hq & Hdig & H53).
  assert (Hfix : fexp64 (digits (mx / 2 ^ n) + E1) = E1).
  { unfold n, E1, fexp64 in *. lia. }
  destruct (shr_fexp_spec (mx / 2 ^ n) E1 loc_Exact ltac:(lia) ltac:(lia))
    as (mrs2 & -> & Hm2 & _).
  rewrite Hm2, Hfix, Z.sub_diag, Z.div_1_r.
  destruct (mx / 2 ^ n) as [|q|q] eqn:Hqeq; [lia| |lia].
  destruct (Z.leb_spec E1 (emax - prec)) as [_|Hinf]; [done|].
  change (emax - prec) with 971 in Hinf. lia.
Qed.

End Rounding.

(** ** Classes and magnitudes of floats *)

Section Classes.

Local Open Scope Z_scope.

Implicit Types (f x y : spec_float) (m : positive) (e : Z).

Lemma finite_nonneg f : finiteSF f → nonnegSF f.
Proof. by destruct f. Qed.

Lemma positive_finite f : positiveSF f → finiteSF f.
Proof. by destruct f. Qed.

Lemma valid_finite s m e :
  validSF (S754_finite s m e) → e = fexp64 (digits (Zpos m) + e) ∧ e ≤ 971.
Proof.
  unfold validSF, SpecFloat.valid_binary, bounded, canonical_mantissa. rewrite fexp_eq.
  intros [H1 H2]%andb_true_iff. apply Z.eqb_eq in H1. apply Z.leb_le in H2.
  change (emax - prec) with 971 in H2. split; [|done]. symmetry. exact H1.
Qed.




End Classes.

(** ** Rounding an integer mantissa *)

Section Normalize.

Local Open Scope Z_scope.

Implicit Types (m : positive) (e : Z).

Lemma iter_xO m d : Zpos (Pos.iter xO m d) = Zpos m * 2 ^ Zpos d.
Proof.
  induction d as [|d IH] using Pos.peano_ind.
  - simpl. lia.
  - rewrite Pos.iter_succ, Pos2Z.inj_xO, IH, Pos2Z.inj_succ, Z.pow_succ_r by lia. lia.
Qed.

Lemma shl_align_spec m e e' :
  let '(mz, ez) := shl_align m e e' in
  ez = Z.min e e' ∧ Zpos mz = Zpos m * 2 ^ (e - ez).
Proof.
  unfold shl_align. destruct (e' - e) as [|d|d] eqn:Hd.
  - split; [lia|]. replace (e - e) with 0 by lia. lia.
  - split; [lia|]. replace (e - e) with 0 by lia. lia.
  - split; [lia|]. rewrite iter_xO. do 2 f_equal. lia.
Qed.

(** The mantissa and exponent handed to the rounding by [binary_round]. *)
Lemma binary_round_aligned s m e :
  ∃ mz ez,
    binary_round prec emax s m e = binary_round_aux prec emax s (Zpos mz) ez loc_Exact
    ∧ ez = Z.min e (fexp64 (digits (Zpos m) + e))
    ∧ Zpos mz = Zpos m * 2 ^ (e - ez)
    ∧ digits (Zpos mz) + ez = digits (Zpos m) + e.
Proof.
  unfold binary_round. rewrite fexp_eq.
  change (Zpos (digits2_pos m)) with (digits (Zpos m)).
  pose proof (shl_align_spec m e (fexp64 (digits (Zpos m) + e))) as H.
  destruct (shl_align m e (fexp64 (digits (Zpos m) + e))) as [mz ez].
  destruct H as [Hez Hmz]. exists mz, ez. split; [done|]. split; [done|].
  split; [done|]. rewrite Hmz, digits_mul_pow2 by lia. lia.
Qed.


Lemma binary_round_exact m e :
  (fexp64 (digits (Zpos m) + e) ≤ e
   ∨ (2 ^ (fexp64 (digits (Zpos m) + e) - e) | Zpos m)) →
  fexp64 (digits (Zpos m) + e) ≤ 971 →
  binary_round prec emax false m e = canonical (Zpos m) e.
Proof.
  intros Hle Hfin.
  destruct (binary_round_aligned false m e) as (mz & ez & -> & Hez & Hmz & HD).
  set (t := fexp64 (digits (Zpos m) + e)) in *.
  rewrite binary_round_aux_exact; rewrite ?HD; fold t; try lia.
  - unfold canonical. fold t. do 2 f_equal.
    destruct (Z_le_gt_dec t e) as [Hte|Hte].
    + replace ez with t by lia. rewrite Z.sub_diag, Z.div_1_r, Hmz.
      rewrite Z.shiftl_mul_pow2 by lia. do 2 f_equal. lia.
    + replace ez with e in * by lia. rewrite Z.sub_diag, Z.mul_1_r in Hmz. rewrite Hmz.
      rewrite Z.shiftl_div_pow2 by lia. do 2 f_equal. lia.
  - destruct (Z_le_gt_dec t e) as [Hte|Hte].
    + replace ez with t by lia. rewrite Z.sub_diag. apply Z.divide_1_l.
    + replace ez with e in * by lia. rewrite Z.sub_diag, Z.mul_1_r in Hmz. rewrite Hmz.
      destruct Hle as [|Hdiv]; [lia|done].
Qed.


End Normalize.

(** ** The operations on non-negative floats *)

Section Operations.

Local Open Scope Z_scope.

Implicit Types (x y r : spec_float) (m : positive) (e : Z).


(** *** Multiplication *)


Lemma SFmul_zero x y :
  finiteSF x → finiteSF y → ¬ (positiveSF x ∧ positiveSF y) →
  ∃ s, SFmul prec emax x y = S754_zero s.
Proof.
  destruct x as [sx| | |sx mx ex], y as [sy| | |sy my ey]; try done; cbn [SFmul];
    intros Hx Hy Hn; try by eexists.
  cbn in Hx, Hy. subst. exfalso. by apply Hn.
Qed.


(** *** Addition *)


End Operations.

Section Comparisons.

Local Open Scope Z_scope.

Implicit Types (x y r : spec_float) (m : positive) (e : Z).








End Comparisons.

(** *** Division *)

Section Division.

Local Open Scope Z_scope.

Implicit Types (x y r : spec_float) (m : positive) (e : Z).








Lemma SFdiv_zero x y :
  (∃ s, x = S754_zero s) → positiveSF y ∨ y = S754_infinity false →
  ∃ s, SFdiv prec emax x y = S754_zero s.
Proof.
  intros [s ->] [Hy| ->]; [|by eexists].
  destruct y as [| | |sy my ey]; try done. by eexists.
Qed.

Lemma SFdiv_infinity x :
  positiveSF x → ∃ s, SFdiv prec emax x (S754_infinity false) = S754_zero s.
Proof. destruct x; try done. by eexists. Qed.

End Division.

(** *** Square root *)

Section SquareRoot.

Local Open Scope Z_scope.

Implicit Types (x y r : spec_float) (m : positive) (e : Z).

Lemma half_bounds a : 2 * (a / 2) ≤ a ≤ 2 * (a / 2) + 1.
Proof.
  pose proof (Z.div_mod a 2 ltac:(lia)). pose proof (Z.mod_pos_bound a 2 ltac:(lia)). lia.
Qed.

Lemma SFsqrt_core_spec (m : positive) e :
  let e' := Z.min (fexp64 ((digits (Zpos m) + e + 1) / 2)) (e / 2) in
  let s := e - 2 * e' in
  ∃ q l,
    SFsqrt_core_binary prec emax (Zpos m) e = (q, e', l)
    ∧ 0 ≤ s ∧ 0 ≤ q
    ∧ q * q ≤ Zpos m * 2 ^ s < (q + 1) * (q + 1).
Proof.
  cbv zeta. unfold SFsqrt_core_binary. rewrite fexp_eq, !Z.div2_div.
  change (Zdigits2 (Zpos m)) with (digits (Zpos m)).
  set (e' := Z.min _ _). set (s := e - 2 * e').
  pose proof (half_bounds e).
  assert (Hs : 0 ≤ s) by (unfold s, e'; lia).
  assert (Hm : match s with
               | Zpos _ => Z.shiftl (Zpos m) s
               | Z0 => Zpos m
               | Zneg _ => 0
               end = Zpos m * 2 ^ s).
  { destruct s as [|p|p] eqn:Hp; [lia| |lia]. by rewrite Z.shiftl_mul_pow2. }
  rewrite Hm. pose proof (pow2_pos s Hs).
  pose proof (Z.sqrtrem_spec (Zpos m * 2 ^ s) ltac:(nia)) as Hspec.
  destruct (Z.sqrtrem (Zpos m * 2 ^ s)) as [q r]. destruct Hspec as [Hsq Hr].
  eexists q, _. split; [done|]. split; [done|]. split; [lia|]. nia.
Qed.

Lemma root_digits n q :
  0 < n → 0 ≤ q → n < (q + 1) * (q + 1) → (digits n - 1) / 2 + 1 ≤ digits q.
Proof.
  intros Hn Hq Hlt. pose proof (digits_bounds n Hn) as [Hlo _].
  pose proof (digits_pos n Hn). pose proof (half_bounds (digits n - 1)).
  set (h := (digits n - 1) / 2) in *. assert (Hh : 0 ≤ h) by lia.
  apply digits_ge_pow; [done|].
  destruct (Z_le_gt_dec (2 ^ h) q) as [|Hgt]; [done|]. exfalso.
  pose proof (pow2_pos h Hh).
  assert (Hsq : (q + 1) * (q + 1) ≤ 2 ^ h * 2 ^ h) by nia.
  rewrite <- Z.pow_add_r in Hsq by lia.
  pose proof (pow2_le (h + h) (digits n - 1) ltac:(lia)). lia.
Qed.

Lemma SFsqrt_range x :
  validSF x → positiveSF x →
  nonnegSF (SFsqrt prec emax x) ∧ (lev x + 1) / 2 ≤ lev (SFsqrt prec emax x).
Proof.
  destruct x as [| | |sx mx ex]; try done.
  intros [Hex Hmax]%valid_finite Hsx. cbn in Hsx. subst sx. cbn [SFsqrt lev].
  pose proof (SFsqrt_core_spec mx ex) as (q & l & -> & Hs & Hq0 & Hsq1 & Hsq2).
  cbv zeta in *. set (e' := Z.min _ _) in *. set (s := ex - 2 * e') in *.
  pose proof (pow2_pos s Hs).
  pose proof (root_digits (Zpos mx * 2 ^ s) q ltac:(nia) Hq0 Hsq2) as Hdq.
  rewrite digits_mul_pow2 in Hdq by lia.
  pose proof (half_bounds (digits (Zpos mx) + s - 1)).
  pose proof (half_bounds (digits (Zpos mx) + ex + 1)).
  pose proof (half_bounds ex).
  pose proof (digits_pos (Zpos mx) ltac:(lia)).
  set (h := (digits (Zpos mx) + s - 1) / 2) in *.
  set (k := (digits (Zpos mx) + ex + 1) / 2) in *.
  assert (HD : k ≤ digits q + e') by (unfold s in *; lia).
  pose proof (binary_round_aux_range q e' l Hq0) as Hr.
  specialize (Hr ltac:(unfold e', fexp64 in *; lia)).
  destruct (binary_round_aux prec emax false q e' l) as [sr|sr| |sr mr er];
    cbn [nonnegSF lev]; [| |done|].
  - destruct Hr as [-> ?]. split; [done|]. unfold fexp64 in *. lia.
  - destruct Hr as [-> ?]. split; [done|]. unfold fexp64 in *. lia.
  - destruct Hr as (-> & ? & _). split; [done|]. lia.
Qed.

Lemma SFsqrt_nonneg x : validSF x → nonnegSF x → nonnegSF (SFsqrt prec emax x).
Proof.
  intros Hv Hx. destruct x as [s|s| |s m e] eqn:Ex; try done.
  - cbn in Hx. by subst.
  - by apply SFsqrt_range.
Qed.

End SquareRoot.

(** ** Integers as floats *)

Section Integers.

Local Open Scope Z_scope.

Lemma canonical_valid n :
  0 < n < 2 ^ 53 → canonical n 0 = S754_finite false (Z.to_pos (n * 2 ^ (53 - digits n))) (digits n - 53).
Proof.
  intros Hn. unfold canonical.
  assert (Hd : 1 ≤ digits n ≤ 53).
  { split; [apply digits_pos; lia|apply digits_le_pow; lia]. }
  rewrite Z.add_0_r. replace (fexp64 (digits n)) with (digits n - 53) by (unfold fexp64; lia).
  rewrite Z.shiftl_mul_pow2 by lia.
  by replace (0 - (digits n - 53)) with (53 - digits n) by lia.
Qed.

Lemma canonical_positive n e : positiveSF (canonical n e).
Proof. done. Qed.

Lemma canonical_lev n : 0 < n < 2 ^ 53 → lev (canonical n 0) = digits n.
Proof.
  intros Hn. rewrite canonical_valid by done. cbn [lev].
  assert (Hd : 1 ≤ digits n ≤ 53).
  { split; [apply digits_pos; lia|apply digits_le_pow; lia]. }
  pose proof (pow2_pos (53 - digits n) ltac:(lia)).
  rewrite Z2Pos.id by nia. rewrite digits_mul_pow2 by lia. lia.
Qed.


(** [float64(n)] for a positive [n] below [2^53]. *)
Lemma of_uint63_canonical n :
  0 < n < 2 ^ 53 → Prim2SF (of_uint63 (Uint63.of_Z n)) = canonical n 0.
Proof.
  intros Hn. rewrite of_uint63_spec, Uint63.of_Z_spec.
  assert (Hlt : 2 ^ 53 < wB) by done.
  rewrite Z.mod_small by lia.
  destruct n as [|p|p]; [lia| |lia]. cbn [binary_normalize].
  assert (Hd : 1 ≤ digits (Zpos p) ≤ 53).
  { split; [apply digits_pos; lia|apply digits_le_pow; lia]. }
  apply binary_round_exact; unfold fexp64; lia.
Qed.

Lemma of_uint63_zero : Prim2SF (of_uint63 (Uint63.of_Z 0)) = S754_zero false.
Proof. reflexivity. Qed.


End Integers.

(** ** Integers beyond 53 digits *)

Section RoundInteger.

Local Open Scope Z_scope.












End RoundInteger.

(** * The range of the scores *)

Section FloatFacts.

Implicit Types (x y : float).











End FloatFacts.

(** ** The weights of the query and of a document *)

Section Weights.

Implicit Types (t term : str) (tokens : list str) (articles : list Article).








End Weights.

Section DocumentWeights.

Implicit Types (t term : str) (tokens : list str) (articles : list Article).
Implicit Types (Log : float → float) (v qv nq nd : gmap str float).



(** *** The normalized vectors *)




End DocumentWeights.

(** ** The Jaccard quotient *)

Section JaccardRange.

Implicit Types (t term : str) (tokens : list str) (articles : list Article).
Implicit Types (Log : float → float) (qv : gmap str float).





End JaccardRange.

(** ** The function standing for [math.Log] in test runs *)

Section LogStandIn.



End LogStandIn.

(** ** Test runs *)

Example proportional_tokens :
  map documentTokens proportionalArticles
  = [strs ["rumah"; "rumah"; "rumah"; "kota"; "kota"; "kota"]%string;
     strs ["harga"; "tanah"]%string]
  ∧ tp.ProcessText proportionalQuery
    = strs ["rumah"; "rumah"; "rumah"; "kota"; "kota"; "kota"]%string.
Proof. split; vm_compute; reflexivity. Qed.

(** The run step by step, with [Log 2 = 0.6931471805599453]: each weight
    of the document is [3 * Log 2 = 2.0794415416798357]; each weight of
    either normalized vector is [0.7071067811865476] (for the query,
    [3 / sqrt 18]); a product of two of them is [0.5000000000000001], and
    two such products add up to [1.0000000000000002]. *)
Example proportional_run :
  let tfidfScores :=
    calculateTFIDF logTwoDocs (buildInvertedIndex proportionalArticles)
      (length proportionalArticles) in
  (map_to_list (docVectorOf tfidfScores 0)).*2
  = [0x1.0a2b23f3bab73p+1; 0x1.0a2b23f3bab73p+1]%float
  ∧ (map_to_list (normalizeVector (docVectorOf tfidfScores 0))).*2
    = [0x1.6a09e667f3bcdp-1; 0x1.6a09e667f3bcdp-1]%float
  ∧ (map_to_list (normalizeVector (countTokens (tp.ProcessText proportionalQuery)))).*2
    = [0x1.6a09e667f3bcdp-1; 0x1.6a09e667f3bcdp-1]%float
  ∧ (0x1.6a09e667f3bcdp-1 * 0x1.6a09e667f3bcdp-1)%float = 0x1.0000000000001p-1%float
  ∧ (0 + 0x1.0000000000001p-1 + 0x1.0000000000001p-1)%float
    = 0x1.0000000000001p+0%float.
Proof. cbv zeta. repeat split; vm_compute; reflexivity. Qed.

(** Whatever function stands for [math.Log], if its value at 2 is the one
    of [math.Log], the cosine score of the first of the two articles is
    the float above 1: both vectors have two equal weights, each
    normalized weight is [0.7071067811865476], and the two products
    [0.5000000000000001] add up to [1.0000000000000002]. *)
Lemma cosine_above_one (Log : float → float) :
  Log 2%float = log2Value →
  cosineSimilarityWithTFIDF (countTokens (tp.ProcessText proportionalQuery))
    (calculateTFIDF Log (buildInvertedIndex proportionalArticles)
       (length proportionalArticles)) 0
  = 0x1.0000000000001p+0%float.
Proof.
  intros HLog.
  assert (Htable : calculateTFIDF Log (buildInvertedIndex proportionalArticles)
                     (length proportionalArticles)
                   = calculateTFIDF logTwoDocs (buildInvertedIndex proportionalArticles)
                       (length proportionalArticles)).
  { unfold calculateTFIDF. apply map_fmap_ext. intros term pl Hpl.
    assert (Hdf : DocFrequency pl = 1).
    { revert term pl Hpl.
      apply (bool_decide_unpack
               (map_Forall (λ _ pl, DocFrequency pl = 1)
                  (buildInvertedIndex proportionalArticles))).
      vm_compute. exact I. }
    rewrite Hdf. change (float64 (length proportionalArticles) / float64 1)%float
      with 2%float. rewrite HLog. reflexivity. }
  rewrite Htable. vm_compute. reflexivity.
Qed.



